(** * BTCPreprocess: intensity normalisation and merge-and-crop

    A shallow embedding of the array code of [src/btc_preprocess.py]:
    [_get_volume_landmarks], [_intensity_transform], [_merge_to_one_volume]
    and [_keep_minimum_volume].

    Modelling conventions.
    - Voxel intensities and percentile points are rationals ([Q]).  The
      definitions of the first part compute with them exactly; they are used
      for the properties that rounding cannot change (shapes, errors, order,
      bounds).  Module [Ieee] rounds a rational to the nearest value of a
      binary floating-point format; module [Float64] repeats the landmark
      estimator with every arithmetic operation rounded to double precision,
      for the properties that the rounding decides, and the crop casts its
      result to single precision as the source does.
    - A volume seen only through elementwise operations, [np.where] and
      [np.sort] is its flat list of voxels (row-major order).  The merger
      works on nested lists, axis 0 outermost.
    - A Python computation that can raise returns a [result].
    - The constants of [btc_settings.py] ([PCTS], [EDGE_SPACE],
      [BRAIN_SHAPE], [FULL_SHAPE]) are arguments of the functions that read
      them. *)

From Stdlib Require Import List ZArith QArith Qround Qreduction Lia Bool.
From Stdlib Require Import Floats.SpecFloat.
From Stdlib Require Import Permutation Sorting.Sorted.
From Stdlib Require Import Qfield Lqa.
From Stdlib Require String Ascii DecimalString.
Import ListNotations.

Open Scope Q_scope.

(** ** Exceptions and results *)

(** [IndexError] and [ValueError] are the builtin exceptions numpy raises on
    the paths modelled below; [OverflowError] is what the conversions between
    Python integers and floats raise.  [EmptyForegroundError] and
    [EmptyVolumeError] are the names of the specification's error taxonomy;
    no definition of this file constructs them, as no line of the source
    raises them. *)
Inductive exn : Set :=
| IndexError
| ValueError
| OverflowError
| EmptyForegroundError
| EmptyVolumeError.

Inductive result (A : Type) : Type :=
| Ok (a : A)
| Raise (e : exn).

Arguments Ok {A} a.
Arguments Raise {A} e.

Definition bind {A B : Type} (r : result A) (k : A -> result B) : result B :=
  match r with
  | Ok a => k a
  | Raise e => Raise e
  end.

Notation "x <- r ;; k" := (bind r (fun x => k))
  (at level 61, r at next level, right associativity).
Notation "' p <- r ;; k" := (bind r (fun p => k))
  (at level 61, p pattern, r at next level, right associativity).

(** A [for] loop that builds a list and stops at the first exception. *)
Fixpoint mapM {A B : Type} (f : A -> result B) (l : list A) : result (list B) :=
  match l with
  | [] => Ok []
  | x :: l' => y <- f x ;; ys <- mapM f l' ;; Ok (y :: ys)
  end.

(** ** The numpy operations the source calls *)

Module Np.

Definition Qlt_bool (x y : Q) : bool := negb (Qle_bool y x).

Definition qmin (x y : Q) : Q := if Qle_bool x y then x else y.

(** [np.min(a)]: a zero-size array has no minimum. *)
Definition min (a : list Q) : result Q :=
  match a with
  | [] => Raise ValueError
  | x :: a' => Ok (fold_left qmin a' x)
  end.

(** [np.min] / [np.max] of an index array. *)
Definition minZ (a : list Z) : result Z :=
  match a with
  | [] => Raise ValueError
  | x :: a' => Ok (fold_left Z.min a' x)
  end.

Definition maxZ (a : list Z) : result Z :=
  match a with
  | [] => Raise ValueError
  | x :: a' => Ok (fold_left Z.max a' x)
  end.

(** [a[i]] for a Python integer [i]: negative indices count from the end. *)
Definition getitem {A : Type} (a : list A) (i : Z) : result A :=
  let n := Z.of_nat (length a) in
  let j := if (i <? 0)%Z then (i + n)%Z else i in
  if (j <? 0)%Z then Raise IndexError
  else match nth_error a (Z.to_nat j) with
       | Some x => Ok x
       | None => Raise IndexError
       end.

(** [np.where(c(a))] as a boolean mask over the flat array. *)
Definition where_ (c : Q -> bool) (a : list Q) : list bool := map c a.

(** [a[idx]]: the selected values, in array order. *)
Fixpoint gather (idx : list bool) (a : list Q) : list Q :=
  match idx, a with
  | true :: idx', v :: a' => v :: gather idx' a'
  | false :: idx', _ :: a' => gather idx' a'
  | _, _ => []
  end.

(** [a[idx] = vals]: the selected positions take the values in order. *)
Fixpoint scatter (idx : list bool) (vals : list Q) (a : list Q) : list Q :=
  match idx, a with
  | true :: idx', v :: a' =>
      match vals with
      | y :: vals' => y :: scatter idx' vals' a'
      | [] => v :: scatter idx' [] a'
      end
  | false :: idx', v :: a' => v :: scatter idx' vals a'
  | _, _ => a
  end.

(** [a[idx] = x] for a scalar [x]. *)
Fixpoint fill (idx : list bool) (x : Q) (a : list Q) : list Q :=
  match idx, a with
  | b :: idx', v :: a' => (if b then x else v) :: fill idx' x a'
  | _, _ => a
  end.

(** [np.sort]: ascending order. *)
Fixpoint insert (x : Q) (l : list Q) : list Q :=
  match l with
  | [] => [x]
  | y :: l' => if Qle_bool x y then x :: l else y :: insert x l'
  end.

Fixpoint sort (a : list Q) : list Q :=
  match a with
  | [] => []
  | x :: a' => insert x (sort a')
  end.

(** [np.add] of two rows. *)
Fixpoint add (a b : list Q) : list Q :=
  match a, b with
  | x :: a', y :: b' => (x + y) :: add a' b'
  | _, _ => []
  end.

(** The result of [np.mean(rows, axis=0)] on the array built from a list of
    equally long rows: the mean of an empty list of rows is the scalar
    [nan]; otherwise it is a vector with one entry per column.  The sums
    and the quotient are exact ([Float64.mean_axis0] rounds them). *)
Inductive mean_result : Type :=
| Nan
| Vector (v : list Q).

Definition mean_axis0 (rows : list (list Q)) : mean_result :=
  match rows with
  | [] => Nan
  | r :: rows' =>
      let total := fold_left add rows' r in
      Vector (map (fun s => s / inject_Z (Z.of_nat (length rows))) total)
  end.

(** [np.interp(x, xp, fp)] for one [x] with [xp[0] <= x <= xp[-1]]: the
    segment [xp[j] <= x < xp[j+1]] is looked up from the left. *)
Fixpoint interp_segment (x : Q) (xp fp : list Q) : Q :=
  match xp, fp with
  | x0 :: ((x1 :: _) as xp'), y0 :: ((y1 :: _) as fp') =>
      if Qlt_bool x x1
      then if Qeq_bool x0 x then y0
           else (y1 - y0) / (x1 - x0) * (x - x0) + y0
      else interp_segment x xp' fp'
  | _, y0 :: _ => y0
  | _, [] => 0
  end.

Definition interp1 (xp fp : list Q) (x0 xn y0 yn : Q) (x : Q) : Q :=
  if Qlt_bool x x0 then y0
  else if Qlt_bool xn x then yn
  else interp_segment x xp fp.

Definition interp (x xp fp : list Q) : result (list Q) :=
  if negb (length xp =? length fp)%nat then Raise ValueError
  else match xp, fp with
       | x0 :: _, y0 :: _ =>
           Ok (map (interp1 xp fp x0 (last xp x0) y0 (last fp y0)) x)
       | _, _ => Raise ValueError
       end.

End Np.

(** ** IEEE 754 binary floating point

    The values of a binary format with [prec] bits of precision and the
    largest exponent [emax] ([53] and [1024] for [float64], [24] and [128]
    for [float32]), and the rounding of a rational to the nearest of them,
    ties to the even mantissa.  A finite value is the rational it denotes;
    the sign of a zero is not kept. *)
Module Ieee.

Inductive value : Set :=
| Finite (q : Q)
| Infinity (negative : bool)
| NaN.

(** [floor(log2 a)] for [a > 0]. *)
Definition ilog2 (a : Q) : Z :=
  if Qle_bool 1 a then Z.log2 (Qfloor a) else (- Z.log2_up (Qceiling (/ a)))%Z.

(** The nearest integer, the even one of two that are equally near. *)
Definition round_half_even (x : Q) : Z :=
  let f := Qfloor x in
  match Qcompare (x - inject_Z f) (1 # 2) with
  | Lt => f
  | Gt => (f + 1)%Z
  | Eq => if Z.even f then f else (f + 1)%Z
  end.

(** [a * 2^e]. *)
Definition ldexp (a : Q) (e : Z) : Q :=
  if (0 <=? e)%Z then a * inject_Z (2 ^ e) else a / inject_Z (2 ^ (- e)).

(** The rounding of [a > 0]: the mantissa is the multiple of [2^e] nearest to
    [a], where [2^e] is the spacing of the format at [a] (the smallest
    spacing, [2^(3 - emax - prec)], for the subnormal numbers); a result of
    [2^emax] or more overflows. *)
Definition round_pos (prec emax : Z) (a : Q) : option Q :=
  let e := Z.max (ilog2 a - (prec - 1)) (3 - emax - prec) in
  let m := round_half_even (ldexp a (- e)) in
  let r := ldexp (inject_Z m) e in
  if Qle_bool (inject_Z (2 ^ emax)) r then None else Some (Qred r).

Definition round (prec emax : Z) (x : Q) : value :=
  match Qcompare x 0 with
  | Eq => Finite 0
  | Gt => match round_pos prec emax (Qred x) with
          | Some r => Finite r
          | None => Infinity false
          end
  | Lt => match round_pos prec emax (Qred (- x)) with
          | Some r => Finite (- r)
          | None => Infinity true
          end
  end.

(** The value as the Standard Library's specification of IEEE 754 has it,
    for a finite value [m * 2^e] given by [m] and [e]. *)
Definition of_spec_float (f : spec_float) : value :=
  match f with
  | S754_zero _ => Finite 0
  | S754_infinity s => Infinity s
  | S754_nan => NaN
  | S754_finite s m e => Finite (Qred (ldexp (inject_Z (cond_Zopp s (Zpos m))) e))
  end.

Definition value_eqb (a b : value) : bool :=
  match a, b with
  | Finite x, Finite y => (Qnum x =? Qnum y)%Z && (Qden x =? Qden y)%positive
  | Infinity s, Infinity t => Bool.eqb s t
  | NaN, NaN => true
  | _, _ => false
  end.

(** Whether [round] gives, for the quotient of the integers [n * 2^k] and
    [d * 2^j], the value that the Standard Library's division gives for
    these two operands. *)
Definition round_agrees (prec emax : Z) (n : Z) (d : positive) (k j : Z) : bool :=
  value_eqb (round prec emax ((n * 2 ^ k) # (d * Z.to_pos (2 ^ j))))
            (of_spec_float
               (SFdiv prec emax (binary_normalize prec emax n k false)
                                (binary_normalize prec emax (Zpos d) j false))).

End Ieee.

(** [x.astype(np.float32)] for a finite [float64] value [x]. *)
Definition astype_float32 (x : Q) : Ieee.value := Ieee.round 24 128 x.

(** ** LandmarkEstimator: [_get_volume_landmarks] *)

(** Lines 380-385 and 442-447: when the minimum is negative the zero voxels
    take it, and the volume is shifted so that its minimum is 0. *)
Definition set_background_to_minimum (volume : list Q) : result (list Q) :=
  volume_min <- Np.min volume ;;
  if Np.Qlt_bool volume_min 0 then
    let volume := Np.fill (Np.where_ (fun v => Qeq_bool v 0) volume) volume_min volume in
    m <- Np.min volume ;;
    Ok (map (fun v => v - m) volume)
  else Ok volume.

(** Lines 389-390: the sorted non-background voxels. *)
Definition sorted_foreground (volume : list Q) : list Q :=
  Np.sort (Np.gather (Np.where_ (fun v => Np.Qlt_bool 0 v) volume) volume).

(** Lines 396-398, with the product taken exactly ([Float64.pct_idx] rounds
    it). *)
Definition pct_idx (p : Q) (sort_len : nat) : Z :=
  let pct_idx := (Qceiling (p * inject_Z (Z.of_nat sort_len)) - 1)%Z in
  if (pct_idx <? 0)%Z then 0%Z else pct_idx.

(** Lines 394-399: the percentile values of one sorted array. *)
Definition percentile_values (PCTS : list Q) (sort : list Q) : result (list Q) :=
  mapM (fun p => Np.getitem sort (pct_idx p (length sort))) PCTS.

(** The body of the loop over the subjects, lines 380-399. *)
Definition one_volume_pct (PCTS : list Q) (volume : list Q) : result (list Q) :=
  volume <- set_background_to_minimum volume ;;
  percentile_values PCTS (sorted_foreground volume).

(** The non-background voxels of a volume, as the estimator sees them. *)
Definition foreground (volume : list Q) : list Q :=
  match set_background_to_minimum volume with
  | Ok volume => sorted_foreground volume
  | Raise _ => []
  end.

(** [_get_volume_landmarks]: [volumes] are the loaded volumes of one type in
    the order of [self.volume_no]. *)
Definition get_volume_landmarks (PCTS : list Q) (volumes : list (list Q))
  : result (Np.mean_result * list (list Q)) :=
  all_volume_pct <- mapM (one_volume_pct PCTS) volumes ;;
  Ok (Np.mean_axis0 all_volume_pct, all_volume_pct).

(** ** LandmarkEstimator in double precision

    [_get_volume_landmarks] on [float64] volumes, with the rounding of every
    arithmetic operation written out.  A loaded voxel is a finite double,
    given by the rational it denotes; the values computed from it can be
    infinite. *)
Module Float64.

Import Ieee.

Definition round : Q -> value := Ieee.round 53 1024.

Definition opp (a : value) : value :=
  match a with
  | Finite x => Finite (- x)
  | Infinity s => Infinity (negb s)
  | NaN => NaN
  end.

Definition add (a b : value) : value :=
  match a, b with
  | Finite x, Finite y => round (x + y)
  | Infinity s, Infinity t => if Bool.eqb s t then Infinity s else NaN
  | Infinity s, Finite _ => Infinity s
  | Finite _, Infinity t => Infinity t
  | NaN, _ => NaN
  | _, NaN => NaN
  end.

Definition sub (a b : value) : value := add a (opp b).

Definition mul (a b : value) : value :=
  match a, b with
  | Finite x, Finite y => round (x * y)
  | Infinity s, Infinity t => Infinity (xorb s t)
  | Infinity s, Finite y =>
      if Qeq_bool y 0 then NaN else Infinity (xorb s (Np.Qlt_bool y 0))
  | Finite x, Infinity t =>
      if Qeq_bool x 0 then NaN else Infinity (xorb (Np.Qlt_bool x 0) t)
  | NaN, _ => NaN
  | _, NaN => NaN
  end.

(** [a / n] for the double [n] of a count, which is positive. *)
Definition div_count (a n : value) : value :=
  match a, n with
  | Finite x, Finite y => round (x / y)
  | Finite _, Infinity _ => Finite 0
  | Infinity s, Finite _ => Infinity s
  | Infinity _, Infinity _ => NaN
  | NaN, _ => NaN
  | _, NaN => NaN
  end.

(** [a < b]; a comparison with [nan] is false. *)
Definition ltb (a b : value) : bool :=
  match a, b with
  | NaN, _ => false
  | _, NaN => false
  | Finite x, Finite y => Np.Qlt_bool x y
  | Finite _, Infinity t => negb t
  | Infinity s, Finite _ => s
  | Infinity s, Infinity t => s && negb t
  end.

(** The order of [np.sort]: ascending, [nan] last. *)
Definition sort_le (a b : value) : bool :=
  match a, b with
  | _, NaN => true
  | NaN, _ => false
  | _, _ => negb (ltb b a)
  end.

Fixpoint insert (x : value) (l : list value) : list value :=
  match l with
  | [] => [x]
  | y :: l' => if sort_le x y then x :: l else y :: insert x l'
  end.

Fixpoint sort (a : list value) : list value :=
  match a with
  | [] => []
  | x :: a' => insert x (sort a')
  end.

(** The double of a Python integer: [float(n)], as in [p * sort_len]. *)
Definition of_int (n : Z) : result value :=
  match round (inject_Z n) with
  | Finite q => Ok (Finite q)
  | _ => Raise OverflowError
  end.

(** [int(np.ceil(x))]. *)
Definition ceil_to_int (x : value) : result Z :=
  match x with
  | Finite q => Ok (Qceiling q)
  | Infinity _ => Raise OverflowError
  | NaN => Raise ValueError
  end.

(** Lines 380-385: the subtraction of the minimum is rounded. *)
Definition set_background_to_minimum (volume : list Q) : result (list value) :=
  volume_min <- Np.min volume ;;
  if Np.Qlt_bool volume_min 0 then
    let volume := Np.fill (Np.where_ (fun v => Qeq_bool v 0) volume) volume_min volume in
    m <- Np.min volume ;;
    Ok (map (fun v => sub (Finite v) (Finite m)) volume)
  else Ok (map Finite volume).

(** Lines 389-390: [np.sort(volume[np.where(volume > 0)])]. *)
Definition sorted_foreground (volume : list value) : list value :=
  sort (filter (fun v => ltb (Finite 0) v) volume).

(** Lines 396-398: [int(np.ceil(p * sort_len)) - 1], not below 0.  The
    percentile point [p] is a double, the one nearest to the rational it is
    written as; [sort_len] becomes a double, and the product is rounded. *)
Definition pct_idx (p : Q) (sort_len : nat) : result Z :=
  sort_len <- of_int (Z.of_nat sort_len) ;;
  pct_idx <- ceil_to_int (mul (round p) sort_len) ;;
  let pct_idx := (pct_idx - 1)%Z in
  Ok (if (pct_idx <? 0)%Z then 0%Z else pct_idx).

(** Lines 394-399. *)
Definition percentile_values (PCTS : list Q) (sort : list value)
  : result (list value) :=
  mapM (fun p => pct_idx <- pct_idx p (length sort) ;; Np.getitem sort pct_idx) PCTS.

(** The body of the loop over the subjects, lines 380-399. *)
Definition one_volume_pct (PCTS : list Q) (volume : list Q) : result (list value) :=
  volume <- set_background_to_minimum volume ;;
  percentile_values PCTS (sorted_foreground volume).

(** The sorted non-background voxels of a volume. *)
Definition foreground (volume : list Q) : list value :=
  match set_background_to_minimum volume with
  | Ok volume => sorted_foreground volume
  | Raise _ => []
  end.

Fixpoint add_rows (a b : list value) : list value :=
  match a, b with
  | x :: a', y :: b' => add x y :: add_rows a' b'
  | _, _ => []
  end.

Inductive mean_result : Type :=
| Nan
| Vector (v : list value).

(** [np.mean(rows, axis=0)] on a [float64] table: the rows are added in
    their order (the order of [np.add.reduce] along the first axis of a
    table with several columns, or with fewer than eight rows), and each
    sum is divided by the double of the number of rows. *)
Definition mean_axis0 (rows : list (list value)) : mean_result :=
  match rows with
  | [] => Nan
  | r :: rows' =>
      let total := fold_left add_rows rows' r in
      Vector (map (fun s => div_count s (round (inject_Z (Z.of_nat (length rows)))))
                  total)
  end.

(** [_get_volume_landmarks]. *)
Definition get_volume_landmarks (PCTS : list Q) (volumes : list (list Q))
  : result (mean_result * list (list value)) :=
  all_volume_pct <- mapM (one_volume_pct PCTS) volumes ;;
  Ok (mean_axis0 all_volume_pct, all_volume_pct).


End Float64.

(** ** IntensityTransformer: [_intensity_transform] *)

(** Lines 452-465, for a volume after the background correction and its own
    row [pct_i] of percentile values. *)
Definition transform_corrected (volume pct_i landmarks : list Q) : result (list Q) :=
  pct_max <- Np.getitem pct_i (-1) ;;
  let higher_idx := Np.where_ (fun v => Qle_bool pct_max v) volume in
  pct_min <- Np.getitem pct_i 0 ;;
  let lower_idx := Np.where_ (fun v => Np.Qlt_bool v pct_min) volume in
  let non_bg_idx := Np.where_ (fun v => Np.Qlt_bool 0 v) volume in
  new <- Np.interp (Np.gather non_bg_idx volume) pct_i landmarks ;;
  let volume := Np.scatter non_bg_idx new volume in
  landmarks_max <- Np.getitem landmarks (-1) ;;
  let volume := Np.fill higher_idx landmarks_max volume in
  let volume := Np.fill lower_idx 0 volume in
  Ok volume.

(** The body of the loop, lines 442-465, for one volume with its own row
    [pct_i] of percentile values. *)
Definition transform_volume (volume pct_i landmarks : list Q) : result (list Q) :=
  volume <- set_background_to_minimum volume ;;
  transform_corrected volume pct_i landmarks.


(** ** VolumeMerger: [_merge_to_one_volume] and [_keep_minimum_volume] *)

(** A 3-D array [a[x][y][z]] and the 4-D ensemble [full[x][y][z][c]]. *)
Definition array3 (A : Type) : Type := list (list (list A)).
Definition volume3 : Type := array3 Q.
Definition volume4 : Type := array3 (list Q).

Definition shape3 {A : Type} (a : array3 A) : nat * nat * nat :=
  (length a, length (hd [] a), length (hd [] (hd [] a))).

Definition shape4 {A : Type} (a : array3 (list A)) : nat * nat * nat * nat :=
  (shape3 a, length (hd [] (hd [] (hd [] a)))).

(** Every plane has [n1] rows and every row [n2] entries. *)
Definition has_shape {A : Type} (n0 n1 n2 : nat) (a : array3 A) : Prop :=
  length a = n0 /\
  Forall (fun plane => length plane = n1 /\
                       Forall (fun row => length row = n2) plane) a.

(** [np.rot90(m, 3, axes=(0, 1))], which numpy computes as
    [flip(transpose(m), 1)]: [rot90_3 m [i][j] = m[n0-1-j][i]]. *)
Definition transpose {A : Type} (m : array3 A) : array3 A :=
  map (fun j => map (fun plane => nth j plane []) m)
      (seq 0 (length (hd [] m))).

Definition rot90_3 {A : Type} (m : array3 A) : array3 A :=
  map (@rev (list A)) (transpose m).

(** Assignment of an axis of length [length l] to one of length [n]: the
    lengths agree, or the single entry is repeated. *)
Definition broadcast {A : Type} (n : nat) (l : list A) : result (list A) :=
  if (length l =? n)%nat then Ok l
  else match l with
       | [x] => Ok (repeat x n)
       | _ => Raise ValueError
       end.

Definition broadcast3 (n0 n1 n2 : nat) (v : volume3) : result volume3 :=
  planes <- broadcast n0 v ;;
  mapM (fun plane => rows <- broadcast n1 plane ;; mapM (broadcast n2) rows) planes.

Fixpoint set_nth (i : nat) (x : Q) (l : list Q) : list Q :=
  match i, l with
  | O, _ :: l' => x :: l'
  | S i', y :: l' => y :: set_nth i' x l'
  | _, [] => []
  end.

Fixpoint zip_with {A B C : Type} (f : A -> B -> C) (a : list A) (b : list B) : list C :=
  match a, b with
  | x :: a', y :: b' => f x y :: zip_with f a' b'
  | _, _ => []
  end.

(** [full_volume[..., i] = volume]. *)
Definition set_channel (FULL_SHAPE : nat * nat * nat * nat) (i : nat)
    (full : volume4) (volume : volume3) : result volume4 :=
  let '(n0, n1, n2, nc) := FULL_SHAPE in
  if negb (i <? nc)%nat then Raise IndexError
  else
    volume <- broadcast3 n0 n1 n2 volume ;;
    Ok (zip_with (zip_with (zip_with (fun cs v => set_nth i v cs))) full volume).

Definition zeros (FULL_SHAPE : nat * nat * nat * nat) : volume4 :=
  let '(n0, n1, n2, nc) := FULL_SHAPE in
  repeat (repeat (repeat (repeat 0 nc) n2) n1) n0.

(** Lines 519-532: the loop over [VOLUME_TYPES]; [volumes] are the loaded
    channel volumes in that order, [i] the index of the first one. *)
Fixpoint fill_channels (FULL_SHAPE : nat * nat * nat * nat) (i : nat)
    (full : volume4) (volumes : list volume3) : result volume4 :=
  match volumes with
  | [] => Ok full
  | volume :: rest =>
      full <- set_channel FULL_SHAPE i full (rot90_3 volume) ;;
      fill_channels FULL_SHAPE (S i) full rest
  end.

(** [np.sum(full, axis=3)]. *)
Definition sum_axis3 (full : volume4) : volume3 :=
  map (map (map (fun cs => fold_left Qplus cs 0))) full.

Definition flatten3 {A : Type} (a : array3 A) : list A := concat (concat a).

Definition enumerate {A : Type} (l : list A) : list (Z * A) :=
  combine (map Z.of_nat (seq 0 (length l))) l.

(** [np.where(c(a))] on a 3-D array: the coordinates, in row-major order. *)
Definition where3 (c : Q -> bool) (a : volume3) : list (Z * Z * Z) :=
  flat_map (fun '(x, plane) =>
    flat_map (fun '(y, row) =>
      flat_map (fun '(z, v) => if c v then [(x, y, z)] else []) (enumerate row))
      (enumerate plane))
    (enumerate a).

(** The tuple of the three index arrays [np.where] returns. *)
Definition index_arrays (idx : list (Z * Z * Z)) : list (list Z) :=
  [map (fun c => fst (fst c)) idx; map (fun c => snd (fst c)) idx; map snd idx].

(** A Python slice [l[b:e]]. *)
Definition slice {A : Type} (b e : Z) (l : list A) : list A :=
  let n := Z.of_nat (length l) in
  let norm i := if (i <? 0)%Z then Z.max 0 (i + n) else Z.min i n in
  firstn (Z.to_nat (norm e - norm b)) (skipn (Z.to_nat (norm b)) l).

(** Lines 597-600; [index_begin] and [index_end] have three entries. *)
Definition sub_array {A : Type} (arr : array3 A) (index_begin index_end : list Z)
  : array3 A :=
  map (fun plane =>
         map (slice (nth 2 index_begin 0%Z) (nth 2 index_end 0%Z))
             (slice (nth 1 index_begin 0%Z) (nth 1 index_end 0%Z) plane))
      (slice (nth 0 index_begin 0%Z) (nth 0 index_end 0%Z) arr).

(** Lines 613-620: one turn of the loop over the axes. *)
Definition add_edge_space (EDGE_SPACE : Z) (BRAIN_SHAPE : list Z) (i : nat)
    (dims_begin_i dims_end_i : Z) : result (Z * Z) :=
  let dims_begin_i := (dims_begin_i - EDGE_SPACE)%Z in
  let dims_begin_i := if (dims_begin_i <? 0)%Z then 0%Z else dims_begin_i in
  let dims_end_i := (dims_end_i + EDGE_SPACE)%Z in
  shape_i <- Np.getitem BRAIN_SHAPE (Z.of_nat i) ;;
  let dims_end_i :=
    if (dims_end_i >? shape_i - 1)%Z then (shape_i - 1)%Z else dims_end_i in
  Ok (dims_begin_i, dims_end_i).

(** Lines 602-609: [(dims_begin, dims_end)] before the margin is added. *)
Definition non_bg_range (full : volume4) : result (list Z * list Z) :=
  let full_sum := sum_axis3 full in
  min_full_sum <- Np.min (flatten3 full_sum) ;;
  let non_bg_index :=
    index_arrays (where3 (fun v => Np.Qlt_bool min_full_sum v) full_sum) in
  dims_begin <- mapM Np.minZ non_bg_index ;;
  dims_end <- mapM (fun nzi => m <- Np.maxZ nzi ;; Ok (m + 1)%Z) non_bg_index ;;
  Ok (dims_begin, dims_end).

(** Lines 602-620: the index ranges [(dims_begin, dims_end)] that are sliced. *)
Definition bounding_box (EDGE_SPACE : Z) (BRAIN_SHAPE : list Z) (full : volume4)
  : result (list Z * list Z) :=
  '(dims_begin, dims_end) <- non_bg_range full ;;
  dims <- mapM (fun '(i, (b, e)) => add_edge_space EDGE_SPACE BRAIN_SHAPE i b e)
               (combine (seq 0 (length dims_begin)) (combine dims_begin dims_end)) ;;
  Ok (map fst dims, map snd dims).

(** The extents of the three spatial axes of the ensemble volume. *)
Definition axis_extents (full : volume4) : list Z :=
  let '(n0, n1, n2) := shape3 full in
  [Z.of_nat n0; Z.of_nat n1; Z.of_nat n2].

(** No voxel of the ensemble has a channel sum other than the minimum. *)
Definition all_background (full : volume4) : Prop :=
  forall m, Np.min (flatten3 (sum_axis3 full)) = Ok m ->
            Forall (fun s => s == m) (flatten3 (sum_axis3 full)).

(** The cropped ensemble, cast to [float32]. *)
Definition volume4_float32 : Type := array3 (list Ieee.value).

(** [new_full.astype(np.float32)]. *)
Definition astype_float32_4 (a : volume4) : volume4_float32 :=
  map (map (map (map astype_float32))) a.

(** [_keep_minimum_volume]. *)
Definition keep_minimum_volume {M : Type} (EDGE_SPACE : Z) (BRAIN_SHAPE : list Z)
    (full : volume4) (mask : array3 M) : result (volume4_float32 * array3 M) :=
  '(dims_begin, dims_end) <- bounding_box EDGE_SPACE BRAIN_SHAPE full ;;
  let new_full := sub_array full dims_begin dims_end in
  let new_full := astype_float32_4 new_full in
  let new_mask := sub_array mask dims_begin dims_end in
  Ok (new_full, new_mask).

(** [_merge_to_one_volume]: the pair it saves. *)
Definition merge_to_one_volume {M : Type} (FULL_SHAPE : nat * nat * nat * nat)
    (EDGE_SPACE : Z) (BRAIN_SHAPE : list Z)
    (volumes : list volume3) (mask_volume : array3 M)
  : result (volume4_float32 * array3 M) :=
  full_volume <- fill_channels FULL_SHAPE 0 (zeros FULL_SHAPE) volumes ;;
  let mask_volume := rot90_3 mask_volume in
  keep_minimum_volume EDGE_SPACE BRAIN_SHAPE full_volume mask_volume.

(** The value lines 452-465 leave in a voxel of corrected intensity [v], for
    the percentile values [p0 :: pct] and the landmarks [l0 :: lm]: the three
    assignments read in the order opposite to the one they are made in. *)
Definition transform_voxel (p0 : Q) (pct : list Q) (l0 : Q) (lm : list Q)
    (v : Q) : Q :=
  if Np.Qlt_bool v p0 then 0
  else if Qle_bool (last (p0 :: pct) 0) v then last (l0 :: lm) 0
  else if Np.Qlt_bool 0 v
       then Np.interp1 (p0 :: pct) (l0 :: lm)
                       p0 (last (p0 :: pct) p0) l0 (last (l0 :: lm) l0) v
       else v.

(** Line 607: the coordinates of the voxels whose channel sum exceeds the
    minimum. *)
Definition non_bg_index (full : volume4) : result (list (Z * Z * Z)) :=
  let full_sum := sum_axis3 full in
  min_full_sum <- Np.min (flatten3 full_sum) ;;
  Ok (where3 (fun v => Np.Qlt_bool min_full_sum v) full_sum).

(** The entry [a[x][y][z]], [d] outside the array. *)
Definition voxel {A : Type} (a : array3 A) (x y z : nat) (d : A) : A :=
  nth z (nth y (nth x a []) []) d.

(** An ensemble of spatial shape [(n0, n1, n2)] with [nc] channels. *)
Definition has_shape4 (n0 n1 n2 nc : nat) (full : volume4) : Prop :=
  has_shape n0 n1 n2 full /\
  Forall (Forall (Forall (fun cs : list Q => length cs = nc))) full.

(** ** The scripts beside the preprocessing *)

(** The exceptions of the two scripts below: those of the array code, and
    three builtin ones that it cannot raise. *)
Inductive script_error : Set :=
| Builtin (e : exn)
| UnboundLocalError
| FileNotFoundError
| TypeError.

(** *** [bts_reorganize.py]: [BTSReorganize._reorganize]

    The input directory is given by what [os.listdir] returns at each level,
    in the order it returns it: sub-targets, their patient directories,
    their volume directories and the files of those.  The run is the
    sequence of the guarded [os.makedirs] statements and the [copy] calls it
    executes, the value the variable [source_file] holds at the end, and
    the exception that stopped it, if any.  The entries of a volume
    directory are files, and a file exists exactly when its name is in the
    listing of its directory: [copy] from any other name raises
    [FileNotFoundError].  [os.path.join] and the constant [VOLUME_NAMES] of
    [bts_settings.py] are parameters. *)
Module Reorganize.

Import String.
Local Open Scope string_scope.

Inductive event : Set :=
| Makedirs_if_missing (path : string)
| Copy (source_path target_path : string).

Definition run : Set := list event * option string * option script_error.

(** [str(n)] for a non-negative integer. *)
Definition str (n : nat) : string :=
  DecimalString.NilEmpty.string_of_uint (Nat.to_uint n).

(** [s.endswith(suffix)]. *)
Definition endswith (s suffix : string) : bool :=
  let n := length s in
  let m := length suffix in
  if (m <=? n)%nat then substring (n - m) m s =? suffix else false.

Section Settings.

Variable join : string -> string -> string.
Variable VOLUME_NAMES : list string.

(** Lines 94-96: the variable keeps its value when no file matches. *)
Definition find_mha (source_file : option string) (source_files : list string)
  : option string :=
  fold_left (fun source_file sf =>
               if endswith sf ".mha" then Some sf else source_file)
            source_files source_file.

(** Lines 100. *)
Definition target_file_name (n : nat) (name : string) : string :=
  str n ++ "_" ++ name ++ ".mha".

(** Lines 90-104: the loop over the volume directories of patient [n],
    entered with the counter [i] and the current [source_file]. *)
Fixpoint copy_volumes (sub_from_path sub_to_path : string) (n i : nat)
    (source_file : option string)
    (sub_from_dirs : list (string * list string)) : run :=
  match sub_from_dirs with
  | [] => ([], source_file, None)
  | (sd, source_files) :: rest =>
      let sub_sub_from_path := join sub_from_path sd in
      let source_file := find_mha source_file source_files in
      match source_file with
      | None => ([], source_file, Some UnboundLocalError)
      | Some name =>
          let source_path := join sub_sub_from_path name in
          match nth_error VOLUME_NAMES i with
          | None => ([], source_file, Some (Builtin IndexError))
          | Some volume_name =>
              let target_path := join sub_to_path (target_file_name n volume_name) in
              if existsb (String.eqb name) source_files then
                let '(events, source_file', raised) :=
                  copy_volumes sub_from_path sub_to_path n (S i) source_file rest in
                (Copy source_path target_path :: events, source_file', raised)
              else ([], source_file, Some FileNotFoundError)
          end
      end
  end.

(** Lines 80-106: the loop over the patient directories of one sub-target. *)
Fixpoint copy_patients (from_path to_path : string) (n : nat)
    (source_file : option string)
    (from_dirs : list (string * list (string * list string))) : run :=
  match from_dirs with
  | [] => ([], source_file, None)
  | (d, sub_from_dirs) :: rest =>
      let sub_to_path := join to_path (str n) in
      let sub_from_path := join from_path d in
      let '(events, source_file, raised) :=
        copy_volumes sub_from_path sub_to_path n 0 source_file sub_from_dirs in
      match raised with
      | Some e => (Makedirs_if_missing sub_to_path :: events, source_file, Some e)
      | None =>
          let '(events', source_file', raised') :=
            copy_patients from_path to_path (S n) source_file rest in
          (Makedirs_if_missing sub_to_path :: events ++ events',
           source_file', raised')
      end
  end.

(** Lines 69-106: the loop over the sub-targets. *)
Fixpoint copy_sub_targets (input_dir output_dir : string)
    (source_file : option string)
    (sub_target : list (string * list (string * list (string * list string))))
  : run :=
  match sub_target with
  | [] => ([], source_file, None)
  | (st, from_dirs) :: rest =>
      let to_path := join output_dir st in
      let from_path := join input_dir st in
      let '(events, source_file, raised) :=
        copy_patients from_path to_path 0 source_file from_dirs in
      match raised with
      | Some e => (Makedirs_if_missing to_path :: events, source_file, Some e)
      | None =>
          let '(events', source_file', raised') :=
            copy_sub_targets input_dir output_dir source_file rest in
          (Makedirs_if_missing to_path :: events ++ events', source_file', raised')
      end
  end.

(** [_reorganize]: [source_file] is unbound when it starts. *)
Definition reorganize (input_dir output_dir : string)
    (sub_target : list (string * list (string * list (string * list string))))
  : run :=
  copy_sub_targets input_dir output_dir None sub_target.

(** The copies a patient directory gives when every volume directory holds
    an [.mha] file: one per volume directory, named after the patient number
    and the volume names in their order. *)
Definition patient_copies (sub_from_path sub_to_path : string) (n : nat)
    (names : list string) (sub_from_dirs : list (string * list string))
  : list event :=
  map (fun '((sd, source_files), volume_name) =>
         Copy (join (join sub_from_path sd)
                    (match find_mha None source_files with
                     | Some name => name
                     | None => EmptyString
                     end))
              (join sub_to_path (target_file_name n volume_name)))
      (combine sub_from_dirs names).

Definition has_mha (source_files : list string) : Prop :=
  exists sf, In sf source_files /\ endswith sf ".mha" = true.

(** The events of a sub-target whose patient directories are all complete:
    the patients are numbered from [start] in the order of the listing. *)
Definition patient_events (from_path to_path : string) (start : nat)
    (from_dirs : list (string * list (string * list string))) : list event :=
  flat_map (fun '(n, (d, sub_from_dirs)) =>
              Makedirs_if_missing (join to_path (str n))
              :: patient_copies (join from_path d) (join to_path (str n)) n
                                VOLUME_NAMES sub_from_dirs)
           (combine (seq start (List.length from_dirs)) from_dirs).

Definition tree_events (input_dir output_dir : string)
    (sub_target : list (string * list (string * list (string * list string))))
  : list event :=
  flat_map (fun '(st, from_dirs) =>
              Makedirs_if_missing (join output_dir st)
              :: patient_events (join input_dir st) (join output_dir st) 0
                                from_dirs)
           sub_target.

End Settings.

(** [os.path.join] on two relative POSIX path components. *)
Definition posix_join (a b : string) : string := a ++ "/" ++ b.

Definition is_copy (e : event) : bool :=
  match e with Copy _ _ => true | Makedirs_if_missing _ => false end.

(** The numbers of patient directories and of volume directories. *)
Definition count_patients
    (sub_target : list (string * list (string * list (string * list string))))
  : nat :=
  list_sum (map (fun st => List.length (snd st)) sub_target).

Definition count_volume_dirs
    (sub_target : list (string * list (string * list (string * list string))))
  : nat :=
  list_sum (map (fun st => list_sum (map (fun d => List.length (snd d)) (snd st)))
                sub_target).

(** Every patient directory has at most [k] volume directories, each with an
    [.mha] file. *)
Definition well_formed (k : nat)
    (sub_target : list (string * list (string * list (string * list string))))
  : Prop :=
  Forall (fun st =>
            Forall (fun d =>
                      (List.length (snd d) <= k)%nat /\
                      Forall (fun sd => has_mha (snd sd)) (snd d))
                   (snd st))
         sub_target.

End Reorganize.

(** *** [cv_stats.py], lines 76-89: the mean ROC curve *)
Module Roc.

Inductive outcome (A : Type) : Type :=
| Done (a : A)
| Failed (e : script_error).

Arguments Done {A} a.
Arguments Failed {A} e.

Definition lift {A : Type} (r : result A) : outcome A :=
  match r with
  | Ok a => Done a
  | Raise e => Failed (Builtin e)
  end.

(** [np.linspace(0, 1, 100)]. *)
Definition mean_fpr : list Q :=
  map (fun i => inject_Z (Z.of_nat i) / 99) (seq 0 100).

(** [a[0] = x] on a list that is an array. *)
Definition set_first (x : Q) (a : list Q) : result (list Q) :=
  match a with
  | [] => Raise IndexError
  | _ :: a' => Ok (x :: a')
  end.

(** [a[-1] = x]. *)
Definition set_last (x : Q) (a : list Q) : result (list Q) :=
  match a with
  | [] => Raise IndexError
  | _ :: _ => Ok (removelast a ++ [x])
  end.

(** Lines 80-82: the interpolated true positive rates of all curves but the
    last one; a curve is its pair of rows [(curve[0], curve[1])]. *)
Definition interpolated_tprs (roc_curves : list (list Q * list Q))
  : result (list (list Q)) :=
  mapM (fun curve : list Q * list Q =>
          tpr <- Np.interp mean_fpr (fst curve) (snd curve) ;;
          set_first 0 tpr)
       (removelast roc_curves).

(** Lines 76-89: [mean_tpr].  Line 84 reads [roc_curves[-1]] between the
    loop and the mean.  The mean of no curve is the scalar [nan], to which
    line 89 cannot assign. *)
Definition mean_tpr (roc_curves : list (list Q * list Q)) : outcome (list Q) :=
  match interpolated_tprs roc_curves with
  | Raise e => Failed (Builtin e)
  | Ok tprs =>
      match roc_curves with
      | [] => Failed (Builtin IndexError)
      | _ :: _ =>
          match Np.mean_axis0 tprs with
          | Np.Nan => Failed TypeError
          | Np.Vector mean_tpr => lift (set_last 1 mean_tpr)
          end
      end
  end.

End Roc.

(** ** Test volumes *)

(** The cube of side [n] that holds [v] at [(x, y, z)] and [d] elsewhere. *)
Definition single_voxel {A : Type} (n x y z : nat) (v d : A) : array3 A :=
  map (fun i =>
    map (fun j =>
      map (fun k => if ((i =? x) && (j =? y) && (k =? z))%nat then v else d)
          (seq 0 n))
      (seq 0 n))
    (seq 0 n).

(** Four channel volumes of shape (4,4,4) whose only non-background voxel is
    the one at (2,2,2), and the mask of that voxel. *)
Definition scenario_channels : list volume3 :=
  [single_voxel 4 2 2 2 5 0; single_voxel 4 2 2 2 7 0;
   single_voxel 4 2 2 2 3 0; single_voxel 4 2 2 2 9 0].

Definition scenario_mask : array3 Z := single_voxel 4 2 2 2 1%Z 0%Z.

(** An ensemble of shape (4,4,4,4) whose only non-background voxel is the
    one at (2,2,2), as handed to [_keep_minimum_volume]. *)
Definition scenario_full : volume4 := single_voxel 4 2 2 2 [5; 7; 3; 9] [0; 0; 0; 0].

(** An ensemble of shape (2,2,2,1) with its non-background voxel in the last
    corner. *)
Definition corner_full : volume4 := single_voxel 2 1 1 1 [1] [0].

(** The percentile index in the words of the specification (4.1, step 3):
    [ceil(p * n) - 1], clamped to 0 when negative. *)
Definition spec_percentile_index (p : Q) (n : nat) : Z :=
  Z.max 0 (Qceiling (p * inject_Z (Z.of_nat n)) - 1).

(** The cohort mean in the words of the specification (4.1, cohort level):
    the entry [j] of every profile, summed and divided by their number. *)
Definition spec_mean_at (profiles : list (list Q)) (j : nat) : Q :=
  fold_right Qplus 0 (map (fun profile => nth j profile 0) profiles)
  / inject_Z (Z.of_nat (length profiles)).

(** The column sums, started from a row of zeros rather than the first row. *)
Definition column_sums (k : nat) (rows : list (list Q)) : list Q :=
  fold_left Np.add rows (repeat 0 k).

(** * Properties *)

(** ** The rounding on small inputs

    The rounding of [Ieee] gives the values that the Standard Library's
    specification of IEEE 754 arithmetic computes. *)

Example round_float64_division :
  Ieee.round 53 1024 (7 # 100)
  = Ieee.of_spec_float
      (SFdiv 53 1024 (binary_normalize 53 1024 7 0 false)
                     (binary_normalize 53 1024 100 0 false)) /\
  Ieee.round 53 1024 (7 # 100) = Ieee.Finite (Qred (5044031582654956 # 2 ^ 56)).
Proof. vm_compute. split; reflexivity. Qed.

Example round_float64_product :
  Float64.mul (Float64.round (7 # 100)) (Ieee.Finite 100)
  = Ieee.of_spec_float
      (SFmul 53 1024
             (SFdiv 53 1024 (binary_normalize 53 1024 7 0 false)
                            (binary_normalize 53 1024 100 0 false))
             (binary_normalize 53 1024 100 0 false)) /\
  Float64.mul (Float64.round (7 # 100)) (Ieee.Finite 100)
  = Ieee.Finite (7 + (1 # 2 ^ 50)) /\
  Float64.mul (Float64.round (1 # 10)) (Ieee.Finite 10) = Ieee.Finite 1.
Proof. vm_compute. repeat split; reflexivity. Qed.

Example round_float64_sum :
  Float64.add (Ieee.Finite (inject_Z (2 ^ 53))) (Ieee.Finite 1)
  = Ieee.Finite (inject_Z (2 ^ 53)) /\
  Float64.add (Ieee.Finite (inject_Z (2 ^ 53))) (Ieee.Finite 3)
  = Ieee.Finite (inject_Z (2 ^ 53 + 4)) /\
  Float64.add (Ieee.Finite (inject_Z (2 ^ 53))) (Ieee.Finite 3)
  = Ieee.of_spec_float
      (SFadd 53 1024 (binary_normalize 53 1024 (2 ^ 53) 0 false)
                     (binary_normalize 53 1024 3 0 false)).
Proof. vm_compute. repeat split; reflexivity. Qed.

Example round_float64_range :
  Ieee.round 53 1024 (inject_Z (2 ^ 1024)) = Ieee.Infinity false /\
  Ieee.round 53 1024 (- inject_Z (2 ^ 1024)) = Ieee.Infinity true /\
  Ieee.round 53 1024 (inject_Z (2 ^ 1024 - 2 ^ 970)) = Ieee.Infinity false /\
  Ieee.round 53 1024 (inject_Z (2 ^ 1024 - 2 ^ 970 - 1))
  = Ieee.Finite (inject_Z (2 ^ 1024 - 2 ^ 971)) /\
  Ieee.round 53 1024 (1 # 2 ^ 1075) = Ieee.Finite 0 /\
  Ieee.round 53 1024 (3 # 2 ^ 1075) = Ieee.Finite (1 # 2 ^ 1073).
Proof. vm_compute. repeat split; reflexivity. Qed.

(** Quotients of small integers, scaled into the normal and the subnormal
    range of each format. *)
Example round_agrees_on_a_grid :
  forallb (fun n =>
    forallb (fun d =>
      Ieee.round_agrees 53 1024 (Z.of_nat n - 12) (Pos.of_nat d) 0 0 &&
      Ieee.round_agrees 53 1024 (Z.of_nat n - 12) (Pos.of_nat d) 1000 3 &&
      Ieee.round_agrees 53 1024 (Z.of_nat n - 12) (Pos.of_nat d) 1 1019 &&
      Ieee.round_agrees 24 128 (Z.of_nat n - 12) (Pos.of_nat d) 0 0 &&
      Ieee.round_agrees 24 128 (Z.of_nat n - 12) (Pos.of_nat d) 120 3 &&
      Ieee.round_agrees 24 128 (Z.of_nat n - 12) (Pos.of_nat d) 1 123)
      (seq 1 12))
    (seq 0 25)
  = true.
Proof. vm_compute. reflexivity. Qed.

Example astype_float32_rounds :
  astype_float32 16777217 = Ieee.Finite 16777216 /\
  astype_float32 16777219 = Ieee.Finite 16777220 /\
  astype_float32 5 = Ieee.Finite 5 /\
  astype_float32 (1 # 3)
  = Ieee.of_spec_float
      (SFdiv 24 128 (binary_normalize 24 128 1 0 false)
                    (binary_normalize 24 128 3 0 false)) /\
  astype_float32 (inject_Z (2 ^ 128)) = Ieee.Infinity false.
Proof. vm_compute. repeat split; reflexivity. Qed.

(** ** The numpy operations on small inputs *)

Example rot90_3_clockwise :
  rot90_3 [[[1]; [2]]; [[3]; [4]]] = [[[3]; [1]]; [[4]; [2]]].
Proof. reflexivity. Qed.

Example rot90_3_shape :
  shape3 (rot90_3 (single_voxel 2 0 0 0 1 0 ++ single_voxel 2 0 0 0 1 0))
  = (2, 4, 2)%nat.
Proof. reflexivity. Qed.

Example slice_inside : slice 1 3 [10; 20; 30; 40] = [20; 30].
Proof. reflexivity. Qed.

Example slice_clipped : slice 1 9 [10; 20; 30; 40] = [20; 30; 40].
Proof. reflexivity. Qed.

Example slice_negative_end : slice 0 (-1) [10; 20; 30; 40] = [10; 20; 30].
Proof. reflexivity. Qed.

Example slice_empty : slice 3 3 [10; 20; 30; 40] = [].
Proof. reflexivity. Qed.

Example getitem_last_entry : Np.getitem [10; 20; 30] (-1) = Ok 30.
Proof. reflexivity. Qed.

Example getitem_out_of_range : Np.getitem [10; 20; 30] 3 = Raise IndexError.
Proof. reflexivity. Qed.

Example sort_ascending : Np.sort [30; 10; 20; 10] = [10; 10; 20; 30].
Proof. reflexivity. Qed.

Example interp_piecewise :
  exists y, Np.interp [5; 10; 15; 30; 40] [10; 20; 30] [100; 200; 300] = Ok y /\
            Forall2 Qeq y [100; 100; 150; 300; 300].
Proof. eexists. split; [reflexivity|]. repeat constructor. Qed.

Example interp_length_mismatch :
  Np.interp [5] [10; 20; 30] [100; 200] = Raise ValueError.
Proof. reflexivity. Qed.

Example mean_axis0_of_nothing : Np.mean_axis0 [] = Np.Nan.
Proof. reflexivity. Qed.

Example set_background_negative_minimum :
  set_background_to_minimum [-3; 0; 4; 7; 0] = Ok [0; 0; 7; 10; 0].
Proof. reflexivity. Qed.

Example transform_volume_classes :
  transform_volume [0; 5; 10; 20; 30; 40; 2] [10; 20; 30] [100; 200; 300]
  = Ok [0; 0; 100; 200; 300; 300; 0].
Proof. reflexivity. Qed.

Example set_channel_bad_index :
  set_channel (1, 1, 1, 2)%nat 2 (zeros (1, 1, 1, 2)%nat) [[[5]]] = Raise IndexError.
Proof. reflexivity. Qed.

Example set_channel_shape_mismatch :
  set_channel (2, 2, 2, 1)%nat 0 (zeros (2, 2, 2, 1)%nat)
              (single_voxel 3 0 0 0 5 0) = Raise ValueError.
Proof. reflexivity. Qed.

(** ** Results and loops *)

Lemma mapM_Forall2 {A B : Type} (f : A -> result B) (l : list A) (r : list B) :
  mapM f l = Ok r <-> Forall2 (fun x y => f x = Ok y) l r.
Proof.
  revert r; induction l as [|x l IH]; intros r; simpl.
  - split; intros H.
    + injection H as <-. constructor.
    + inversion H. reflexivity.
  - destruct (f x) as [y|e] eqn:Hx; simpl.
    + destruct (mapM f l) as [ys|e] eqn:Hl; simpl.
      * split; intros H.
        -- injection H as <-. constructor; [assumption | now apply IH].
        -- inversion H as [|? y' ? ys' Hy Hys]; subst.
           rewrite Hx in Hy. injection Hy as <-.
           apply IH in Hys. now injection Hys as <-.
      * split; intros H; [discriminate|].
        inversion H as [|? y' ? ys' Hy Hys]; subst.
        apply IH in Hys. discriminate.
    + split; intros H; [discriminate|].
      inversion H as [|? y' ? ys' Hy Hys]; subst.
      rewrite Hx in Hy. discriminate.
Qed.

Lemma mapM_length {A B : Type} (f : A -> result B) (l : list A) (r : list B) :
  mapM f l = Ok r -> length r = length l.
Proof.
  intros H. apply mapM_Forall2 in H.
  symmetry. eapply Forall2_length; eassumption.
Qed.

Lemma mapM_map {A B : Type} (f : A -> result B) (g : A -> B) (l : list A) :
  Forall (fun x => f x = Ok (g x)) l -> mapM f l = Ok (map g l).
Proof.
  induction 1 as [|x l Hx _ IH]; simpl; [reflexivity|].
  now rewrite Hx, IH.
Qed.

Lemma mapM_raise {A B : Type} (f : A -> result B) (e : exn) (l : list A) :
  l <> [] -> (forall x, f x = Raise e) -> mapM f l = Raise e.
Proof.
  destruct l as [|x l]; [congruence|].
  intros _ H. simpl. now rewrite H.
Qed.

Lemma mapM_ok_In {A B : Type} (f : A -> result B) (l : list A) (r : list B) :
  mapM f l = Ok r -> forall x, In x l -> exists y, f x = Ok y /\ In y r.
Proof.
  intros H. apply mapM_Forall2 in H.
  induction H as [|x y l r Hxy _ IH]; intros z Hz; simpl in *; [contradiction|].
  destruct Hz as [<-|Hz].
  - exists y. auto.
  - destruct (IH z Hz) as [w [Hw Hin]]. exists w. auto.
Qed.

Lemma mapM_raise_inv {A B : Type} (f : A -> result B) (l : list A) (e : exn) :
  mapM f l = Raise e -> exists x, In x l /\ f x = Raise e.
Proof.
  induction l as [|x l IH]; simpl; [discriminate|].
  destruct (f x) as [y|e'] eqn:Hx; simpl.
  - destruct (mapM f l) as [ys|e'] eqn:Hl; simpl; [discriminate|].
    intros H; injection H as ->.
    destruct (IH eq_refl) as [z [Hz Hfz]]. eauto.
  - intros H; injection H as ->. eauto.
Qed.

Lemma Forall2_In_right {A B : Type} (R : A -> B -> Prop) (l : list A) (r : list B) :
  Forall2 R l r -> forall y, In y r -> exists x, In x l /\ R x y.
Proof.
  induction 1 as [|x y l r Hxy _ IH]; intros z Hz; simpl in *; [contradiction|].
  destruct Hz as [<-|Hz]; [eauto|].
  destruct (IH z Hz) as [w [Hw HR]]. eauto.
Qed.

(** ** Indexing *)

Lemma getitem_nth {A : Type} (a : list A) (i : Z) (d : A) :
  (0 <= i < Z.of_nat (length a))%Z ->
  Np.getitem a i = Ok (nth (Z.to_nat i) a d).
Proof.
  intros Hi. unfold Np.getitem.
  destruct (Z.ltb_spec i 0); [lia|].
  destruct (Z.ltb_spec i 0); [lia|].
  destruct (nth_error a (Z.to_nat i)) as [x|] eqn:Hn.
  - now rewrite (nth_error_nth _ _ d Hn).
  - apply nth_error_None in Hn. lia.
Qed.

Lemma getitem_nil {A : Type} (i : Z) : Np.getitem (@nil A) i = Raise IndexError.
Proof.
  unfold Np.getitem. simpl.
  rewrite Z.add_0_r. destruct (i <? 0)%Z eqn:Hi; rewrite ?Hi; [reflexivity|].
  now destruct (Z.to_nat i).
Qed.

Lemma getitem_last {A : Type} (a : list A) (x : A) (d : A) :
  Np.getitem (x :: a) (-1) = Ok (last (x :: a) d).
Proof.
  unfold Np.getitem.
  change (-1 <? 0)%Z with true. cbv iota.
  assert (Hlen : (-1 + Z.of_nat (length (x :: a)) = Z.of_nat (length a))%Z)
    by (simpl length; lia).
  rewrite Hlen.
  destruct (Z.ltb_spec (Z.of_nat (length a)) 0); [lia|].
  rewrite Nat2Z.id.
  assert (Hn : nth_error (x :: a) (length a) = Some (last (x :: a) d)).
  { clear. revert x. induction a as [|y a IH]; intros x; [reflexivity|].
    change (nth_error (y :: a) (length a) = Some (last (y :: a) d)).
    apply IH. }
  now rewrite Hn.
Qed.

Lemma getitem_never_spec_error {A : Type} (a : list A) (i : Z) (e : exn) :
  Np.getitem a i = Raise e -> e = IndexError.
Proof.
  unfold Np.getitem.
  destruct (_ <? 0)%Z; [congruence|].
  destruct (nth_error _ _); congruence.
Qed.

Lemma getitem_ok_nth {A : Type} (a : list A) (i : Z) (x d : A) :
  (0 <= i)%Z -> Np.getitem a i = Ok x ->
  (Z.to_nat i < length a)%nat /\ x = nth (Z.to_nat i) a d.
Proof.
  intros Hi. unfold Np.getitem.
  destruct (Z.ltb_spec i 0); [lia|].
  destruct (Z.ltb_spec i 0); [lia|].
  destruct (nth_error a (Z.to_nat i)) as [y|] eqn:Hn; [|discriminate].
  intros H1; injection H1 as <-. split.
  - apply nth_error_Some. congruence.
  - symmetry. now apply nth_error_nth.
Qed.

(** ** Comparisons on [Q] *)

Lemma Qlt_bool_iff (x y : Q) : Np.Qlt_bool x y = true <-> x < y.
Proof.
  unfold Np.Qlt_bool. rewrite negb_true_iff.
  split; intros H.
  - apply Qnot_le_lt. intros Hle. apply Qle_bool_iff in Hle. congruence.
  - destruct (Qle_bool y x) eqn:Hb; [|reflexivity].
    apply Qle_bool_iff in Hb. exfalso. exact (Qlt_not_le _ _ H Hb).
Qed.

Lemma Qlt_bool_false (x y : Q) : Np.Qlt_bool x y = false <-> y <= x.
Proof.
  unfold Np.Qlt_bool. rewrite negb_false_iff. apply Qle_bool_iff.
Qed.

Lemma Qle_bool_false (x y : Q) : Qle_bool x y = false -> y <= x.
Proof.
  intros H. apply Qlt_le_weak, Qnot_le_lt.
  intros Hle. apply Qle_bool_iff in Hle. congruence.
Qed.

(** ** [np.sort] *)

Lemma insert_length (x : Q) (l : list Q) : length (Np.insert x l) = S (length l).
Proof.
  induction l as [|y l IH]; simpl; [reflexivity|].
  destruct (Qle_bool x y); simpl; congruence.
Qed.

Lemma sort_length (a : list Q) : length (Np.sort a) = length a.
Proof.
  induction a as [|x a IH]; simpl; [reflexivity|].
  now rewrite insert_length, IH.
Qed.

Lemma insert_In (x y : Q) (l : list Q) : In y (Np.insert x l) -> y = x \/ In y l.
Proof.
  induction l as [|z l IH]; simpl.
  - intros [<-|[]]. now left.
  - destruct (Qle_bool x z); simpl.
    + intros [<-|H]; auto.
    + intros [<-|H]; auto. destruct (IH H); auto.
Qed.

Lemma insert_sorted (x : Q) (l : list Q) :
  StronglySorted Qle l -> StronglySorted Qle (Np.insert x l).
Proof.
  induction 1 as [|y l Hs IH Hy]; simpl.
  - repeat constructor.
  - destruct (Qle_bool x y) eqn:Hxy.
    + apply Qle_bool_iff in Hxy.
      constructor; [now constructor|].
      constructor; [assumption|].
      eapply Forall_impl; [|exact Hy].
      intros z Hz. now apply Qle_trans with y.
    + apply Qle_bool_false in Hxy.
      constructor; [assumption|].
      apply Forall_forall. intros z Hz.
      destruct (insert_In _ _ _ Hz) as [->|Hin]; [assumption|].
      rewrite Forall_forall in Hy. now apply Hy.
Qed.

Lemma sort_sorted (a : list Q) : StronglySorted Qle (Np.sort a).
Proof.
  induction a as [|x a IH]; simpl; [constructor | now apply insert_sorted].
Qed.

Lemma sorted_nth (l : list Q) (d : Q) :
  StronglySorted Qle l ->
  forall i j, (i <= j < length l)%nat -> nth i l d <= nth j l d.
Proof.
  induction 1 as [|x l Hs IH Hx]; intros i j Hij; simpl in Hij; [lia|].
  destruct i as [|i], j as [|j]; simpl; try lia.
  - apply Qle_refl.
  - rewrite Forall_forall in Hx. apply Hx, nth_In. lia.
  - apply IH. lia.
Qed.

(** ** Background correction *)

Lemma fill_length (idx : list bool) (x : Q) (a : list Q) :
  length (Np.fill idx x a) = length a.
Proof.
  revert idx; induction a as [|v a IH]; intros [|b idx]; simpl; auto.
Qed.

Lemma min_ok (a : list Q) : a <> [] -> exists m, Np.min a = Ok m.
Proof.
  destruct a as [|x a]; [congruence|]. intros _. simpl. eauto.
Qed.

Lemma set_background_nil : set_background_to_minimum [] = Raise ValueError.
Proof. reflexivity. Qed.

Lemma set_background_ok (volume : list Q) :
  volume <> [] ->
  exists volume', set_background_to_minimum volume = Ok volume' /\
                  length volume' = length volume.
Proof.
  intros Hne. unfold set_background_to_minimum.
  destruct (min_ok volume Hne) as [m Hm]. rewrite Hm. simpl.
  destruct (Np.Qlt_bool m 0); [|eauto].
  set (filled := Np.fill _ m volume).
  assert (Hf : filled <> []).
  { intros Hnil. apply (f_equal (@length Q)) in Hnil.
    unfold filled in Hnil. rewrite fill_length in Hnil.
    destruct volume; [congruence | discriminate]. }
  destruct (min_ok filled Hf) as [m' Hm']. rewrite Hm'. simpl.
  eexists; split; [reflexivity|].
  unfold filled. now rewrite length_map, fill_length.
Qed.

Lemma one_volume_pct_foreground (PCTS volume : list Q) :
  volume <> [] ->
  one_volume_pct PCTS volume = percentile_values PCTS (foreground volume).
Proof.
  intros Hne. unfold one_volume_pct, foreground.
  destruct (set_background_ok volume Hne) as [v' [Hv' _]]. now rewrite Hv'.
Qed.

Lemma foreground_nil : foreground [] = [].
Proof. reflexivity. Qed.

Lemma foreground_sorted (volume : list Q) : StronglySorted Qle (foreground volume).
Proof.
  unfold foreground.
  destruct (set_background_to_minimum volume); [apply sort_sorted | constructor].
Qed.

Lemma min_raise (a : list Q) (e : exn) : Np.min a = Raise e -> e = ValueError.
Proof. destruct a; simpl; congruence. Qed.

Lemma set_background_raise (volume : list Q) (e : exn) :
  set_background_to_minimum volume = Raise e -> e = ValueError.
Proof.
  unfold set_background_to_minimum.
  destruct (Np.min volume) as [m|e'] eqn:Hm; simpl.
  - destruct (Np.Qlt_bool m 0); [|discriminate].
    destruct (Np.min (Np.fill _ m volume)) as [m'|e'] eqn:Hm'; simpl; [discriminate|].
    intros H; injection H as ->. eapply min_raise; eassumption.
  - intros H; injection H as ->. eapply min_raise; eassumption.
Qed.

(** ** The percentile index *)

Lemma pct_idx_spec (p : Q) (n : nat) : pct_idx p n = spec_percentile_index p n.
Proof.
  unfold pct_idx, spec_percentile_index.
  destruct (Z.ltb_spec (Qceiling (p * inject_Z (Z.of_nat n)) - 1) 0); lia.
Qed.

Lemma pct_idx_nonneg (p : Q) (n : nat) : (0 <= pct_idx p n)%Z.
Proof. rewrite pct_idx_spec. unfold spec_percentile_index. lia. Qed.

Lemma inject_nat_nonneg (n : nat) : 0 <= inject_Z (Z.of_nat n).
Proof. change 0 with (inject_Z 0). rewrite <- Zle_Qle. lia. Qed.

Lemma pct_idx_upper (p : Q) (n : nat) :
  p <= 1 -> (1 <= n)%nat -> (pct_idx p n < Z.of_nat n)%Z.
Proof.
  intros Hp Hn. rewrite pct_idx_spec. unfold spec_percentile_index.
  assert (H : (Qceiling (p * inject_Z (Z.of_nat n)) <= Z.of_nat n)%Z).
  { rewrite <- (Qceiling_Z (Z.of_nat n)) at 2.
    apply Qceiling_resp_le.
    rewrite <- (Qmult_1_l (inject_Z (Z.of_nat n))) at 2.
    apply Qmult_le_compat_r; [assumption | apply inject_nat_nonneg]. }
  lia.
Qed.

Lemma pct_idx_mono (p q : Q) (n : nat) :
  p <= q -> (pct_idx p n <= pct_idx q n)%Z.
Proof.
  intros Hpq. rewrite !pct_idx_spec. unfold spec_percentile_index.
  assert (H : (Qceiling (p * inject_Z (Z.of_nat n))
               <= Qceiling (q * inject_Z (Z.of_nat n)))%Z).
  { apply Qceiling_resp_le.
    apply Qmult_le_compat_r; [assumption | apply inject_nat_nonneg]. }
  lia.
Qed.

(** The clamp is reached only by a percentile point that is not positive. *)
Lemma pct_idx_positive_unclamped (p : Q) (n : nat) :
  0 < p -> (1 <= n)%nat ->
  pct_idx p n = (Qceiling (p * inject_Z (Z.of_nat n)) - 1)%Z.
Proof.
  intros Hp Hn. unfold pct_idx.
  assert (Hpos : 0 < p * inject_Z (Z.of_nat n)).
  { apply Qmult_lt_0_compat; [assumption|].
    change 0 with (inject_Z 0). rewrite <- Zlt_Qlt. lia. }
  assert (Hc : (0 < Qceiling (p * inject_Z (Z.of_nat n)))%Z).
  { pose proof (Qle_ceiling (p * inject_Z (Z.of_nat n))) as Hle.
    rewrite Zlt_Qlt. eapply Qlt_le_trans; eassumption. }
  destruct (Z.ltb_spec (Qceiling (p * inject_Z (Z.of_nat n)) - 1) 0); lia.
Qed.

(** ** Percentile profiles *)

Section Percentiles.

Variable PCTS : list Q.

Lemma percentile_values_ok (sort : list Q) :
  (1 <= length sort)%nat ->
  Forall (fun p => p <= 1) PCTS ->
  percentile_values PCTS sort =
  Ok (map (fun p => nth (Z.to_nat (pct_idx p (length sort))) sort 0) PCTS).
Proof.
  intros Hn Hp. unfold percentile_values.
  apply mapM_map. eapply Forall_impl; [|exact Hp].
  intros p Hp1. cbv beta. apply getitem_nth.
  split; [apply pct_idx_nonneg | now apply pct_idx_upper].
Qed.

Lemma percentile_values_length (sort profile : list Q) :
  percentile_values PCTS sort = Ok profile -> length profile = length PCTS.
Proof. apply mapM_length. Qed.

Lemma percentile_values_nil :
  PCTS <> [] -> percentile_values PCTS [] = Raise IndexError.
Proof.
  intros Hne. unfold percentile_values.
  apply mapM_raise; [assumption|].
  intros p. apply getitem_nil.
Qed.

Lemma percentile_values_sorted (sort profile : list Q) :
  StronglySorted Qle sort ->
  StronglySorted Qle PCTS ->
  percentile_values PCTS sort = Ok profile ->
  StronglySorted Qle profile.
Proof.
  intros Hs Hp H. unfold percentile_values in H. apply mapM_Forall2 in H.
  induction H as [|p v PCTS' profile' Hv Hrest IH]; [constructor|].
  inversion Hp as [|? ? Hp' Hall]; subst.
  constructor; [now apply IH|].
  apply Forall_forall. intros w Hw.
  destruct (Forall2_In_right _ _ _ Hrest w Hw) as [q [Hq Hqw]].
  rewrite Forall_forall in Hall. specialize (Hall q Hq).
  destruct (getitem_ok_nth _ _ _ 0 (pct_idx_nonneg p (length sort)) Hv) as [_ ->].
  destruct (getitem_ok_nth _ _ _ 0 (pct_idx_nonneg q (length sort)) Hqw) as [Hlt ->].
  apply sorted_nth; [assumption|].
  pose proof (pct_idx_mono p q (length sort) Hall).
  pose proof (pct_idx_nonneg p (length sort)). lia.
Qed.

Lemma one_volume_pct_raise (volume : list Q) (e : exn) :
  one_volume_pct PCTS volume = Raise e -> e = IndexError \/ e = ValueError.
Proof.
  unfold one_volume_pct.
  destruct (set_background_to_minimum volume) as [v|e'] eqn:Hv; simpl.
  - intros H. left. unfold percentile_values in H.
    destruct (mapM_raise_inv _ _ _ H) as [p [_ Hp]].
    eapply getitem_never_spec_error; eassumption.
  - intros H; injection H as ->. right.
    eapply set_background_raise; eassumption.
Qed.

Lemma one_volume_pct_length (volume profile : list Q) :
  one_volume_pct PCTS volume = Ok profile -> length profile = length PCTS.
Proof.
  unfold one_volume_pct.
  destruct (set_background_to_minimum volume) as [v|e]; simpl; [|discriminate].
  apply percentile_values_length.
Qed.

Lemma one_volume_pct_empty_foreground (volume : list Q) :
  PCTS <> [] -> foreground volume = [] ->
  one_volume_pct PCTS volume =
  Raise (match volume with [] => ValueError | _ :: _ => IndexError end).
Proof.
  intros HP Hfg. destruct volume as [|v volume]; [reflexivity|].
  rewrite one_volume_pct_foreground by discriminate.
  rewrite Hfg. now apply percentile_values_nil.
Qed.

End Percentiles.

(** ** LandmarkEstimator: the claims on percentile profiles *)

(** C8.  For a volume with at least one non-background voxel and
    non-decreasing percentile points, every profile the computation returns
    is non-decreasing; and it does return one when no point exceeds 1. *)
Theorem percentile_profile_nondecreasing (PCTS volume : list Q) :
  foreground volume <> [] ->
  StronglySorted Qle PCTS ->
  (forall profile,
      one_volume_pct PCTS volume = Ok profile -> StronglySorted Qle profile) /\
  (Forall (fun p => p <= 1) PCTS ->
   exists profile, one_volume_pct PCTS volume = Ok profile).
Proof.
  intros Hfg HP.
  assert (Hne : volume <> []) by (intros ->; now apply Hfg).
  rewrite (one_volume_pct_foreground _ _ Hne).
  split.
  - intros profile H.
    eapply percentile_values_sorted; [apply foreground_sorted | exact HP | exact H].
  - intros Hp. eexists. apply percentile_values_ok; [|exact Hp].
    destruct (foreground volume); [congruence | simpl; lia].
Qed.

Lemma percentile_profile_nondecreasing_witness :
  one_volume_pct [1 # 10; 1 # 2; 99 # 100] [-3; 0; 4; 7; 0] = Ok [7; 7; 10] /\
  StronglySorted Qle [7; 7; 10].
Proof.
  split; [reflexivity|].
  apply (proj1 (percentile_profile_nondecreasing
                  [1 # 10; 1 # 2; 99 # 100] [-3; 0; 4; 7; 0] ltac:(discriminate)
                  ltac:(repeat constructor; discriminate))).
  reflexivity.
Defined.

(** C1 (as amended).  For a volume without non-background voxels and at
    least one configured percentile point, the profile computation raises
    [IndexError] ([ValueError] when the volume has no voxel at all), and the
    landmark computation of any cohort that contains the volume raises one
    of the two: no profile and no landmarks are returned. *)
Theorem empty_foreground_raises_IndexError (PCTS volume : list Q)
    (volumes : list (list Q)) :
  PCTS <> [] ->
  foreground volume = [] ->
  In volume volumes ->
  one_volume_pct PCTS volume =
    Raise (match volume with [] => ValueError | _ :: _ => IndexError end) /\
  exists e, get_volume_landmarks PCTS volumes = Raise e /\
            (e = IndexError \/ e = ValueError).
Proof.
  intros HP Hfg Hin.
  pose proof (one_volume_pct_empty_foreground PCTS volume HP Hfg) as Hone.
  split; [exact Hone|].
  unfold get_volume_landmarks.
  destruct (mapM (one_volume_pct PCTS) volumes) as [all|e] eqn:Hall; simpl.
  - destruct (mapM_ok_In _ _ _ Hall volume Hin) as [y [Hy _]].
    rewrite Hone in Hy. discriminate.
  - exists e. split; [reflexivity|].
    destruct (mapM_raise_inv _ _ _ Hall) as [v [_ Hv]].
    eapply one_volume_pct_raise; eassumption.
Qed.

Lemma empty_foreground_raises_IndexError_witness :
  one_volume_pct [1 # 10; 1 # 2; 99 # 100] [0; 0; 0] = Raise IndexError /\
  exists e, get_volume_landmarks [1 # 10; 1 # 2; 99 # 100] [[5; 0]; [0; 0; 0]] = Raise e /\
            (e = IndexError \/ e = ValueError).
Proof.
  apply (empty_foreground_raises_IndexError
           [1 # 10; 1 # 2; 99 # 100] [0; 0; 0] [[5; 0]; [0; 0; 0]]).
  - discriminate.
  - reflexivity.
  - simpl. auto.
Defined.

(** C1 as stated fails: an all-background volume makes the landmark
    computation raise [IndexError], not [EmptyForegroundError]. *)
Lemma empty_foreground_not_EmptyForegroundError :
  foreground [0; 0; 0] = [] /\
  get_volume_landmarks [1 # 10; 1 # 2; 99 # 100] [[0; 0; 0]] = Raise IndexError /\
  get_volume_landmarks [1 # 10; 1 # 2; 99 # 100] [[0; 0; 0]]
    <> Raise EmptyForegroundError.
Proof.
  split; [reflexivity|]. split; [reflexivity | discriminate].
Qed.

(** ** [np.mean] along axis 0 *)

Lemma add_length (a b : list Q) :
  length a = length b -> length (Np.add a b) = length a.
Proof.
  revert b; induction a as [|x a IH]; intros [|y b]; simpl; try discriminate; auto.
Qed.

Lemma add_nth (a b : list Q) (j : nat) :
  length a = length b -> (j < length a)%nat ->
  nth j (Np.add a b) 0 = nth j a 0 + nth j b 0.
Proof.
  revert b j; induction a as [|x a IH]; intros [|y b] j; simpl; try discriminate;
    try lia.
  intros Hlen Hj. destruct j as [|j]; [reflexivity|].
  apply IH; lia.
Qed.

Lemma fold_add_length (rows : list (list Q)) (r : list Q) :
  Forall (fun row => length row = length r) rows ->
  length (fold_left Np.add rows r) = length r.
Proof.
  revert r; induction rows as [|x rows IH]; intros r Hall; simpl; [reflexivity|].
  inversion Hall as [|? ? Hx Hrows]; subst.
  assert (Hlen : length (Np.add r x) = length r) by (apply add_length; congruence).
  rewrite IH; [assumption|].
  eapply Forall_impl; [|exact Hrows]. cbv beta. intros; congruence.
Qed.

Lemma fold_add_nth (rows : list (list Q)) (r : list Q) (j : nat) :
  Forall (fun row => length row = length r) rows ->
  (j < length r)%nat ->
  nth j (fold_left Np.add rows r) 0 ==
  nth j r 0 + fold_right Qplus 0 (map (fun row => nth j row 0) rows).
Proof.
  revert r; induction rows as [|x rows IH]; intros r Hall Hj; simpl.
  - now rewrite Qplus_0_r.
  - inversion Hall as [|? ? Hx Hrows]; subst.
    assert (Hlen : length (Np.add r x) = length r) by (apply add_length; congruence).
    rewrite IH.
    + rewrite add_nth by congruence. now rewrite Qplus_assoc.
    + eapply Forall_impl; [|exact Hrows]. cbv beta. intros; congruence.
    + lia.
Qed.

(** Addition on [Q] commutes up to Leibniz equality, not only up to [==]. *)
Lemma Qplus_swap (a x y : Q) : (a + x) + y = (a + y) + x.
Proof.
  destruct a as [na da], x as [nx dx], y as [ny dy].
  unfold Qplus; simpl. f_equal.
  - rewrite !Pos2Z.inj_mul. ring.
  - rewrite <- !Pos.mul_assoc. f_equal. apply Pos.mul_comm.
Qed.

Lemma Qplus_0_l_eq (x : Q) : 0 + x = x.
Proof.
  destruct x as [nx dx]. unfold Qplus; simpl. now rewrite Z.mul_1_r.
Qed.

Lemma add_swap (acc x y : list Q) :
  Np.add (Np.add acc x) y = Np.add (Np.add acc y) x.
Proof.
  revert x y; induction acc as [|a acc IH]; intros [|x xs] [|y ys]; simpl;
    try reflexivity.
  now rewrite Qplus_swap, IH.
Qed.

Lemma fold_add_Permutation (l l' : list (list Q)) :
  Permutation l l' ->
  forall acc, fold_left Np.add l acc = fold_left Np.add l' acc.
Proof.
  induction 1 as [|x l l' _ IH|x y l|l l' l'' _ IH1 _ IH2]; intros acc; simpl.
  - reflexivity.
  - apply IH.
  - now rewrite add_swap.
  - now rewrite IH1, IH2.
Qed.

Lemma add_zeros (r : list Q) : Np.add (repeat 0 (length r)) r = r.
Proof.
  induction r as [|x r IH]; simpl; [reflexivity|].
  now rewrite Qplus_0_l_eq, IH.
Qed.

Lemma mean_axis0_column_sums (k : nat) (r : list Q) (rows : list (list Q)) :
  length r = k ->
  Np.mean_axis0 (r :: rows) =
  Np.Vector (map (fun s => s / inject_Z (Z.of_nat (length (r :: rows))))
                 (column_sums k (r :: rows))).
Proof.
  intros <-. unfold Np.mean_axis0, column_sums. simpl fold_left.
  now rewrite add_zeros.
Qed.

Lemma mean_axis0_Permutation (k : nat) (rows rows' : list (list Q)) :
  Forall (fun row => length row = k) rows ->
  Permutation rows rows' ->
  Np.mean_axis0 rows = Np.mean_axis0 rows'.
Proof.
  intros Hall Hperm.
  assert (Hall' : Forall (fun row => length row = k) rows')
    by (eapply Permutation_Forall; eassumption).
  destruct rows as [|r rows].
  - apply Permutation_nil in Hperm. now subst.
  - destruct rows' as [|r' rows'].
    + apply Permutation_sym, Permutation_nil in Hperm. discriminate.
    + inversion Hall; inversion Hall'; subst.
      rewrite (mean_axis0_column_sums (length r) r rows eq_refl).
      rewrite (mean_axis0_column_sums (length r) r' rows') by assumption.
      unfold column_sums.
      rewrite (fold_add_Permutation _ _ Hperm).
      now rewrite (Permutation_length Hperm).
Qed.

Lemma profiles_length (PCTS : list Q) (volumes all_volume_pct : list (list Q)) :
  mapM (one_volume_pct PCTS) volumes = Ok all_volume_pct ->
  Forall (fun row => length row = length PCTS) all_volume_pct.
Proof.
  intros H. apply mapM_Forall2 in H.
  induction H as [|v row vs rows Hv _ IH]; constructor; [|assumption].
  eapply one_volume_pct_length; eassumption.
Qed.

Lemma mean_axis0_spec (k : nat) (rows : list (list Q)) :
  rows <> [] ->
  Forall (fun row => length row = k) rows ->
  exists landmarks,
    Np.mean_axis0 rows = Np.Vector landmarks /\
    length landmarks = k /\
    forall j, (j < k)%nat -> nth j landmarks 0 == spec_mean_at rows j.
Proof.
  intros Hne Hlen. destruct rows as [|r rows]; [congruence|].
  inversion Hlen as [|? ? Hr Hrows]; subst.
  assert (Hrows' : Forall (fun row => length row = length r) rows).
  { eapply Forall_impl; [|exact Hrows]. cbv beta. intros; congruence. }
  eexists. split; [reflexivity|]. split.
  - now rewrite length_map, fold_add_length by assumption.
  - intros j Hj.
    set (n := inject_Z (Z.of_nat (length (r :: rows)))).
    rewrite (nth_indep _ 0 ((fun s => s / n) 0))
      by (rewrite length_map, fold_add_length; assumption).
    rewrite (map_nth (fun s => s / n)). unfold spec_mean_at. fold n.
    apply Qdiv_comp; [|reflexivity].
    rewrite fold_add_nth by assumption. reflexivity.
Qed.

(** *** Landmarks are non-decreasing *)

Lemma nth_sorted (l : list Q) :
  (forall i j, (i <= j < length l)%nat -> nth i l 0 <= nth j l 0) ->
  StronglySorted Qle l.
Proof.
  induction l as [|x l IH]; intros H; constructor.
  - apply IH. intros i j Hij. apply (H (S i) (S j)). simpl. lia.
  - apply Forall_forall. intros y Hy.
    destruct (In_nth l y 0 Hy) as [j [Hj <-]].
    apply (H 0%nat (S j)). simpl. lia.
Qed.

Lemma sorted_last_max (l : list Q) :
  StronglySorted Qle l -> Forall (fun x => x <= last l 0) l.
Proof.
  induction 1 as [|x l Hs IH Hx]; [constructor|].
  destruct l as [|y l]; [repeat constructor; apply Qle_refl|].
  change (last (x :: y :: l) 0) with (last (y :: l) 0).
  constructor; [|assumption].
  inversion IH as [|? ? Hy _]; subst.
  inversion Hx as [|? ? Hxy _]; subst.
  now apply Qle_trans with y.
Qed.

Lemma one_volume_pct_sorted (PCTS volume profile : list Q) :
  StronglySorted Qle PCTS ->
  one_volume_pct PCTS volume = Ok profile ->
  StronglySorted Qle profile.
Proof.
  intros HP. unfold one_volume_pct.
  destruct (set_background_to_minimum volume) as [v|e]; cbn [bind]; [|discriminate].
  apply percentile_values_sorted; [apply sort_sorted | assumption].
Qed.

Lemma sum_le {A : Type} (f g : A -> Q) (l : list A) :
  Forall (fun x => f x <= g x) l ->
  fold_right Qplus 0 (map f l) <= fold_right Qplus 0 (map g l).
Proof.
  induction 1 as [|x l Hx _ IH]; simpl; [apply Qle_refl|].
  now apply Qplus_le_compat.
Qed.

Lemma spec_mean_at_mono (profiles : list (list Q)) (k i j : nat) :
  Forall (fun profile => length profile = k /\ StronglySorted Qle profile) profiles ->
  (i <= j < k)%nat ->
  spec_mean_at profiles i <= spec_mean_at profiles j.
Proof.
  intros Hall Hij. unfold spec_mean_at, Qdiv.
  apply Qmult_le_compat_r.
  - apply sum_le. eapply Forall_impl; [|exact Hall].
    intros profile [Hlen Hs]. apply sorted_nth; [assumption | lia].
  - apply Qinv_le_0_compat, inject_nat_nonneg.
Qed.

(** For non-decreasing percentile points the landmarks are non-decreasing,
    so that their last entry is their maximum. *)
Lemma landmarks_sorted (PCTS : list Q) (volumes : list (list Q))
    (landmarks : list Q) (all_volume_pct : list (list Q)) :
  StronglySorted Qle PCTS ->
  get_volume_landmarks PCTS volumes = Ok (Np.Vector landmarks, all_volume_pct) ->
  StronglySorted Qle landmarks.
Proof.
  intros HP H. unfold get_volume_landmarks in H.
  destruct (mapM (one_volume_pct PCTS) volumes) as [rows|e] eqn:Hrows;
    cbn [bind] in H; [|discriminate].
  injection H as Hmean <-.
  assert (Hne : rows <> []) by (intros ->; discriminate).
  pose proof (profiles_length _ _ _ Hrows) as Hlen.
  destruct (mean_axis0_spec (length PCTS) rows Hne Hlen) as [lm [Hlm [Hk Hnth]]].
  rewrite Hlm in Hmean. injection Hmean as ->.
  assert (Hall : Forall (fun profile => length profile = length PCTS /\
                                        StronglySorted Qle profile) rows).
  { apply mapM_Forall2 in Hrows.
    clear - Hrows HP. induction Hrows as [|v row vs rows' Hv _ IH]; constructor;
      [|assumption].
    split; [eapply one_volume_pct_length | eapply one_volume_pct_sorted];
      eassumption. }
  apply nth_sorted. intros i j Hij. rewrite Hk in Hij.
  rewrite (Hnth i), (Hnth j) by lia.
  now apply (spec_mean_at_mono rows (length PCTS)).
Qed.

(** ** LandmarkEstimator: the claims on the cohort mean *)



(** ** Rounding to double precision *)

Lemma round_half_even_integer (z : Z) : Ieee.round_half_even (inject_Z z) = z.
Proof.
  unfold Ieee.round_half_even. rewrite Qfloor_Z.
  assert (H : inject_Z z - inject_Z z == 0) by ring.
  rewrite H. reflexivity.
Qed.

Lemma round_half_even_compat (x y : Q) :
  x == y -> Ieee.round_half_even x = Ieee.round_half_even y.
Proof.
  intros H. unfold Ieee.round_half_even.
  rewrite (Qfloor_comp _ _ H).
  assert (H' : x - inject_Z (Qfloor y) == y - inject_Z (Qfloor y)) by now rewrite H.
  now rewrite H'.
Qed.

Lemma round_half_even_le (x : Q) (M : Z) :
  x <= inject_Z M -> (Ieee.round_half_even x <= M)%Z.
Proof.
  intros H. unfold Ieee.round_half_even.
  assert (Hf : (Qfloor x <= M)%Z).
  { rewrite <- (Qfloor_Z M). now apply Qfloor_resp_le. }
  pose proof (Qfloor_le x) as Hlo.
  assert (Hstep : 0 < x - inject_Z (Qfloor x) -> (Qfloor x + 1 <= M)%Z).
  { intros Hpos.
    assert (Hlt : inject_Z (Qfloor x) < inject_Z M) by lra.
    rewrite <- Zlt_Qlt in Hlt. lia. }
  destruct (Qcompare (x - inject_Z (Qfloor x)) (1 # 2)) eqn:Hc.
  - apply Qeq_alt in Hc. destruct (Z.even (Qfloor x)); [assumption|].
    apply Hstep. rewrite Hc. reflexivity.
  - assumption.
  - apply Qgt_alt in Hc. apply Hstep. lra.
Qed.

Lemma round_half_even_nonneg (x : Q) :
  0 <= x -> (0 <= Ieee.round_half_even x)%Z.
Proof.
  intros H. unfold Ieee.round_half_even.
  assert (Hf : (0 <= Qfloor x)%Z).
  { change 0%Z with (Qfloor 0). now apply Qfloor_resp_le. }
  destruct (Qcompare _ _); [destruct (Z.even _)| |]; lia.
Qed.

Lemma ilog2_compat (a b : Q) : a == b -> Ieee.ilog2 a = Ieee.ilog2 b.
Proof.
  intros H. unfold Ieee.ilog2.
  assert (Hb : Qle_bool 1 a = Qle_bool 1 b).
  { destruct (Qle_bool 1 a) eqn:Ha, (Qle_bool 1 b) eqn:Hb'; try reflexivity.
    - apply Qle_bool_iff in Ha. rewrite H in Ha. apply Qle_bool_iff in Ha. congruence.
    - apply Qle_bool_iff in Hb'. rewrite <- H in Hb'. apply Qle_bool_iff in Hb'.
      congruence. }
  rewrite Hb, (Qfloor_comp _ _ H).
  assert (Hi : / a == / b) by now rewrite H.
  now rewrite (Qceiling_comp _ _ Hi).
Qed.

Lemma ldexp_compat (a b : Q) (e : Z) : a == b -> Ieee.ldexp a e == Ieee.ldexp b e.
Proof.
  intros H. unfold Ieee.ldexp. destruct (0 <=? e)%Z; now rewrite H.
Qed.

Lemma Qle_bool_compat (a b c d : Q) :
  a == b -> c == d -> Qle_bool a c = Qle_bool b d.
Proof.
  intros H1 H2.
  destruct (Qle_bool a c) eqn:Ha, (Qle_bool b d) eqn:Hb; try reflexivity.
  - apply Qle_bool_iff in Ha. rewrite H1, H2 in Ha. apply Qle_bool_iff in Ha. congruence.
  - apply Qle_bool_iff in Hb. rewrite <- H1, <- H2 in Hb. apply Qle_bool_iff in Hb.
    congruence.
Qed.

Lemma round_pos_compat (prec emax : Z) (a b : Q) :
  a == b -> Ieee.round_pos prec emax a = Ieee.round_pos prec emax b.
Proof.
  intros H. unfold Ieee.round_pos.
  rewrite (ilog2_compat _ _ H).
  set (e := Z.max (Ieee.ilog2 b - (prec - 1)) (3 - emax - prec)).
  rewrite (round_half_even_compat _ _ (ldexp_compat a b (- e) H)).
  reflexivity.
Qed.

Lemma round_compat (prec emax : Z) (x y : Q) :
  x == y -> Ieee.round prec emax x = Ieee.round prec emax y.
Proof.
  intros H. unfold Ieee.round.
  assert (Hc : Qcompare x 0 = Qcompare y 0)
    by (apply Qcompare_comp; [assumption | reflexivity]).
  rewrite Hc.
  rewrite (Qred_complete _ _ H).
  assert (H' : - x == - y) by now rewrite H.
  now rewrite (Qred_complete _ _ H').
Qed.

Lemma ilog2_below (a : Q) (k : Z) :
  (0 < k)%Z -> a < inject_Z (2 ^ k) -> (Ieee.ilog2 a < k)%Z.
Proof.
  intros Hk Ha. unfold Ieee.ilog2.
  destruct (Qle_bool 1 a) eqn:H1.
  - apply Qle_bool_iff in H1.
    assert (Hf : (1 <= Qfloor a)%Z).
    { change 1%Z with (Qfloor 1). now apply Qfloor_resp_le. }
    apply Z.log2_lt_pow2; [lia|].
    pose proof (Qfloor_le a) as Hfl.
    assert (Hlt : inject_Z (Qfloor a) < inject_Z (2 ^ k)) by lra.
    now rewrite <- Zlt_Qlt in Hlt.
  - pose proof (Z.log2_up_nonneg (Qceiling (/ a))). lia.
Qed.

(** Multiples of a power of two. *)
Lemma ldexp_up (a : Q) (k : Z) :
  (0 <= k)%Z -> Ieee.ldexp a k = a * inject_Z (2 ^ k).
Proof.
  intros Hk. unfold Ieee.ldexp.
  destruct (0 <=? k)%Z eqn:H; [reflexivity|]. apply Z.leb_gt in H. lia.
Qed.

Lemma ldexp_down (a : Q) (k : Z) :
  (0 <= k)%Z -> Ieee.ldexp a (- k) == a / inject_Z (2 ^ k).
Proof.
  intros Hk. unfold Ieee.ldexp.
  destruct (0 <=? - k)%Z eqn:H.
  - apply Z.leb_le in H. assert (k = 0%Z) by lia. subst k. simpl. field.
  - now rewrite Z.opp_involutive.
Qed.

Lemma pow2_pos (k : Z) : (0 <= k)%Z -> 0 < inject_Z (2 ^ k).
Proof.
  intros Hk. change 0 with (inject_Z 0). rewrite <- Zlt_Qlt.
  apply Z.pow_pos_nonneg; lia.
Qed.

(** The rounding of a positive number below [2^53] that is at most the
    integer [N]: a finite number between 0 and [N]. *)
Lemma round_pos_le (a : Q) (N : Z) :
  0 < a -> a < inject_Z (2 ^ 53) -> a <= inject_Z N -> (N <= 2 ^ 53)%Z ->
  exists r, Ieee.round_pos 53 1024 a = Some r /\ 0 <= r /\ r <= inject_Z N.
Proof.
  intros Hpos Hlt Hle HN.
  pose proof (ilog2_below a 53 ltac:(lia) Hlt) as Hlog.
  unfold Ieee.round_pos.
  set (e := Z.max (Ieee.ilog2 a - (53 - 1)) (3 - 1024 - 53)).
  assert (He : (e <= 0)%Z) by (unfold e; lia).
  set (k := (- e)%Z). assert (Hk : (0 <= k)%Z) by (unfold k; lia).
  replace e with (- k)%Z by (unfold k; lia).
  pose proof (pow2_pos k Hk) as H2k.
  rewrite (ldexp_up a k Hk).
  set (m := Ieee.round_half_even (a * inject_Z (2 ^ k))).
  assert (Hm0 : (0 <= m)%Z).
  { apply round_half_even_nonneg. apply Qmult_le_0_compat; lra. }
  assert (HmN : (m <= N * 2 ^ k)%Z).
  { apply round_half_even_le. rewrite inject_Z_mult.
    apply Qmult_le_compat_r; lra. }
  assert (Hr : Ieee.ldexp (inject_Z m) (- k) == inject_Z m / inject_Z (2 ^ k))
    by now apply ldexp_down.
  assert (Hr0 : 0 <= Ieee.ldexp (inject_Z m) (- k)).
  { rewrite Hr. apply Qle_shift_div_l; [assumption|]. rewrite Qmult_0_l.
    change 0 with (inject_Z 0). now rewrite <- Zle_Qle. }
  assert (HrN : Ieee.ldexp (inject_Z m) (- k) <= inject_Z N).
  { rewrite Hr. apply Qle_shift_div_r; [assumption|].
    rewrite <- inject_Z_mult. now rewrite <- Zle_Qle. }
  assert (Hover : Qle_bool (inject_Z (2 ^ 1024)) (Ieee.ldexp (inject_Z m) (- k)) = false).
  { destruct (Qle_bool _ _) eqn:Hb; [|reflexivity].
    apply Qle_bool_iff in Hb.
    assert (Hc : inject_Z (2 ^ 1024) <= inject_Z N) by lra.
    rewrite <- Zle_Qle in Hc.
    assert ((2 ^ 53 < 2 ^ 1024)%Z) by (apply Z.pow_lt_mono_r; lia). lia. }
  rewrite Hover. eexists. split; [reflexivity|].
  rewrite Qred_correct. split; assumption.
Qed.

Lemma Qred_inject_Z (k : Z) : Qred (inject_Z k) = inject_Z k.
Proof.
  unfold Qred, inject_Z.
  pose proof (Z.ggcd_gcd k 1) as Hg.
  pose proof (Z.ggcd_correct_divisors k 1) as Hd.
  destruct (Z.ggcd k 1) as [g [aa bb]]. cbn [fst snd] in *.
  rewrite Z.gcd_1_r in Hg. subst g. destruct Hd as [Ha Hb].
  rewrite Z.mul_1_l in Ha, Hb. subst aa bb. reflexivity.
Qed.

Lemma round_pos_top : Ieee.round_pos 53 1024 (inject_Z (2 ^ 53)) = Some (inject_Z (2 ^ 53)).
Proof. vm_compute. reflexivity. Qed.

Lemma round_pos_integer (N : Z) :
  (0 < N <= 2 ^ 53)%Z ->
  Ieee.round_pos 53 1024 (inject_Z N) = Some (inject_Z N).
Proof.
  intros HN.
  destruct (Z.eq_dec N (2 ^ 53)) as [->|Hne]; [exact round_pos_top|].
  assert (Hlt : inject_Z N < inject_Z (2 ^ 53)) by (rewrite <- Zlt_Qlt; lia).
  pose proof (ilog2_below (inject_Z N) 53 ltac:(lia) Hlt) as Hlog.
  unfold Ieee.round_pos.
  set (e := Z.max (Ieee.ilog2 (inject_Z N) - (53 - 1)) (3 - 1024 - 53)).
  assert (He : (e <= 0)%Z) by (unfold e; lia).
  set (k := (- e)%Z). assert (Hk : (0 <= k)%Z) by (unfold k; lia).
  replace e with (- k)%Z by (unfold k; lia).
  pose proof (pow2_pos k Hk) as H2k.
  rewrite (ldexp_up _ k Hk).
  assert (Hm : Ieee.round_half_even (inject_Z N * inject_Z (2 ^ k)) = (N * 2 ^ k)%Z).
  { rewrite <- inject_Z_mult. apply round_half_even_integer. }
  rewrite Hm.
  assert (Hr : Ieee.ldexp (inject_Z (N * 2 ^ k)) (- k) == inject_Z N).
  { rewrite (ldexp_down _ k Hk), inject_Z_mult. field. lra. }
  assert (Hover : Qle_bool (inject_Z (2 ^ 1024)) (Ieee.ldexp (inject_Z (N * 2 ^ k)) (- k))
                  = false).
  { destruct (Qle_bool _ _) eqn:Hb; [|reflexivity].
    apply Qle_bool_iff in Hb. rewrite Hr in Hb. rewrite <- Zle_Qle in Hb.
    assert ((2 ^ 53 < 2 ^ 1024)%Z) by (apply Z.pow_lt_mono_r; lia). lia. }
  rewrite Hover. f_equal.
  rewrite (Qred_complete _ _ Hr). apply Qred_inject_Z.
Qed.

(** An integer of magnitude at most [2^53] is a double. *)
Lemma round_integer (q : Q) (k : Z) :
  (0 <= k <= 2 ^ 53)%Z -> q == inject_Z k ->
  Float64.round q = Ieee.Finite (inject_Z k).
Proof.
  intros Hk Hq. unfold Float64.round.
  rewrite (round_compat 53 1024 _ _ Hq). unfold Ieee.round.
  destruct (Z.eq_dec k 0) as [->|Hne]; [reflexivity|].
  assert (Hc : Qcompare (inject_Z k) 0 = Gt).
  { apply Qgt_alt. change 0 with (inject_Z 0). rewrite <- Zlt_Qlt. lia. }
  rewrite Hc, Qred_inject_Z, round_pos_integer by lia. reflexivity.
Qed.

(** Rounding does not cross an integer of magnitude at most [2^53]. *)
Lemma round_le (x : Q) (N : Z) :
  0 <= x -> x <= inject_Z N -> (N <= 2 ^ 53)%Z ->
  exists q, Float64.round x = Ieee.Finite q /\ 0 <= q /\ q <= inject_Z N.
Proof.
  intros H0 HN HN53.
  assert (HN0 : (0 <= N)%Z).
  { rewrite Zle_Qle. change (inject_Z 0) with 0. lra. }
  unfold Float64.round, Ieee.round.
  destruct (Qcompare x 0) eqn:Hc.
  - exists 0. split; [reflexivity|]. split; [apply Qle_refl|].
    change 0 with (inject_Z 0). now rewrite <- Zle_Qle.
  - apply Qlt_alt in Hc. lra.
  - apply Qgt_alt in Hc.
    destruct (Qlt_le_dec x (inject_Z (2 ^ 53))) as [Hlt|Hge].
    + destruct (round_pos_le (Qred x) N) as [r [Hr [Hr0 HrN]]];
        try (rewrite Qred_correct; assumption); try assumption.
      rewrite Hr. eauto.
    + assert (HN' : N = (2 ^ 53)%Z).
      { assert (Hc' : inject_Z (2 ^ 53) <= inject_Z N) by lra.
        rewrite <- Zle_Qle in Hc'. lia. }
      subst N.
      assert (Hx : Qred x == inject_Z (2 ^ 53)).
      { rewrite Qred_correct. apply Qle_antisym; assumption. }
      rewrite (round_pos_compat 53 1024 _ _ Hx), round_pos_top.
      exists (inject_Z (2 ^ 53)). split; [reflexivity|].
      split; [discriminate | apply Qle_refl].
Qed.

(** ** LandmarkEstimator in double precision: the percentile index *)

Lemma float64_pct_idx_ok (p : Q) (n : nat) :
  0 < p -> p <= 1 -> (1 <= n)%nat -> (Z.of_nat n <= 2 ^ 53)%Z ->
  exists a b,
    Float64.round p = Ieee.Finite a /\
    Float64.round (a * inject_Z (Z.of_nat n)) = Ieee.Finite b /\
    Float64.pct_idx p n = Ok (Z.max 0 (Qceiling b - 1)) /\
    (Z.max 0 (Qceiling b - 1) < Z.of_nat n)%Z.
Proof.
  intros Hp0 Hp1 Hn Hn53.
  destruct (round_le p 1 ltac:(lra) Hp1 ltac:(lia)) as [a [Ha [Ha0 Ha1]]].
  assert (Hprod : a * inject_Z (Z.of_nat n) <= inject_Z (Z.of_nat n)).
  { assert (H0 : 0 <= inject_Z (Z.of_nat n)).
    { change 0 with (inject_Z 0). rewrite <- Zle_Qle. lia. }
    change (inject_Z 1) with 1 in Ha1. nra. }
  assert (Hprod0 : 0 <= a * inject_Z (Z.of_nat n)).
  { apply Qmult_le_0_compat; [assumption|].
    change 0 with (inject_Z 0). rewrite <- Zle_Qle. lia. }
  destruct (round_le _ (Z.of_nat n) Hprod0 Hprod Hn53) as [b [Hb [Hb0 Hbn]]].
  exists a, b. split; [assumption|]. split; [assumption|].
  assert (Hc : (Qceiling b <= Z.of_nat n)%Z).
  { rewrite <- (Qceiling_Z (Z.of_nat n)). now apply Qceiling_resp_le. }
  split; [|lia].
  unfold Float64.pct_idx, Float64.of_int.
  rewrite (round_integer (inject_Z (Z.of_nat n)) (Z.of_nat n)) by (try lia; reflexivity).
  cbn [bind]. rewrite Ha. cbn [Float64.mul]. rewrite Hb.
  cbn [Float64.ceil_to_int bind]. f_equal.
  destruct (Z.ltb_spec (Qceiling b - 1) 0); lia.
Qed.

Lemma float64_percentile_values_ok (PCTS : list Q) (sort : list Ieee.value) :
  (1 <= length sort)%nat -> (Z.of_nat (length sort) <= 2 ^ 53)%Z ->
  Forall (fun p => 0 < p /\ p <= 1) PCTS ->
  exists profile,
    Float64.percentile_values PCTS sort = Ok profile /\
    Forall2 (fun p v =>
               exists a b,
                 Float64.round p = Ieee.Finite a /\
                 Float64.round (a * inject_Z (Z.of_nat (length sort))) = Ieee.Finite b /\
                 nth_error sort (Z.to_nat (Z.max 0 (Qceiling b - 1))) = Some v)
            PCTS profile.
Proof.
  intros Hn Hn53 HP. unfold Float64.percentile_values.
  induction HP as [|p PCTS [Hp0 Hp1] _ [profile [Hrun Hall]]].
  - exists []. split; [reflexivity | constructor].
  - destruct (float64_pct_idx_ok p (length sort) Hp0 Hp1 Hn Hn53)
      as [a [b [Ha [Hb [Hidx Hlt]]]]].
    cbn [mapM]. rewrite Hidx. cbn [bind].
    rewrite (getitem_nth sort _ Ieee.NaN) by lia. cbn [bind].
    rewrite Hrun. cbn [bind]. eexists. split; [reflexivity|].
    constructor; [|assumption].
    exists a, b. split; [assumption|]. split; [assumption|].
    apply nth_error_nth'. lia.
Qed.


(** C5 (as amended).  For a volume with n sorted non-background voxels,
    1 <= n <= 2^53, and percentile points 0 < p <= 1, the profile is
    returned, and its entry for p is the sorted value at index
    [ceil(b) - 1], taken as 0 when negative, where [b] is the product of
    the double nearest to p and of n, rounded to double precision; a
    volume whose sole non-background voxel is 100 has the profile
    [100, 100, 100] for the percentile points 0.1, 0.5 and 0.99. *)
Theorem percentile_profile_selection :
  (forall PCTS volume,
      (1 <= length (Float64.foreground volume))%nat ->
      (Z.of_nat (length (Float64.foreground volume)) <= 2 ^ 53)%Z ->
      Forall (fun p => 0 < p /\ p <= 1) PCTS ->
      exists profile,
        Float64.one_volume_pct PCTS volume = Ok profile /\
        Forall2 (fun p v =>
                   exists a b,
                     Float64.round p = Ieee.Finite a /\
                     Float64.round
                       (a * inject_Z (Z.of_nat (length (Float64.foreground volume))))
                       = Ieee.Finite b /\
                     nth_error (Float64.foreground volume)
                               (Z.to_nat (Z.max 0 (Qceiling b - 1))) = Some v)
                PCTS profile) /\
  (forall volume,
      Float64.foreground volume = [Ieee.Finite 100] ->
      Float64.one_volume_pct [1 # 10; 1 # 2; 99 # 100] volume
      = Ok [Ieee.Finite 100; Ieee.Finite 100; Ieee.Finite 100]).
Proof.
  split.
  - intros PCTS volume Hn Hn53 HP.
    unfold Float64.foreground in *. unfold Float64.one_volume_pct.
    destruct (Float64.set_background_to_minimum volume) as [v|e]; [|simpl in Hn; lia].
    cbn [bind]. now apply float64_percentile_values_ok.
  - intros volume Hfg.
    unfold Float64.foreground in Hfg. unfold Float64.one_volume_pct.
    destruct (Float64.set_background_to_minimum volume) as [v|e]; [|discriminate].
    cbn [bind]. rewrite Hfg. vm_compute. reflexivity.
Qed.

Lemma percentile_profile_selection_witness :
  (exists profile,
      Float64.one_volume_pct [1 # 10; 1 # 2; 1] [0; 30; 10; 0; 20] = Ok profile /\
      Forall2 (fun p v =>
                 exists a b,
                   Float64.round p = Ieee.Finite a /\
                   Float64.round
                     (a * inject_Z (Z.of_nat (length (Float64.foreground
                                                        [0; 30; 10; 0; 20]))))
                     = Ieee.Finite b /\
                   nth_error (Float64.foreground [0; 30; 10; 0; 20])
                             (Z.to_nat (Z.max 0 (Qceiling b - 1))) = Some v)
              [1 # 10; 1 # 2; 1] profile) /\
  Float64.one_volume_pct [1 # 10; 1 # 2; 99 # 100] [0; 100; 0]
  = Ok [Ieee.Finite 100; Ieee.Finite 100; Ieee.Finite 100].
Proof.
  split.
  - apply (proj1 percentile_profile_selection [1 # 10; 1 # 2; 1] [0; 30; 10; 0; 20]).
    + vm_compute. lia.
    + vm_compute. discriminate.
    + repeat constructor; discriminate.
  - apply (proj2 percentile_profile_selection [0; 100; 0]). reflexivity.
Defined.

(** C5 as stated fails.  For the percentile point 0.07 and the 100
    non-background voxels 1, ..., 100 the source selects the value at index
    7, which is 8, and not the value at index [ceil(0.07 * 100) - 1 = 6]: the
    double nearest to 0.07 is above 0.07, and so is its rounded product with
    100 above 7.  Nor is the index the one of the exact product of the
    double: for the double nearest to 0.1 and 10 voxels the exact product is
    above 1, which gives the index 1, and the rounded product is 1, which
    gives the index 0 that the source selects. *)
Lemma double_product_changes_percentile_index :
  (spec_percentile_index (7 # 100) 100 = 6%Z /\
   Float64.pct_idx (7 # 100) 100 = Ok 7%Z /\
   nth 6 (Float64.foreground (map (fun k => inject_Z (Z.of_nat k)) (seq 1 100)))
       Ieee.NaN = Ieee.Finite 7 /\
   Float64.one_volume_pct [7 # 100] (map (fun k => inject_Z (Z.of_nat k)) (seq 1 100))
   = Ok [Ieee.Finite 8]) /\
  (exists a,
      Float64.round (1 # 10) = Ieee.Finite a /\
      spec_percentile_index a 10 = 1%Z /\
      Float64.pct_idx (1 # 10) 10 = Ok 0%Z).
Proof.
  split.
  - vm_compute. repeat split; reflexivity.
  - eexists. split; [vm_compute; reflexivity|]. vm_compute. split; reflexivity.
Qed.

(** ** LandmarkEstimator in double precision: the order of the subjects *)









Lemma Forall2_length_rows {A B : Type} (R : A -> B -> Prop) (k : nat)
    (irows : list (list A)) (rows : list (list B)) :
  Forall2 (Forall2 R) irows rows ->
  Forall (fun row => length row = k) rows ->
  Forall (fun irow => length irow = k) irows.
Proof.
  induction 1 as [|irow row irows rows Hrow _ IH]; intros Hall; constructor.
  - inversion Hall; subst. now rewrite (Forall2_length Hrow).
  - inversion Hall; subst. now apply IH.
Qed.










(** ** IntensityTransformer *)

Lemma scatter_gather_map (c : Q -> bool) (f : Q -> Q) (a : list Q) :
  Np.scatter (Np.where_ c a) (map f (Np.gather (Np.where_ c a) a)) a =
  map (fun v => if c v then f v else v) a.
Proof.
  unfold Np.where_. induction a as [|v a IH]; simpl; [reflexivity|].
  destruct (c v); simpl; now rewrite IH.
Qed.

Lemma fill_where_map (c : Q -> bool) (x : Q) (g : Q -> Q) (a : list Q) :
  Np.fill (Np.where_ c a) x (map g a) =
  map (fun v => if c v then x else g v) a.
Proof.
  unfold Np.where_. induction a as [|v a IH]; simpl; [reflexivity|].
  now rewrite IH.
Qed.

(** The value [_intensity_transform] gives to a voxel of intensity [v]. *)
Lemma transform_volume_map (volume volume0 : list Q) (p0 : Q) (pct : list Q)
    (l0 : Q) (lm : list Q) :
  set_background_to_minimum volume = Ok volume0 ->
  length pct = length lm ->
  transform_volume volume (p0 :: pct) (l0 :: lm) =
  Ok (map (fun v =>
             if Np.Qlt_bool v p0 then 0
             else if Qle_bool (last (p0 :: pct) 0) v then last (l0 :: lm) 0
             else if Np.Qlt_bool 0 v
                  then Np.interp1 (p0 :: pct) (l0 :: lm)
                                  p0 (last (p0 :: pct) p0) l0 (last (l0 :: lm) l0) v
                  else v)
          volume0).
Proof.
  intros Hbg Hlen. unfold transform_volume, transform_corrected.
  rewrite Hbg. cbn [bind].
  rewrite (getitem_last pct p0 0). cbn [bind].
  change (Np.getitem (p0 :: pct) 0) with (Ok (A := Q) p0). cbn [bind].
  unfold Np.interp.
  assert (Hl : (length (p0 :: pct) =? length (l0 :: lm))%nat = true)
    by (apply Nat.eqb_eq; simpl; congruence).
  rewrite Hl. cbn [negb bind].
  rewrite (getitem_last lm l0 0). cbn [bind].
  rewrite scatter_gather_map.
  rewrite (fill_where_map (fun v => Qle_bool (last (p0 :: pct) 0) v)).
  rewrite (fill_where_map (fun v => Np.Qlt_bool v p0)).
  reflexivity.
Qed.

(** A non-decreasing profile has its minimum first and its maximum last. *)
Lemma sorted_hd_le_last (l : list Q) :
  StronglySorted Qle l -> hd 0 l <= last l 0.
Proof.
  intros Hs. destruct l as [|x l]; [apply Qle_refl|].
  pose proof (sorted_last_max _ Hs) as Hmax.
  inversion Hmax; assumption.
Qed.

Lemma Forall2_nth_error {A B : Type} (R : A -> B -> Prop) (l : list A)
    (r : list B) (i : nat) (x : A) :
  Forall2 R l r -> nth_error l i = Some x ->
  exists y, nth_error r i = Some y /\ R x y.
Proof.
  intros H. revert i. induction H as [|a b l r Hab _ IH]; intros [|i]; simpl;
    try discriminate.
  - intros Hx; injection Hx as <-. eauto.
  - apply IH.
Qed.

Lemma nth_error_combine_seq {A : Type} (l : list A) (s i : nat) (x : A) :
  nth_error l i = Some x ->
  nth_error (combine (seq s (length l)) l) i = Some ((s + i)%nat, x).
Proof.
  revert s i. induction l as [|a l IH]; intros s [|i]; simpl; try discriminate.
  - intros Hx; injection Hx as <-. now rewrite Nat.add_0_r.
  - intros Hx. rewrite (IH (S s) i Hx). f_equal. f_equal. lia.
Qed.


(** C4.  Once the interpolation has been applied to the non-background
    voxels, a voxel above the subject's maximum percentile value holds the
    last landmark, which is the maximum of non-decreasing landmarks, and a
    voxel below the subject's minimum percentile value holds exactly 0; a
    non-background voxel in between holds its interpolated value.  The voxel
    intensities are those after the background correction, and the
    profile's minimum is at most its maximum. *)
Theorem high_and_low_voxels_overwritten (volume volume0 pct landmarks : list Q) :
  set_background_to_minimum volume = Ok volume0 ->
  pct <> [] ->
  length landmarks = length pct ->
  hd 0 pct <= last pct 0 ->
  (exists out,
    transform_volume volume pct landmarks = Ok out /\
    length out = length volume0 /\
    forall k, (k < length volume0)%nat ->
      let v := nth k volume0 0 in
      (last pct 0 < v -> nth k out 0 = last landmarks 0) /\
      (v < hd 0 pct -> nth k out 0 = 0) /\
      (hd 0 pct <= v -> v < last pct 0 -> 0 < v ->
       Np.interp [v] pct landmarks = Ok [nth k out 0])) /\
  (StronglySorted Qle landmarks ->
   Forall (fun l => l <= last landmarks 0) landmarks).
Proof.
  intros Hbg Hne Hlen Hsorted.
  split; [|apply sorted_last_max].
  destruct pct as [|p0 pct]; [congruence|].
  destruct landmarks as [|l0 lm]; [discriminate|].
  injection Hlen as Hlen. symmetry in Hlen.
  rewrite (transform_volume_map volume volume0 p0 pct l0 lm Hbg Hlen).
  eexists. split; [reflexivity|]. split; [apply length_map|].
  intros k Hk v.
  set (T := fun v : Q => if Np.Qlt_bool v p0 then 0 else _).
  rewrite (nth_indep _ 0 (T 0)) by (now rewrite length_map).
  rewrite (map_nth T). fold v. unfold T. cbn [hd] in *.
  repeat split.
  - intros Hhigh.
    assert (Hlow : Np.Qlt_bool v p0 = false).
    { apply Qlt_bool_false. apply Qle_trans with (last (p0 :: pct) 0);
        [assumption | now apply Qlt_le_weak]. }
    assert (Hge : Qle_bool (last (p0 :: pct) 0) v = true)
      by (apply Qle_bool_iff; now apply Qlt_le_weak).
    now rewrite Hlow, Hge.
  - intros Hlow. apply Qlt_bool_iff in Hlow. now rewrite Hlow.
  - intros Hge Hlt Hpos.
    apply Qlt_bool_false in Hge. rewrite Hge.
    assert (Hnh : Qle_bool (last (p0 :: pct) 0) v = false).
    { destruct (Qle_bool (last (p0 :: pct) 0) v) eqn:Hb; [|reflexivity].
      apply Qle_bool_iff in Hb. exfalso. exact (Qlt_not_le _ _ Hlt Hb). }
    rewrite Hnh. apply Qlt_bool_iff in Hpos. rewrite Hpos.
    unfold Np.interp.
    assert (Hl : (length (p0 :: pct) =? length (l0 :: lm))%nat = true)
      by (apply Nat.eqb_eq; simpl; congruence).
    rewrite Hl. reflexivity.
Qed.

Lemma high_and_low_voxels_overwritten_witness :
  exists out,
    transform_volume [0; 5; 10; 15; 30; 40; 2] [10; 20; 30] [100; 200; 300] = Ok out /\
    length out = 7%nat /\
    nth 5 out 0 = 300 /\ nth 1 out 0 = 0 /\
    Np.interp [15] [10; 20; 30] [100; 200; 300] = Ok [nth 3 out 0].
Proof.
  destruct (high_and_low_voxels_overwritten
              [0; 5; 10; 15; 30; 40; 2] [0; 5; 10; 15; 30; 40; 2]
              [10; 20; 30] [100; 200; 300]
              eq_refl ltac:(discriminate) eq_refl ltac:(discriminate))
    as [[out [Hout [Hlen Hvox]]] _].
  exists out. split; [exact Hout|]. split; [exact Hlen|].
  split; [|split].
  - apply (proj1 (Hvox 5%nat ltac:(simpl; lia))). reflexivity.
  - apply (proj1 (proj2 (Hvox 1%nat ltac:(simpl; lia)))). reflexivity.
  - apply (proj2 (proj2 (Hvox 3%nat ltac:(simpl; lia))));
      [discriminate | reflexivity | reflexivity].
Defined.

(** ** VolumeMerger: index arrays *)

Lemma flat_map_nil {A B : Type} (f : A -> list B) (l : list A) :
  (forall x, In x l -> f x = []) -> flat_map f l = [].
Proof.
  induction l as [|x l IH]; simpl; intros H; [reflexivity|].
  rewrite (H x) by auto. apply IH. auto.
Qed.

Lemma enumerate_In {A : Type} (l : list A) (i : Z) (v : A) :
  In (i, v) (enumerate l) -> (0 <= i < Z.of_nat (length l))%Z /\ In v l.
Proof.
  unfold enumerate. intros H. split.
  - apply in_combine_l in H. apply in_map_iff in H.
    destruct H as [k [<- Hk]]. apply in_seq in Hk. lia.
  - eapply in_combine_r; eassumption.
Qed.

Lemma In_flatten3 {A : Type} (a : array3 A) (plane : list (list A))
    (row : list A) (v : A) :
  In plane a -> In row plane -> In v row -> In v (flatten3 a).
Proof.
  intros Hp Hr Hv. unfold flatten3.
  apply in_concat. exists row. split; [|assumption].
  apply in_concat. exists plane. auto.
Qed.

Lemma where3_nil (c : Q -> bool) (a : volume3) :
  Forall (fun v => c v = false) (flatten3 a) -> where3 c a = [].
Proof.
  intros Hall. rewrite Forall_forall in Hall. unfold where3.
  apply flat_map_nil. intros [x plane] Hx. apply enumerate_In in Hx.
  apply flat_map_nil. intros [y row] Hy. apply enumerate_In in Hy.
  apply flat_map_nil. intros [z v] Hz. apply enumerate_In in Hz.
  rewrite (Hall v); [reflexivity|].
  eapply In_flatten3; [apply Hx | apply Hy | apply Hz].
Qed.

Lemma where3_bounds (c : Q -> bool) (n0 n1 n2 : nat) (a : volume3) (x y z : Z) :
  has_shape n0 n1 n2 a ->
  In (x, y, z) (where3 c a) ->
  (0 <= x < Z.of_nat n0 /\ 0 <= y < Z.of_nat n1 /\ 0 <= z < Z.of_nat n2)%Z.
Proof.
  intros [Hn0 Hplanes] Hin. rewrite Forall_forall in Hplanes.
  unfold where3 in Hin.
  apply in_flat_map in Hin. destruct Hin as [[x' plane] [Hx Hin]].
  apply in_flat_map in Hin. destruct Hin as [[y' row] [Hy Hin]].
  apply in_flat_map in Hin. destruct Hin as [[z' v] [Hz Hin]].
  destruct (c v); [|contradiction].
  destruct Hin as [Heq|[]]. injection Heq as -> -> ->.
  apply enumerate_In in Hx, Hy, Hz.
  destruct Hx as [Hx Hplane], Hy as [Hy Hrow], Hz as [Hz _].
  destruct (Hplanes plane Hplane) as [Hn1 Hrows].
  rewrite Forall_forall in Hrows. specialize (Hrows row Hrow).
  lia.
Qed.

Lemma sum_axis3_shape (n0 n1 n2 : nat) (full : volume4) :
  has_shape n0 n1 n2 full -> has_shape n0 n1 n2 (sum_axis3 full).
Proof.
  intros [Hn0 Hplanes]. unfold sum_axis3. split; [now rewrite length_map|].
  apply Forall_map. eapply Forall_impl; [|exact Hplanes].
  intros plane [Hn1 Hrows]. split; [now rewrite length_map|].
  apply Forall_map. eapply Forall_impl; [|exact Hrows].
  intros row Hn2. now rewrite length_map.
Qed.

Lemma fold_min_In (l : list Z) (x : Z) : In (fold_left Z.min l x) (x :: l).
Proof.
  revert x; induction l as [|y l IH]; intros x; simpl; [auto|].
  destruct (IH (Z.min x y)) as [H|H]; [|auto].
  rewrite <- H. destruct (Z.min_spec x y) as [[_ ->]|[_ ->]]; auto.
Qed.

Lemma fold_max_In (l : list Z) (x : Z) : In (fold_left Z.max l x) (x :: l).
Proof.
  revert x; induction l as [|y l IH]; intros x; simpl; [auto|].
  destruct (IH (Z.max x y)) as [H|H]; [|auto].
  rewrite <- H. destruct (Z.max_spec x y) as [[_ ->]|[_ ->]]; auto.
Qed.

Lemma fold_min_le (l : list Z) (x : Z) : (fold_left Z.min l x <= x)%Z.
Proof.
  revert x; induction l as [|y l IH]; intros x; simpl; [lia|].
  specialize (IH (Z.min x y)). lia.
Qed.

Lemma fold_max_ge (l : list Z) (x : Z) : (x <= fold_left Z.max l x)%Z.
Proof.
  revert x; induction l as [|y l IH]; intros x; simpl; [lia|].
  specialize (IH (Z.max x y)). lia.
Qed.

(** ** VolumeMerger: the index ranges *)

Lemma non_bg_range_all_background (full : volume4) :
  all_background full -> non_bg_range full = Raise ValueError.
Proof.
  intros Hbg. unfold non_bg_range.
  destruct (Np.min (flatten3 (sum_axis3 full))) as [m|e] eqn:Hm; cbn [bind].
  - rewrite where3_nil; [reflexivity|].
    eapply Forall_impl; [|exact (Hbg m Hm)].
    intros s Hs. apply Qlt_bool_false. rewrite Hs. apply Qle_refl.
  - now rewrite (min_raise _ _ Hm).
Qed.

Lemma non_bg_range_raise (full : volume4) (e : exn) :
  non_bg_range full = Raise e -> e = ValueError.
Proof.
  unfold non_bg_range.
  destruct (Np.min (flatten3 (sum_axis3 full))) as [m|e'] eqn:Hm; cbn [bind].
  - destruct (where3 _ (sum_axis3 full)) as [|c idx]; simpl; congruence.
  - intros H; injection H as <-. eapply min_raise; eassumption.
Qed.

Lemma non_bg_range_ok (n0 n1 n2 : nat) (full : volume4) (lo hi : list Z) :
  has_shape n0 n1 n2 full ->
  non_bg_range full = Ok (lo, hi) ->
  exists l0 l1 l2 h0 h1 h2,
    lo = [l0; l1; l2] /\ hi = [h0; h1; h2] /\
    (0 <= l0 < h0 /\ h0 <= Z.of_nat n0)%Z /\
    (0 <= l1 < h1 /\ h1 <= Z.of_nat n1)%Z /\
    (0 <= l2 < h2 /\ h2 <= Z.of_nat n2)%Z.
Proof.
  intros Hshape. apply sum_axis3_shape in Hshape. unfold non_bg_range.
  destruct (Np.min (flatten3 (sum_axis3 full))) as [m|e]; cbn [bind];
    [|discriminate].
  pose proof (where3_bounds (fun v => Np.Qlt_bool m v) n0 n1 n2
                            (sum_axis3 full)) as Hb.
  destruct (where3 _ (sum_axis3 full)) as [|[[x y] z] idx]; [discriminate|].
  simpl. intros H; injection H as <- <-.
  set (xs := map (fun c : Z * Z * Z => fst (fst c)) idx).
  set (ys := map (fun c : Z * Z * Z => snd (fst c)) idx).
  set (zs := map (@snd (Z * Z) Z) idx).
  assert (Hin : forall (f : Z * Z * Z -> Z) v,
             In v (f (x, y, z) :: map f idx) ->
             exists c, In c ((x, y, z) :: idx) /\ v = f c).
  { intros f v [<-|Hv]; [exists (x, y, z); simpl; auto|].
    apply in_map_iff in Hv. destruct Hv as [c [<- Hc]].
    exists c; simpl; auto. }
  do 6 eexists. split; [reflexivity|]. split; [reflexivity|].
  pose proof (fold_min_le xs x) as Lx. pose proof (fold_max_ge xs x) as Ux.
  pose proof (fold_min_le ys y) as Ly. pose proof (fold_max_ge ys y) as Uy.
  pose proof (fold_min_le zs z) as Lz. pose proof (fold_max_ge zs z) as Uz.
  destruct (Hin (fun c => fst (fst c)) _ (fold_min_In xs x)) as [[[a1 b1] c1] [H1 E1]].
  destruct (Hin (fun c => fst (fst c)) _ (fold_max_In xs x)) as [[[a2 b2] c2] [H2 E2]].
  destruct (Hin (fun c => snd (fst c)) _ (fold_min_In ys y)) as [[[a3 b3] c3] [H3 E3]].
  destruct (Hin (fun c => snd (fst c)) _ (fold_max_In ys y)) as [[[a4 b4] c4] [H4 E4]].
  destruct (Hin (@snd (Z * Z) Z) _ (fold_min_In zs z)) as [[[a5 b5] c5] [H5 E5]].
  destruct (Hin (@snd (Z * Z) Z) _ (fold_max_In zs z)) as [[[a6 b6] c6] [H6 E6]].
  apply (Hb _ _ _ Hshape) in H1, H2, H3, H4, H5, H6.
  simpl in E1, E2, E3, E4, E5, E6.
  lia.
Qed.

Lemma non_bg_range_three (full : volume4) (lo hi : list Z) :
  non_bg_range full = Ok (lo, hi) ->
  exists l0 l1 l2 h0 h1 h2, lo = [l0; l1; l2] /\ hi = [h0; h1; h2].
Proof.
  unfold non_bg_range.
  destruct (Np.min (flatten3 (sum_axis3 full))) as [m|e]; cbn [bind];
    [|discriminate].
  destruct (where3 _ (sum_axis3 full)) as [|[[x y] z] idx]; [discriminate|].
  simpl. intros H; injection H as <- <-.
  do 6 eexists. split; reflexivity.
Qed.

Lemma add_edge_space_eval (EDGE_SPACE B0 B1 B2 : Z) (i : nat) (b e : Z) :
  (i < 3)%nat ->
  add_edge_space EDGE_SPACE [B0; B1; B2] i b e =
  Ok (Z.max 0 (b - EDGE_SPACE), Z.min (e + EDGE_SPACE) (nth i [B0; B1; B2] 0 - 1))%Z.
Proof.
  intros Hi. unfold add_edge_space.
  assert (Hget : Np.getitem [B0; B1; B2] (Z.of_nat i) = Ok (nth i [B0; B1; B2] 0%Z)).
  { rewrite (getitem_nth _ _ 0%Z) by (simpl; lia). now rewrite Nat2Z.id. }
  rewrite Hget. cbn [bind]. f_equal. f_equal.
  - destruct (Z.ltb_spec (b - EDGE_SPACE) 0); lia.
  - rewrite Z.gtb_ltb.
    destruct (Z.ltb_spec (nth i [B0; B1; B2] 0 - 1) (e + EDGE_SPACE))%Z; lia.
Qed.

Lemma bounding_box_eval (EDGE_SPACE B0 B1 B2 : Z) (full : volume4)
    (l0 l1 l2 h0 h1 h2 : Z) :
  non_bg_range full = Ok ([l0; l1; l2], [h0; h1; h2]) ->
  bounding_box EDGE_SPACE [B0; B1; B2] full =
  Ok ([Z.max 0 (l0 - EDGE_SPACE); Z.max 0 (l1 - EDGE_SPACE); Z.max 0 (l2 - EDGE_SPACE)],
      [Z.min (h0 + EDGE_SPACE) (B0 - 1); Z.min (h1 + EDGE_SPACE) (B1 - 1);
       Z.min (h2 + EDGE_SPACE) (B2 - 1)])%Z.
Proof.
  intros H. unfold bounding_box. rewrite H. cbn [bind length seq combine mapM].
  rewrite !add_edge_space_eval by lia. reflexivity.
Qed.

(** ** Slices *)

Lemma Forall_firstn {A : Type} (P : A -> Prop) (n : nat) (l : list A) :
  Forall P l -> Forall P (firstn n l).
Proof.
  intros H. revert n. induction H as [|x l Hx _ IH]; intros [|n]; simpl;
    constructor; auto.
Qed.

Lemma Forall_skipn {A : Type} (P : A -> Prop) (n : nat) (l : list A) :
  Forall P l -> Forall P (skipn n l).
Proof.
  intros H. revert n. induction H as [|x l Hx Hl IH]; intros [|n]; simpl; auto.
Qed.

Lemma Forall_slice {A : Type} (P : A -> Prop) (b e : Z) (l : list A) :
  Forall P l -> Forall P (slice b e l).
Proof.
  intros H. unfold slice. now apply Forall_firstn, Forall_skipn.
Qed.

(** A slice whose bounds lie within the list is not clipped. *)
Lemma slice_length {A : Type} (b e : Z) (l : list A) :
  (0 <= b <= e)%Z -> (e <= Z.of_nat (length l))%Z ->
  length (slice b e l) = Z.to_nat (e - b).
Proof.
  intros Hbe He. unfold slice.
  destruct (Z.ltb_spec b 0); [lia|].
  destruct (Z.ltb_spec e 0); [lia|].
  rewrite length_firstn, length_skipn. lia.
Qed.

Lemma sub_array_shape {A : Type} (n0 n1 n2 : nat) (arr : array3 A)
    (b0 b1 b2 e0 e1 e2 : Z) :
  has_shape n0 n1 n2 arr ->
  (0 <= b0 <= e0 /\ e0 <= Z.of_nat n0)%Z ->
  (0 <= b1 <= e1 /\ e1 <= Z.of_nat n1)%Z ->
  (0 <= b2 <= e2 /\ e2 <= Z.of_nat n2)%Z ->
  has_shape (Z.to_nat (e0 - b0)) (Z.to_nat (e1 - b1)) (Z.to_nat (e2 - b2))
            (sub_array arr [b0; b1; b2] [e0; e1; e2]).
Proof.
  intros [Hn0 Hplanes] [H0 H0'] [H1 H1'] [H2 H2'].
  unfold sub_array. cbn [nth]. split.
  - rewrite length_map. apply slice_length; [assumption | lia].
  - apply Forall_map, Forall_slice.
    eapply Forall_impl; [|exact Hplanes].
    intros plane [Hn1 Hrows]. split.
    + rewrite length_map. apply slice_length; [assumption | lia].
    + apply Forall_map, Forall_slice.
      eapply Forall_impl; [|exact Hrows].
      intros row Hn2. cbv beta in Hn2. apply slice_length; [assumption | lia].
Qed.

(** An elementwise operation keeps the shape, and acts on each entry. *)
Lemma has_shape_map3 {A B : Type} (f : A -> B) (n0 n1 n2 : nat) (a : array3 A) :
  has_shape n0 n1 n2 a -> has_shape n0 n1 n2 (map (map (map f)) a).
Proof.
  intros [Hn0 Hplanes]. split; [now rewrite length_map|].
  apply Forall_map. eapply Forall_impl; [|exact Hplanes].
  intros plane [Hn1 Hrows]. split; [now rewrite length_map|].
  apply Forall_map. eapply Forall_impl; [|exact Hrows].
  intros row Hn2. cbv beta in *. now rewrite length_map.
Qed.

Lemma nth_map3 {A B : Type} (f : A -> B) (a : array3 A) (x y z : nat) (d : A) :
  nth z (nth y (nth x (map (map (map f)) a) []) []) (f d) =
  f (nth z (nth y (nth x a []) []) d).
Proof.
  assert (H1 : nth x (map (map (map f)) a) [] = map (map f) (nth x a []))
    by exact (map_nth (map (map f)) a [] x).
  rewrite H1.
  assert (H2 : nth y (map (map f) (nth x a [])) [] = map f (nth y (nth x a []) []))
    by exact (map_nth (map f) (nth x a []) [] y).
  rewrite H2. apply map_nth.
Qed.

(** ** VolumeMerger: the claims *)

(** C9 (as amended).  When every voxel of the ensemble has the minimum
    channel sum, the crop raises [ValueError] (numpy's refusal to take the
    minimum of an empty index array), for every margin, shape constant and
    mask; so does the merge that built the ensemble.  No cropped volume is
    returned. *)
Theorem all_background_raises_ValueError (M : Type) (EDGE_SPACE : Z)
    (BRAIN_SHAPE : list Z) (full : volume4) (mask : array3 M) :
  all_background full ->
  bounding_box EDGE_SPACE BRAIN_SHAPE full = Raise ValueError /\
  keep_minimum_volume EDGE_SPACE BRAIN_SHAPE full mask = Raise ValueError /\
  forall FULL_SHAPE volumes,
    fill_channels FULL_SHAPE 0 (zeros FULL_SHAPE) volumes = Ok full ->
    merge_to_one_volume FULL_SHAPE EDGE_SPACE BRAIN_SHAPE volumes mask =
    Raise ValueError.
Proof.
  intros Hbg.
  assert (Hbox : bounding_box EDGE_SPACE BRAIN_SHAPE full = Raise ValueError).
  { unfold bounding_box. now rewrite (non_bg_range_all_background full Hbg). }
  assert (Hkeep : forall (mask' : array3 M),
             keep_minimum_volume EDGE_SPACE BRAIN_SHAPE full mask' = Raise ValueError).
  { intros mask'. unfold keep_minimum_volume. now rewrite Hbox. }
  split; [exact Hbox|]. split; [apply Hkeep|].
  intros FULL_SHAPE volumes Hfull.
  unfold merge_to_one_volume. rewrite Hfull. cbn [bind]. apply Hkeep.
Qed.

Lemma zeros_all_background : all_background (zeros (2, 2, 2, 4)%nat).
Proof.
  intros m Hm. vm_compute in Hm. injection Hm as <-.
  vm_compute. repeat constructor.
Qed.

Lemma all_background_raises_ValueError_witness :
  keep_minimum_volume 1 [2; 2; 2]%Z (zeros (2, 2, 2, 4)%nat)
                      (single_voxel 2 0 0 0 0%Z 0%Z) = Raise ValueError.
Proof.
  refine (proj1 (proj2 (all_background_raises_ValueError
                          Z 1 [2; 2; 2]%Z (zeros (2, 2, 2, 4)%nat)
                          (single_voxel 2 0 0 0 0%Z 0%Z) _))).
  intros m Hm. vm_compute in Hm. injection Hm as <-.
  vm_compute. repeat constructor.
Defined.

(** C9 as stated fails: the all-zero ensemble makes the crop raise
    [ValueError], not [EmptyVolumeError]. *)
Lemma all_background_not_EmptyVolumeError :
  all_background (zeros (2, 2, 2, 4)%nat) /\
  keep_minimum_volume 1 [2; 2; 2]%Z (zeros (2, 2, 2, 4)%nat)
                      (single_voxel 2 0 0 0 0%Z 0%Z) = Raise ValueError /\
  keep_minimum_volume 1 [2; 2; 2]%Z (zeros (2, 2, 2, 4)%nat)
                      (single_voxel 2 0 0 0 0%Z 0%Z) <> Raise EmptyVolumeError.
Proof.
  split; [exact zeros_all_background|].
  split; [reflexivity | discriminate].
Qed.

(** C10.  The upper bound of every axis is capped at [BRAIN_SHAPE[i] - 1],
    a constant that does not depend on the ensemble handed in.  On an axis
    whose extent differs from [BRAIN_SHAPE[i]] the cap is therefore not the
    volume's own [axis_extent - 1], and whenever the cap takes effect the
    upper bound is not [axis_extent - 1] either. *)
Theorem upper_clamp_uses_BRAIN_SHAPE (EDGE_SPACE B0 B1 B2 : Z) (full : volume4)
    (lo hi : list Z) :
  non_bg_range full = Ok (lo, hi) ->
  exists b e,
    bounding_box EDGE_SPACE [B0; B1; B2] full = Ok (b, e) /\
    length e = 3%nat /\
    forall i, (i < 3)%nat ->
      let cap := (nth i [B0; B1; B2] 0%Z - 1)%Z in
      let axis_extent := nth i (axis_extents full) 0%Z in
      nth i e 0%Z = Z.min (nth i hi 0%Z + EDGE_SPACE) cap /\
      (axis_extent <> nth i [B0; B1; B2] 0%Z ->
       cap <> (axis_extent - 1)%Z /\
       ((cap < nth i hi 0%Z + EDGE_SPACE)%Z -> nth i e 0%Z <> (axis_extent - 1)%Z)).
Proof.
  intros H.
  destruct (non_bg_range_three full lo hi H)
    as [l0 [l1 [l2 [h0 [h1 [h2 [-> ->]]]]]]].
  rewrite (bounding_box_eval EDGE_SPACE B0 B1 B2 full _ _ _ _ _ _ H).
  do 2 eexists. split; [reflexivity|]. split; [reflexivity|].
  intros i Hi cap axis_extent. subst cap.
  destruct i as [|[|[|i]]]; [| | |lia]; cbn [nth] in *; (split; [reflexivity|lia]).
Qed.

Lemma upper_clamp_uses_BRAIN_SHAPE_witness :
  exists b e,
    bounding_box 2 [3; 3; 3]%Z corner_full = Ok (b, e) /\
    nth 0 e 0%Z = 2%Z /\ nth 0 e 0%Z <> (nth 0 (axis_extents corner_full) 0%Z - 1)%Z.
Proof.
  destruct (upper_clamp_uses_BRAIN_SHAPE 2 3 3 3 corner_full
              [1; 1; 1]%Z [2; 2; 2]%Z eq_refl) as [b [e [Hbox [_ Haxis]]]].
  exists b, e. split; [exact Hbox|].
  destruct (Haxis 0%nat ltac:(lia)) as [He Hcap]. split; [exact He|].
  apply Hcap; [discriminate | reflexivity].
Defined.

(** C3 (as amended).  With a margin [EDGE_SPACE >= 0] and an ensemble and
    a mask whose spatial shape is [BRAIN_SHAPE], every lower bound is the
    expanded one clamped up to 0, every upper bound is the expanded one
    clamped down to [axis_extent - 1], and [0 <= begin <= end <=
    axis_extent - 1] on each axis, also when the foreground touches the
    edge; the crop returns, and each cropped axis has exactly
    [end - begin] entries: no slice reaches outside the array. *)
Theorem bounding_box_clamped_to_BRAIN_SHAPE (M : Type) (EDGE_SPACE : Z)
    (n0 n1 n2 : nat) (full : volume4) (mask : array3 M) (lo hi : list Z) :
  has_shape n0 n1 n2 full ->
  has_shape n0 n1 n2 mask ->
  (0 <= EDGE_SPACE)%Z ->
  non_bg_range full = Ok (lo, hi) ->
  let BRAIN_SHAPE := [Z.of_nat n0; Z.of_nat n1; Z.of_nat n2] in
  exists b e new_full new_mask,
    bounding_box EDGE_SPACE BRAIN_SHAPE full = Ok (b, e) /\
    length b = 3%nat /\ length e = 3%nat /\
    (forall i, (i < 3)%nat ->
      let axis_extent := nth i BRAIN_SHAPE 0%Z in
      nth i b 0%Z = Z.max 0 (nth i lo 0%Z - EDGE_SPACE) /\
      nth i e 0%Z = Z.min (nth i hi 0%Z + EDGE_SPACE) (axis_extent - 1) /\
      (0 <= nth i b 0%Z <= nth i e 0%Z)%Z /\
      (nth i e 0%Z <= axis_extent - 1)%Z) /\
    keep_minimum_volume EDGE_SPACE BRAIN_SHAPE full mask = Ok (new_full, new_mask) /\
    has_shape (Z.to_nat (nth 0 e 0%Z - nth 0 b 0%Z))
              (Z.to_nat (nth 1 e 0%Z - nth 1 b 0%Z))
              (Z.to_nat (nth 2 e 0%Z - nth 2 b 0%Z)) new_full /\
    has_shape (Z.to_nat (nth 0 e 0%Z - nth 0 b 0%Z))
              (Z.to_nat (nth 1 e 0%Z - nth 1 b 0%Z))
              (Z.to_nat (nth 2 e 0%Z - nth 2 b 0%Z)) new_mask.
Proof.
  intros Hshape Hmask HE H BRAIN_SHAPE. subst BRAIN_SHAPE.
  destruct (non_bg_range_ok n0 n1 n2 full lo hi Hshape H)
    as [l0 [l1 [l2 [h0 [h1 [h2 [-> [-> [Hx [Hy Hz]]]]]]]]]].
  pose proof (bounding_box_eval EDGE_SPACE (Z.of_nat n0) (Z.of_nat n1)
                                (Z.of_nat n2) full _ _ _ _ _ _ H) as Hbox.
  unfold keep_minimum_volume. rewrite Hbox. cbn [bind].
  do 4 eexists. split; [reflexivity|]. split; [reflexivity|].
  split; [reflexivity|]. split; [|split; [reflexivity|]].
  - intros i Hi.
    destruct i as [|[|[|i]]]; [| | |lia]; cbn [nth];
      (split; [reflexivity|]); (split; [reflexivity|]); lia.
  - cbn [nth]. split; [apply has_shape_map3|];
      apply (sub_array_shape n0 n1 n2); try assumption; lia.
Qed.

Lemma bounding_box_clamped_to_BRAIN_SHAPE_witness :
  exists b e new_full new_mask,
    bounding_box 1 [2; 2; 2]%Z corner_full = Ok (b, e) /\
    (0 <= nth 2 b 0%Z <= nth 2 e 0%Z)%Z /\ (nth 2 e 0%Z <= 2 - 1)%Z /\
    keep_minimum_volume 1 [2; 2; 2]%Z corner_full (single_voxel 2 1 1 1 1%Z 0%Z)
      = Ok (new_full, new_mask).
Proof.
  destruct (bounding_box_clamped_to_BRAIN_SHAPE Z 1 2 2 2 corner_full
              (single_voxel 2 1 1 1 1%Z 0%Z)
              [1; 1; 1]%Z [2; 2; 2]%Z
              ltac:(split; [reflexivity | repeat constructor])
              ltac:(split; [reflexivity | repeat constructor])
              ltac:(lia) eq_refl)
    as [b [e [new_full [new_mask [Hbox [_ [_ [Haxis [Hkeep _]]]]]]]]].
  exists b, e, new_full, new_mask. split; [exact Hbox|].
  destruct (Haxis 2%nat ltac:(lia)) as [_ [_ [Hbe Hend]]].
  split; [exact Hbe|]. split; [exact Hend | exact Hkeep].
Defined.

(** C3 as stated fails: for an ensemble of shape (2,2,2,1) and the shape
    constant (8,8,8) the upper bounds are 4, beyond [axis_extent - 1 = 1]
    and beyond the last index of the array. *)
Lemma upper_bound_exceeds_axis_extent :
  axis_extents corner_full = [2; 2; 2]%Z /\
  bounding_box 2 [8; 8; 8]%Z corner_full = Ok ([0; 0; 0], [4; 4; 4])%Z /\
  ~ Forall2 (fun e axis_extent => e <= axis_extent - 1)%Z
            [4; 4; 4]%Z (axis_extents corner_full).
Proof.
  split; [reflexivity|]. split; [reflexivity|].
  intros H. inversion H as [|? ? ? ? Hle _]; subst. lia.
Qed.

(** The lower bounds do not depend on [BRAIN_SHAPE]. *)
Lemma bounding_box_lower_bounds (EDGE_SPACE : Z) (BRAIN_SHAPE : list Z)
    (full : volume4) (l0 l1 l2 h0 h1 h2 : Z) (b e : list Z) :
  non_bg_range full = Ok ([l0; l1; l2], [h0; h1; h2]) ->
  bounding_box EDGE_SPACE BRAIN_SHAPE full = Ok (b, e) ->
  b = [Z.max 0 (l0 - EDGE_SPACE); Z.max 0 (l1 - EDGE_SPACE);
       Z.max 0 (l2 - EDGE_SPACE)]%Z.
Proof.
  intros H. unfold bounding_box. rewrite H.
  cbn [bind length seq combine mapM]. unfold add_edge_space.
  destruct (Np.getitem BRAIN_SHAPE (Z.of_nat 0)); cbn [bind]; [|discriminate].
  destruct (Np.getitem BRAIN_SHAPE (Z.of_nat 1)); cbn [bind]; [|discriminate].
  destruct (Np.getitem BRAIN_SHAPE (Z.of_nat 2)); cbn [bind]; [|discriminate].
  intros Hbox. injection Hbox as <- _. cbn [map fst].
  repeat f_equal.
  - destruct (Z.ltb_spec (l0 - EDGE_SPACE) 0); lia.
  - destruct (Z.ltb_spec (l1 - EDGE_SPACE) 0); lia.
  - destruct (Z.ltb_spec (l2 - EDGE_SPACE) 0); lia.
Qed.

(** C2 (as amended).  With [FULL_SHAPE = (4,4,4,4)], [BRAIN_SHAPE = (4,4,4)]
    and [EDGE_SPACE = 1], merging four channel volumes whose only
    non-background voxel is the one at (2,2,2) gives the index ranges
    [1,3) x [0,3) x [1,3) and a cropped volume of shape (2,3,2,4) that holds
    the voxel at (1,1,1): the rotation moves the voxel to (2,1,2) and the
    upper bounds are capped at 3.  Cropping, without the rotation, an
    ensemble whose only non-background voxel is the one at (2,2,2) gives
    [1,3) on each axis and the shape (2,2,2,4). *)
Theorem single_voxel_merge_box :
  (exists full new_full new_mask,
      fill_channels (4, 4, 4, 4)%nat 0 (zeros (4, 4, 4, 4)%nat) scenario_channels
        = Ok full /\
      non_bg_range full = Ok ([2; 1; 2], [3; 2; 3])%Z /\
      bounding_box 1 [4; 4; 4]%Z full = Ok ([1; 0; 1], [3; 3; 3])%Z /\
      merge_to_one_volume (4, 4, 4, 4)%nat 1 [4; 4; 4]%Z
                          scenario_channels scenario_mask
        = Ok (new_full, new_mask) /\
      shape4 new_full = (2, 3, 2, 4)%nat /\
      shape3 new_mask = (2, 3, 2)%nat /\
      nth 1 (nth 1 (nth 1 new_full []) []) []
        = [Ieee.Finite 5; Ieee.Finite 7; Ieee.Finite 3; Ieee.Finite 9] /\
      nth 1 (nth 1 (nth 1 new_mask []) []) 0%Z = 1%Z) /\
  (exists new_full new_mask,
      bounding_box 1 [4; 4; 4]%Z scenario_full = Ok ([1; 1; 1], [3; 3; 3])%Z /\
      keep_minimum_volume 1 [4; 4; 4]%Z scenario_full scenario_mask
        = Ok (new_full, new_mask) /\
      shape4 new_full = (2, 2, 2, 4)%nat /\
      shape3 new_mask = (2, 2, 2)%nat).
Proof.
  split.
  - do 3 eexists.
    split; [vm_compute; reflexivity|].
    split; [vm_compute; reflexivity|].
    split; [vm_compute; reflexivity|].
    split; [vm_compute; reflexivity|].
    repeat split.
  - do 2 eexists.
    split; [vm_compute; reflexivity|].
    split; [vm_compute; reflexivity|].
    split; reflexivity.
Qed.

(** C2 as stated fails: the merge of the scenario does not give [1,4) on
    each axis, for no value of [BRAIN_SHAPE] (the range of axis 1 starts
    at 0), and with [BRAIN_SHAPE = (4,4,4)] the cropped volume does not have
    the shape (3,3,3,4). *)
Lemma single_voxel_merge_not_1_4 :
  exists full new_full new_mask,
    fill_channels (4, 4, 4, 4)%nat 0 (zeros (4, 4, 4, 4)%nat) scenario_channels
      = Ok full /\
    bounding_box 1 [4; 4; 4]%Z full = Ok ([1; 0; 1], [3; 3; 3])%Z /\
    bounding_box 1 [4; 4; 4]%Z full <> Ok ([1; 1; 1], [4; 4; 4])%Z /\
    (forall BRAIN_SHAPE,
        bounding_box 1 BRAIN_SHAPE full <> Ok ([1; 1; 1], [4; 4; 4])%Z) /\
    merge_to_one_volume (4, 4, 4, 4)%nat 1 [4; 4; 4]%Z
                        scenario_channels scenario_mask
      = Ok (new_full, new_mask) /\
    shape4 new_full <> (3, 3, 3, 4)%nat.
Proof.
  do 3 eexists.
  split; [vm_compute; reflexivity|].
  split; [vm_compute; reflexivity|].
  split; [vm_compute; discriminate|].
  split.
  - intros BRAIN_SHAPE Hbox.
    eapply (bounding_box_lower_bounds 1 BRAIN_SHAPE _ 2 1 2 3 2 3) in Hbox;
      [discriminate | vm_compute; reflexivity].
  - split; [vm_compute; reflexivity | discriminate].
Qed.

(** With a shape constant larger than the ensemble the caps of the scenario
    are not reached: the ranges are [1,4) x [0,3) x [1,4). *)
Lemma single_voxel_merge_uncapped :
  exists full,
    fill_channels (4, 4, 4, 4)%nat 0 (zeros (4, 4, 4, 4)%nat) scenario_channels
      = Ok full /\
    bounding_box 1 [240; 240; 155]%Z full = Ok ([1; 0; 1], [4; 3; 4])%Z.
Proof.
  eexists. split; vm_compute; reflexivity.
Qed.

(** * Further properties of the code *)

(** ** Background correction (lines 380-385 and 442-447) *)

Lemma fold_qmin_In (l : list Q) (x : Q) : In (fold_left Np.qmin l x) (x :: l).
Proof.
  revert x; induction l as [|y l IH]; intros x; simpl; [auto|].
  destruct (IH (Np.qmin x y)) as [H|H]; [|auto].
  rewrite <- H. unfold Np.qmin. destruct (Qle_bool x y); auto.
Qed.

Lemma qmin_le (x z : Q) : Np.qmin x z <= x /\ Np.qmin x z <= z.
Proof.
  unfold Np.qmin. destruct (Qle_bool x z) eqn:Hb.
  - apply Qle_bool_iff in Hb. split; [apply Qle_refl | assumption].
  - apply Qle_bool_false in Hb. split; [assumption | apply Qle_refl].
Qed.

Lemma fold_qmin_le_init (l : list Q) (x : Q) : fold_left Np.qmin l x <= x.
Proof.
  revert x; induction l as [|z l IH]; intros x; simpl; [apply Qle_refl|].
  eapply Qle_trans; [apply IH | apply qmin_le].
Qed.

Lemma fold_qmin_le (l : list Q) (x y : Q) :
  In y (x :: l) -> fold_left Np.qmin l x <= y.
Proof.
  revert x; induction l as [|z l IH]; intros x; simpl.
  - intros [<-|[]]. apply Qle_refl.
  - intros [Hy|[Hy|Hy]].
    + subst y. eapply Qle_trans; [apply fold_qmin_le_init | apply qmin_le].
    + subst y. eapply Qle_trans; [apply fold_qmin_le_init | apply qmin_le].
    + apply IH. right. assumption.
Qed.

Lemma min_In (a : list Q) (m : Q) : Np.min a = Ok m -> In m a.
Proof.
  destruct a as [|x a]; simpl; [discriminate|].
  intros H; injection H as <-. apply fold_qmin_In.
Qed.

Lemma min_le (a : list Q) (m y : Q) : Np.min a = Ok m -> In y a -> m <= y.
Proof.
  destruct a as [|x a]; simpl; [discriminate|].
  intros H; injection H as <-. apply fold_qmin_le.
Qed.


(** X1.  The background correction of a volume with at least one voxel
    returns a volume of the same size in which no voxel is negative. *)
Theorem set_background_nonnegative (volume : list Q) :
  volume <> [] ->
  exists volume',
    set_background_to_minimum volume = Ok volume' /\
    length volume' = length volume /\
    Forall (fun v => 0 <= v) volume'.
Proof.
  intros Hne. destruct (set_background_ok volume Hne) as [v' [Hv' Hlen]].
  exists v'. split; [assumption|]. split; [assumption|].
  unfold set_background_to_minimum in Hv'.
  destruct (Np.min volume) as [m|e] eqn:Hm; cbn [bind] in Hv'; [|discriminate].
  destruct (Np.Qlt_bool m 0) eqn:Hneg.
  - destruct (Np.min (Np.fill _ m volume)) as [m'|e] eqn:Hm'; cbn [bind] in Hv';
      [|discriminate].
    injection Hv' as <-.
    apply Forall_map, Forall_forall. intros v Hv.
    pose proof (min_le _ _ v Hm' Hv) as Hle.
    unfold Qminus. rewrite <- (Qplus_opp_r m').
    apply Qplus_le_compat; [assumption | apply Qle_refl].
  - injection Hv' as <-.
    apply Qlt_bool_false in Hneg.
    apply Forall_forall. intros v Hv.
    eapply Qle_trans; [exact Hneg | eapply min_le; eassumption].
Qed.

Lemma set_background_nonnegative_witness :
  exists volume',
    set_background_to_minimum [-3; 0; 4; 7; 0] = Ok volume' /\
    length volume' = 5%nat /\
    Forall (fun v => 0 <= v) volume'.
Proof.
  apply (set_background_nonnegative [-3; 0; 4; 7; 0]). discriminate.
Defined.

(** X2.  The background correction is idempotent: a corrected volume is
    returned unchanged when corrected again, as the transformer does after
    the estimator. *)
Theorem set_background_idempotent (volume volume' : list Q) :
  set_background_to_minimum volume = Ok volume' ->
  set_background_to_minimum volume' = Ok volume'.
Proof.
  intros H.
  assert (Hne : volume <> []) by (intros ->; discriminate).
  destruct (set_background_nonnegative volume Hne) as [v [Hv [Hlen Hpos]]].
  rewrite H in Hv. injection Hv as <-.
  assert (Hne' : volume' <> []).
  { intros ->. destruct volume; [congruence | discriminate]. }
  unfold set_background_to_minimum.
  destruct (min_ok volume' Hne') as [m Hm]. rewrite Hm. cbn [bind].
  rewrite Forall_forall in Hpos.
  pose proof (Hpos m (min_In _ _ Hm)) as Hm0.
  apply Qlt_bool_false in Hm0. now rewrite Hm0.
Qed.

Lemma set_background_idempotent_witness :
  set_background_to_minimum [0; 0; 7; 10; 0] = Ok [0; 0; 7; 10; 0].
Proof.
  apply (set_background_idempotent [-3; 0; 4; 7; 0]). reflexivity.
Defined.



(** ** The percentile profile and the landmarks (lines 373-408) *)

Lemma sort_In (a : list Q) (x : Q) : In x (Np.sort a) -> In x a.
Proof.
  induction a as [|y a IH]; simpl; [auto|].
  intros H. destruct (insert_In _ _ _ H) as [->|Hin]; auto.
Qed.

Lemma gather_where_In (c : Q -> bool) (a : list Q) (x : Q) :
  In x (Np.gather (Np.where_ c a) a) -> In x a /\ c x = true.
Proof.
  unfold Np.where_. induction a as [|y a IH]; simpl; [contradiction|].
  destruct (c y) eqn:Hy; simpl.
  - intros [<-|H]; [auto|]. destruct (IH H); auto.
  - intros H. destruct (IH H); auto.
Qed.

Lemma foreground_positive (volume : list Q) (x : Q) :
  In x (foreground volume) -> 0 < x.
Proof.
  unfold foreground, sorted_foreground.
  destruct (set_background_to_minimum volume) as [v|e]; [|contradiction].
  intros H. apply sort_In, gather_where_In in H.
  now apply Qlt_bool_iff.
Qed.

Lemma percentile_values_In (PCTS sort profile : list Q) :
  percentile_values PCTS sort = Ok profile -> Forall (fun x => In x sort) profile.
Proof.
  unfold percentile_values. intros H. apply mapM_Forall2 in H.
  induction H as [|p x ps xs Hx _ IH]; constructor; [|assumption].
  destruct (getitem_ok_nth _ _ _ 0 (pct_idx_nonneg p (length sort)) Hx)
    as [Hlt ->].
  now apply nth_In.
Qed.

Lemma one_volume_pct_ok_foreground (PCTS volume profile : list Q) :
  one_volume_pct PCTS volume = Ok profile ->
  percentile_values PCTS (foreground volume) = Ok profile.
Proof.
  intros H.
  assert (Hne : volume <> []) by (intros ->; discriminate).
  now rewrite <- (one_volume_pct_foreground PCTS volume Hne).
Qed.

Lemma profile_entries_are_foreground_aux (PCTS volume profile : list Q) :
  one_volume_pct PCTS volume = Ok profile -> Forall (fun x => 0 < x) profile.
Proof.
  intros H. apply one_volume_pct_ok_foreground in H.
  eapply Forall_impl; [|exact (percentile_values_In _ _ _ H)].
  intros x Hx. exact (foreground_positive _ _ Hx).
Qed.

(** X4.  Every entry of a percentile profile is the intensity of a
    non-background voxel of the corrected volume, hence strictly positive:
    no value is interpolated or invented. *)
Theorem profile_entries_are_foreground (PCTS volume profile : list Q) :
  one_volume_pct PCTS volume = Ok profile ->
  Forall (fun x => 0 < x /\ In x (foreground volume)) profile.
Proof.
  intros H. apply one_volume_pct_ok_foreground in H.
  eapply Forall_impl; [|exact (percentile_values_In _ _ _ H)].
  intros x Hx. split; [exact (foreground_positive _ _ Hx) | exact Hx].
Qed.

Lemma profile_entries_are_foreground_witness :
  Forall (fun x => 0 < x /\ In x (foreground [-3; 0; 4; 7; 0])) [7; 7; 10].
Proof.
  apply (profile_entries_are_foreground [1 # 10; 1 # 2; 99 # 100]).
  reflexivity.
Defined.

Lemma nth_pred_length_last (l : list Q) (d : Q) :
  nth (length l - 1) l d = last l d.
Proof.
  induction l as [|x l IH]; [reflexivity|].
  destruct l as [|y l]; [reflexivity|].
  replace (length (x :: y :: l) - 1)%nat with (S (length (y :: l) - 1))
    by (simpl; lia).
  exact IH.
Qed.

Lemma pct_idx_one (p : Q) (n : nat) :
  p == 1 -> (1 <= n)%nat -> pct_idx p n = (Z.of_nat n - 1)%Z.
Proof.
  intros Hp Hn. unfold pct_idx.
  assert (Hc : Qceiling (p * inject_Z (Z.of_nat n)) = Z.of_nat n).
  { rewrite <- (Qceiling_Z (Z.of_nat n)) at 2.
    apply Qceiling_comp. rewrite Hp. apply Qmult_1_l. }
  rewrite Hc. destruct (Z.ltb_spec (Z.of_nat n - 1) 0); lia.
Qed.

(** X5.  The percentile point 1 selects the largest non-background
    intensity of the volume. *)
Theorem percentile_one_is_maximum (PCTS volume profile : list Q) (j : nat) (p : Q) :
  one_volume_pct PCTS volume = Ok profile ->
  nth_error PCTS j = Some p ->
  p == 1 ->
  nth_error profile j = Some (last (foreground volume) 0) /\
  Forall (fun y => y <= last (foreground volume) 0) (foreground volume).
Proof.
  intros H Hj Hp. split; [|apply sorted_last_max, foreground_sorted].
  apply one_volume_pct_ok_foreground in H.
  unfold percentile_values in H. apply mapM_Forall2 in H.
  destruct (Forall2_nth_error _ _ _ _ _ H Hj) as [x [Hx Hget]].
  rewrite Hx. f_equal.
  destruct (getitem_ok_nth _ _ _ 0 (pct_idx_nonneg p _) Hget) as [Hlt ->].
  assert (Hn : (1 <= length (foreground volume))%nat) by lia.
  rewrite (pct_idx_one p _ Hp Hn).
  replace (Z.to_nat (Z.of_nat (length (foreground volume)) - 1))
    with (length (foreground volume) - 1)%nat by lia.
  apply nth_pred_length_last.
Qed.

Lemma percentile_one_is_maximum_witness :
  nth_error [10; 20; 30] 2 = Some (last (foreground [0; 30; 10; 0; 20]) 0) /\
  Forall (fun y => y <= last (foreground [0; 30; 10; 0; 20]) 0)
         (foreground [0; 30; 10; 0; 20]).
Proof.
  apply (percentile_one_is_maximum [1 # 10; 1 # 2; 1] [0; 30; 10; 0; 20]
                                   [10; 20; 30] 2 1);
    reflexivity.
Defined.


(** X6.  When the landmark computation returns, the table of percentile
    values has one row per subject and one column per percentile point.
    For an empty cohort it returns without error, and the landmarks are the
    scalar [nan]; otherwise they are a vector with one entry per percentile
    point. *)
Theorem get_volume_landmarks_shape (PCTS : list Q) (volumes : list (list Q))
    (landmarks : Np.mean_result) (all_volume_pct : list (list Q)) :
  get_volume_landmarks PCTS volumes = Ok (landmarks, all_volume_pct) ->
  length all_volume_pct = length volumes /\
  Forall (fun row => length row = length PCTS) all_volume_pct /\
  (volumes = [] -> landmarks = Np.Nan) /\
  (volumes <> [] ->
   exists v, landmarks = Np.Vector v /\ length v = length PCTS).
Proof.
  unfold get_volume_landmarks. intros H.
  destruct (mapM (one_volume_pct PCTS) volumes) as [rows|e] eqn:Hrows;
    cbn [bind] in H; [|discriminate].
  injection H as <- <-.
  pose proof (mapM_length _ _ _ Hrows) as Hlen.
  pose proof (profiles_length _ _ _ Hrows) as Hcols.
  split; [assumption|]. split; [assumption|]. split.
  - intros ->. destruct rows; [reflexivity | discriminate].
  - intros Hne.
    assert (Hrne : rows <> []).
    { intros ->. destruct volumes; [congruence | discriminate]. }
    destruct (mean_axis0_spec (length PCTS) rows Hrne Hcols) as [v [Hv [Hk _]]].
    exists v. auto.
Qed.

Lemma get_volume_landmarks_shape_witness :
  length [[10; 20; 30]; [30; 40; 50]] = length [[10; 20; 30]; [0; 50; 30; 40]] /\
  Forall (fun row => length row = length [1 # 3; 2 # 3; 1])
         [[10; 20; 30]; [30; 40; 50]] /\
  ([[10; 20; 30]; [0; 50; 30; 40]] = [] ->
   Np.Vector [40 # 2; 60 # 2; 80 # 2] = Np.Nan) /\
  ([[10; 20; 30]; [0; 50; 30; 40]] <> [] ->
   exists v, Np.Vector [40 # 2; 60 # 2; 80 # 2] = Np.Vector v /\
             length v = length [1 # 3; 2 # 3; 1]).
Proof.
  apply (get_volume_landmarks_shape
           [1 # 3; 2 # 3; 1] [[10; 20; 30]; [0; 50; 30; 40]]
           (Np.Vector [40 # 2; 60 # 2; 80 # 2])
           [[10; 20; 30]; [30; 40; 50]]).
  reflexivity.
Defined.

Lemma sum_nonneg {A : Type} (f : A -> Q) (l : list A) :
  Forall (fun x => 0 <= f x) l -> 0 <= fold_right Qplus 0 (map f l).
Proof.
  induction 1 as [|x l Hx _ IH]; simpl; [apply Qle_refl|].
  exact (Qplus_le_compat 0 _ 0 _ Hx IH).
Qed.

Lemma sum_positive {A : Type} (f : A -> Q) (l : list A) :
  l <> [] -> Forall (fun x => 0 < f x) l -> 0 < fold_right Qplus 0 (map f l).
Proof.
  intros Hne Hall. destruct Hall as [|x l Hx Hl]; [congruence|]. simpl.
  refine (Qplus_lt_le_compat 0 _ 0 _ Hx _).
  apply sum_nonneg. eapply Forall_impl; [|exact Hl].
  intros y Hy. now apply Qlt_le_weak.
Qed.

(** X7.  Every landmark is strictly positive. *)
Theorem landmarks_positive (PCTS : list Q) (volumes : list (list Q))
    (landmarks : list Q) (all_volume_pct : list (list Q)) :
  get_volume_landmarks PCTS volumes = Ok (Np.Vector landmarks, all_volume_pct) ->
  Forall (fun l => 0 < l) landmarks.
Proof.
  intros H. unfold get_volume_landmarks in H.
  destruct (mapM (one_volume_pct PCTS) volumes) as [rows|e] eqn:Hrows;
    cbn [bind] in H; [|discriminate].
  injection H as Hmean <-.
  assert (Hne : rows <> []) by (intros ->; discriminate).
  pose proof (profiles_length _ _ _ Hrows) as Hlen.
  destruct (mean_axis0_spec (length PCTS) rows Hne Hlen) as [lm [Hlm [Hk Hnth]]].
  rewrite Hlm in Hmean. injection Hmean as ->.
  assert (Hpos : Forall (fun row => Forall (fun x => 0 < x) row) rows).
  { apply mapM_Forall2 in Hrows. clear - Hrows.
    induction Hrows as [|v row vs rows' Hv _ IH]; constructor; [|assumption].
    eapply Forall_impl; [|exact (profile_entries_are_foreground_aux _ _ _ Hv)].
    intros x Hx. exact Hx. }
  apply Forall_forall. intros l Hl.
  destruct (In_nth _ _ 0 Hl) as [j [Hj <-]]. rewrite Hk in Hj.
  rewrite (Hnth j Hj). unfold spec_mean_at.
  apply Qlt_shift_div_l.
  - change 0 with (inject_Z 0). rewrite <- Zlt_Qlt.
    destruct rows; [congruence | simpl length; lia].
  - rewrite Qmult_0_l. apply sum_positive; [assumption|].
    rewrite Forall_forall in Hpos, Hlen. apply Forall_forall. intros row Hrow.
    specialize (Hpos row Hrow). rewrite Forall_forall in Hpos.
    apply Hpos, nth_In. rewrite (Hlen row Hrow). assumption.
Qed.

Lemma landmarks_positive_witness :
  Forall (fun l => 0 < l) [40 # 2; 60 # 2; 80 # 2].
Proof.
  apply (landmarks_positive [1 # 3; 2 # 3; 1] [[10; 20; 30]; [0; 50; 30; 40]]
                            [40 # 2; 60 # 2; 80 # 2] [[10; 20; 30]; [30; 40; 50]]).
  reflexivity.
Defined.

(** X8.  For non-decreasing percentile points the landmarks are
    non-decreasing; their last entry is their maximum. *)
Theorem landmarks_nondecreasing (PCTS : list Q) (volumes : list (list Q))
    (landmarks : list Q) (all_volume_pct : list (list Q)) :
  StronglySorted Qle PCTS ->
  get_volume_landmarks PCTS volumes = Ok (Np.Vector landmarks, all_volume_pct) ->
  StronglySorted Qle landmarks /\
  Forall (fun l => l <= last landmarks 0) landmarks.
Proof.
  intros HP H.
  pose proof (landmarks_sorted PCTS volumes landmarks all_volume_pct HP H) as Hs.
  split; [assumption | now apply sorted_last_max].
Qed.

Lemma landmarks_nondecreasing_witness :
  StronglySorted Qle [40 # 2; 60 # 2; 80 # 2] /\
  Forall (fun l => l <= last [40 # 2; 60 # 2; 80 # 2] 0) [40 # 2; 60 # 2; 80 # 2].
Proof.
  apply (landmarks_nondecreasing
           [1 # 3; 2 # 3; 1] [[10; 20; 30]; [0; 50; 30; 40]]
           [40 # 2; 60 # 2; 80 # 2] [[10; 20; 30]; [30; 40; 50]]).
  - repeat constructor; discriminate.
  - reflexivity.
Defined.

(** ** The intensity transform (lines 442-465) *)

Lemma last_indep (l : list Q) (d d' : Q) : l <> [] -> last l d = last l d'.
Proof.
  induction l as [|x l IH]; [congruence|]. intros _.
  destruct l as [|y l]; [reflexivity|].
  change (last (y :: l) d = last (y :: l) d'). apply IH. discriminate.
Qed.

Lemma transform_volume_voxels (volume volume0 : list Q) (p0 : Q) (pct : list Q)
    (l0 : Q) (lm : list Q) :
  set_background_to_minimum volume = Ok volume0 ->
  length pct = length lm ->
  transform_volume volume (p0 :: pct) (l0 :: lm) =
  Ok (map (transform_voxel p0 pct l0 lm) volume0).
Proof. exact (transform_volume_map volume volume0 p0 pct l0 lm). Qed.

Section LinearSegment.

Variables x0 x1 y0 y1 : Q.

Lemma segment_bounds (x : Q) :
  x0 <= x -> x < x1 -> y0 <= y1 ->
  y0 <= (y1 - y0) / (x1 - x0) * (x - x0) + y0 /\
  (y1 - y0) / (x1 - x0) * (x - x0) + y0 <= y1.
Proof.
  intros H0 H1 Hy.
  assert (Hd : 0 < x1 - x0) by lra.
  assert (Hs : 0 <= (y1 - y0) / (x1 - x0)).
  { apply Qle_shift_div_l; [assumption | lra]. }
  set (s := (y1 - y0) / (x1 - x0)) in *.
  assert (Hc : s * (x1 - x0) == y1 - y0) by (unfold s; field; lra).
  split.
  - assert (0 <= s * (x - x0)) by (apply Qmult_le_0_compat; lra). lra.
  - assert (s * (x - x0) <= s * (x1 - x0)).
    { rewrite !(Qmult_comm s). apply Qmult_le_compat_r; lra. }
    lra.
Qed.


End LinearSegment.


Lemma interp_segment_step (x a a1 : Q) (xp : list Q) (b b1 : Q) (fp : list Q) :
  Np.interp_segment x (a :: a1 :: xp) (b :: b1 :: fp) =
  if Np.Qlt_bool x a1
  then if Qeq_bool a x then b else (b1 - b) / (a1 - a) * (x - a) + b
  else Np.interp_segment x (a1 :: xp) (b1 :: fp).
Proof. reflexivity. Qed.

(** Between its first and last sample point, the interpolation stays
    between the first and the last of non-decreasing values. *)
Lemma interp_segment_bounds (xp fp : list Q) (x : Q) :
  xp <> [] ->
  length xp = length fp ->
  StronglySorted Qle fp ->
  hd 0 xp <= x ->
  hd 0 fp <= Np.interp_segment x xp fp /\
  Np.interp_segment x xp fp <= last fp 0.
Proof.
  revert fp. induction xp as [|a xp IH]; intros fp Hne Hlen Hs Hx; [congruence|].
  destruct fp as [|b fp]; [discriminate|].
  destruct xp as [|a1 xp], fp as [|b1 fp]; try discriminate.
  - simpl. split; apply Qle_refl.
  - cbn [hd] in *.
    assert (Hs' : StronglySorted Qle (b1 :: fp)) by (inversion Hs; assumption).
    assert (Hb : b <= b1).
    { inversion Hs as [|? ? _ Hall]; subst. inversion Hall; assumption. }
    pose proof (sorted_hd_le_last _ Hs') as Hb1. cbn [hd] in Hb1.
    change (last (b :: b1 :: fp) 0) with (last (b1 :: fp) 0).
    rewrite interp_segment_step.
    destruct (Np.Qlt_bool x a1) eqn:Hlt.
    + apply Qlt_bool_iff in Hlt.
      destruct (Qeq_bool a x).
      * split; [apply Qle_refl | lra].
      * destruct (segment_bounds a a1 b b1 x Hx Hlt Hb). split; lra.
    + apply Qlt_bool_false in Hlt.
      destruct (IH (b1 :: fp)) as [Hlo Hhi]; try assumption.
      * discriminate.
      * simpl in *. lia.
      * cbn [hd] in Hlo. split; lra.
Qed.



Lemma interp_segment_breakpoint (xp fp : list Q) (j : nat) (x : Q) :
  StronglySorted Qlt xp ->
  length xp = length fp ->
  (j < length xp)%nat ->
  x == nth j xp 0 ->
  Np.interp_segment x xp fp = nth j fp 0.
Proof.
  revert fp j. induction xp as [|a xp IH]; intros fp j Hs Hlen Hj Hx;
    [simpl in Hj; lia|].
  destruct fp as [|b fp]; [discriminate|].
  destruct xp as [|a1 xp], fp as [|b1 fp]; try discriminate.
  - simpl in Hj. assert (j = 0%nat) by lia. subst. reflexivity.
  - assert (Hs' : StronglySorted Qlt (a1 :: xp)) by (inversion Hs; assumption).
    assert (Hall : Forall (Qlt a) (a1 :: xp)) by (inversion Hs; assumption).
    rewrite interp_segment_step.
    destruct j as [|j].
    + change (nth 0 (a :: a1 :: xp) 0) with a in Hx.
      change (nth 0 (b :: b1 :: fp) 0) with b.
      assert (Hlt : x < a1).
      { rewrite Hx. inversion Hall; assumption. }
      apply Qlt_bool_iff in Hlt. rewrite Hlt.
      assert (Hax : a == x) by (now symmetry).
      apply Qeq_bool_iff in Hax. now rewrite Hax.
    + change (nth (S j) (a :: a1 :: xp) 0) with (nth j (a1 :: xp) 0) in Hx.
      change (nth (S j) (b :: b1 :: fp) 0) with (nth j (b1 :: fp) 0).
      assert (Hj' : (j < length (a1 :: xp))%nat) by (simpl in *; lia).
      assert (Hge : a1 <= x).
      { rewrite Hx. destruct j as [|j]; [apply Qle_refl|].
        inversion Hs' as [|? ? _ Hall1]; subst.
        apply Qlt_le_weak. rewrite Forall_forall in Hall1.
        apply Hall1. change (nth (S j) (a1 :: xp) 0) with (nth j xp 0).
        apply nth_In. simpl in Hj'. lia. }
      apply Qlt_bool_false in Hge. rewrite Hge.
      apply IH; try assumption. simpl in *; lia.
Qed.

Section TransformVoxel.

Variables (p0 : Q) (pct : list Q) (l0 : Q) (lm : list Q).


Lemma transform_voxel_high (v : Q) :
  p0 <= v -> last (p0 :: pct) 0 <= v ->
  transform_voxel p0 pct l0 lm v = last (l0 :: lm) 0.
Proof.
  intros Hlo Hhi. unfold transform_voxel.
  apply Qlt_bool_false in Hlo. rewrite Hlo.
  apply Qle_bool_iff in Hhi. now rewrite Hhi.
Qed.

Lemma transform_voxel_mid (v : Q) :
  0 < p0 -> p0 <= v -> v < last (p0 :: pct) 0 ->
  transform_voxel p0 pct l0 lm v = Np.interp_segment v (p0 :: pct) (l0 :: lm).
Proof.
  intros Hp Hlo Hhi. unfold transform_voxel, Np.interp1.
  assert (H0 : 0 < v) by lra.
  assert (Hn : Qle_bool (last (p0 :: pct) 0) v = false).
  { destruct (Qle_bool (last (p0 :: pct) 0) v) eqn:Hb; [|reflexivity].
    apply Qle_bool_iff in Hb. lra. }
  assert (Hm : Np.Qlt_bool (last (p0 :: pct) p0) v = false).
  { apply Qlt_bool_false.
    rewrite (last_indep (p0 :: pct) p0 0) by discriminate. lra. }
  apply Qlt_bool_false in Hlo. apply Qlt_bool_iff in H0.
  now rewrite Hlo, Hn, H0, Hm.
Qed.

Hypothesis lengths : length pct = length lm.
Hypothesis lm_sorted : StronglySorted Qle (l0 :: lm).
Hypothesis p0_positive : 0 < p0.


Hypothesis l0_nonnegative : 0 <= l0.


End TransformVoxel.

Lemma map_nth_default (f : Q -> Q) (l : list Q) (k : nat) :
  (k < length l)%nat -> nth k (map f l) 0 = f (nth k l 0).
Proof.
  intros Hk. rewrite (nth_indep _ 0 (f 0)) by (now rewrite length_map).
  apply map_nth.
Qed.








Lemma sorted_lt_nth (l : list Q) :
  StronglySorted Qlt l ->
  forall i j, (i < j < length l)%nat -> nth i l 0 < nth j l 0.
Proof.
  induction 1 as [|x l Hs IH Hx]; intros i j Hij; simpl in Hij; [lia|].
  destruct i as [|i], j as [|j]; simpl; try lia.
  - rewrite Forall_forall in Hx. apply Hx, nth_In. lia.
  - apply IH. lia.
Qed.

(** X12.  For strictly increasing, positive percentile values, a voxel whose
    intensity equals the subject's [j]-th percentile value receives exactly
    the [j]-th landmark. *)
Theorem transform_volume_percentile_to_landmark
    (volume volume0 pct landmarks : list Q) (j k : nat) :
  set_background_to_minimum volume = Ok volume0 ->
  length landmarks = length pct ->
  0 < hd 0 pct ->
  StronglySorted Qlt pct ->
  (j < length pct)%nat ->
  (k < length volume0)%nat ->
  nth k volume0 0 == nth j pct 0 ->
  exists out,
    transform_volume volume pct landmarks = Ok out /\
    nth k out 0 = nth j landmarks 0.
Proof.
  intros Hbg Hlen Hp Hs Hj Hk Hv.
  destruct pct as [|p0 pct]; [simpl in Hj; lia|].
  destruct landmarks as [|l0 lm]; [discriminate|].
  injection Hlen as Hlen. symmetry in Hlen. cbn [hd] in Hp.
  rewrite (transform_volume_voxels volume volume0 p0 pct l0 lm Hbg Hlen).
  eexists. split; [reflexivity|].
  rewrite map_nth_default by assumption.
  set (v := nth k volume0 0) in *.
  set (n := length (p0 :: pct)).
  assert (Hlast : last (p0 :: pct) 0 = nth (n - 1) (p0 :: pct) 0)
    by (symmetry; apply nth_pred_length_last).
  assert (Hge : p0 <= v).
  { rewrite Hv. destruct j as [|j]; [apply Qle_refl|].
    apply Qlt_le_weak. apply (sorted_lt_nth _ Hs 0%nat (S j)). lia. }
  destruct (Nat.eq_dec j (n - 1)) as [->|Hjn].
  - rewrite transform_voxel_high.
    + rewrite <- (nth_pred_length_last (l0 :: lm) 0). f_equal.
      unfold n. simpl. lia.
    + assumption.
    + rewrite Hlast, Hv. apply Qle_refl.
  - rewrite transform_voxel_mid.
    + apply interp_segment_breakpoint; [assumption | simpl; congruence | assumption
                                        | assumption].
    + assumption.
    + assumption.
    + rewrite Hlast, Hv. apply (sorted_lt_nth _ Hs). unfold n in *. lia.
Qed.

Lemma transform_volume_percentile_to_landmark_witness :
  exists out,
    transform_volume [0; 5; 10; 20; 30; 40; 2] [10; 20; 30] [100; 200; 300] = Ok out /\
    nth 3 out 0 = 200.
Proof.
  apply (transform_volume_percentile_to_landmark
           [0; 5; 10; 20; 30; 40; 2] [0; 5; 10; 20; 30; 40; 2]
           [10; 20; 30] [100; 200; 300] 1 3).
  - reflexivity.
  - reflexivity.
  - reflexivity.
  - repeat constructor; reflexivity.
  - simpl; lia.
  - simpl; lia.
  - reflexivity.
Defined.

(** ** Estimator and transformer together (lines 337-345) *)







(** ** The crop (lines 575-627) *)

Lemma flat_map_nil_inv {A B : Type} (f : A -> list B) (l : list A) :
  flat_map f l = [] -> forall x, In x l -> f x = [].
Proof.
  induction l as [|a l IH]; simpl; [contradiction|].
  intros H x [<-|Hx].
  - now apply app_eq_nil in H.
  - apply IH; [now apply app_eq_nil in H | assumption].
Qed.

Lemma In_enumerate {A : Type} (l : list A) (v : A) :
  In v l -> exists i, In (i, v) (enumerate l).
Proof.
  intros Hv. destruct (In_nth_error _ _ Hv) as [k Hk].
  exists (Z.of_nat k). unfold enumerate.
  pose proof (nth_error_combine_seq l 0 k v Hk) as Hc.
  apply nth_error_In in Hc. simpl in Hc.
  clear - Hc. revert Hc. generalize (seq 0 (length l)). intros s.
  revert l. induction s as [|a s IH]; intros [|b l]; simpl; try contradiction.
  intros [H|H]; [left; now injection H as -> -> | right; now apply IH].
Qed.

Lemma where3_nil_inv (c : Q -> bool) (a : volume3) :
  where3 c a = [] -> Forall (fun v => c v = false) (flatten3 a).
Proof.
  intros H. apply Forall_forall. intros v Hv.
  unfold flatten3 in Hv. apply in_concat in Hv. destruct Hv as [row [Hrow Hv]].
  apply in_concat in Hrow. destruct Hrow as [plane [Hplane Hrow]].
  destruct (In_enumerate _ _ Hplane) as [x Hx].
  destruct (In_enumerate _ _ Hrow) as [y Hy].
  destruct (In_enumerate _ _ Hv) as [z Hz].
  unfold where3 in H.
  pose proof (flat_map_nil_inv _ _ H _ Hx) as H1. cbv beta iota in H1.
  pose proof (flat_map_nil_inv _ _ H1 _ Hy) as H2. cbv beta iota in H2.
  pose proof (flat_map_nil_inv _ _ H2 _ Hz) as H3. cbv beta iota in H3.
  destruct (c v); [discriminate | reflexivity].
Qed.

Lemma non_bg_range_raise_all_background (full : volume4) (e : exn) :
  non_bg_range full = Raise e -> all_background full.
Proof.
  unfold non_bg_range, all_background. intros H m Hm.
  rewrite Hm in H. cbn [bind] in H.
  destruct (where3 (fun v => Np.Qlt_bool m v) (sum_axis3 full))
    as [|c idx] eqn:Hw; [|discriminate].
  apply where3_nil_inv in Hw.
  apply Forall_forall. intros s Hs.
  rewrite Forall_forall in Hw. specialize (Hw s Hs). cbv beta in Hw.
  apply Qlt_bool_false in Hw.
  apply Qle_antisym; [assumption | eapply min_le; eassumption].
Qed.

Lemma getitem_short {A : Type} (a : list A) (i : nat) :
  (length a <= i)%nat -> Np.getitem a (Z.of_nat i) = Raise IndexError.
Proof.
  intros H. unfold Np.getitem.
  destruct (Z.ltb_spec (Z.of_nat i) 0); [lia|].
  destruct (Z.ltb_spec (Z.of_nat i) 0); [lia|].
  rewrite Nat2Z.id.
  apply nth_error_None in H. now rewrite H.
Qed.

Lemma bounding_box_short_shape (EDGE_SPACE : Z) (BRAIN_SHAPE : list Z)
    (full : volume4) (lo hi : list Z) :
  non_bg_range full = Ok (lo, hi) ->
  (length BRAIN_SHAPE < 3)%nat ->
  bounding_box EDGE_SPACE BRAIN_SHAPE full = Raise IndexError.
Proof.
  intros H Hlen.
  destruct (non_bg_range_three full lo hi H)
    as [l0 [l1 [l2 [h0 [h1 [h2 [-> ->]]]]]]].
  unfold bounding_box. rewrite H. cbn [bind length seq combine mapM].
  unfold add_edge_space.
  destruct BRAIN_SHAPE as [|B0 [|B1 [|B2 rest]]]; [| | |simpl in Hlen; lia].
  - rewrite (getitem_short [] 0) by (simpl; lia). reflexivity.
  - change (Np.getitem [B0] (Z.of_nat 0)) with (Ok (A := Z) B0). cbn [bind].
    rewrite (getitem_short [B0] 1) by (simpl; lia). reflexivity.
  - change (Np.getitem [B0; B1] (Z.of_nat 0)) with (Ok (A := Z) B0).
    change (Np.getitem [B0; B1] (Z.of_nat 1)) with (Ok (A := Z) B1). cbn [bind].
    rewrite (getitem_short [B0; B1] 2) by (simpl; lia). reflexivity.
Qed.

Lemma bounding_box_long_shape (EDGE_SPACE : Z) (BRAIN_SHAPE : list Z)
    (full : volume4) (lo hi : list Z) :
  non_bg_range full = Ok (lo, hi) ->
  (3 <= length BRAIN_SHAPE)%nat ->
  exists b e, bounding_box EDGE_SPACE BRAIN_SHAPE full = Ok (b, e).
Proof.
  intros H Hlen.
  destruct (non_bg_range_three full lo hi H)
    as [l0 [l1 [l2 [h0 [h1 [h2 [-> ->]]]]]]].
  unfold bounding_box. rewrite H. cbn [bind length seq combine mapM].
  unfold add_edge_space.
  destruct BRAIN_SHAPE as [|B0 [|B1 [|B2 rest]]]; try (simpl in Hlen; lia).
  change (Np.getitem (B0 :: B1 :: B2 :: rest) (Z.of_nat 0)) with (Ok (A := Z) B0).
  change (Np.getitem (B0 :: B1 :: B2 :: rest) (Z.of_nat 1)) with (Ok (A := Z) B1).
  change (Np.getitem (B0 :: B1 :: B2 :: rest) (Z.of_nat 2)) with (Ok (A := Z) B2).
  cbn [bind]. eauto.
Qed.

(** X14.  The crop fails in exactly two ways.  It raises [ValueError] if and
    only if no voxel has a channel sum above the minimum; it raises
    [IndexError] if and only if there is such a voxel and [BRAIN_SHAPE] has
    fewer than three entries; in every other case it returns. *)
Theorem keep_minimum_volume_outcome (M : Type) (EDGE_SPACE : Z)
    (BRAIN_SHAPE : list Z) (full : volume4) (mask : array3 M) :
  (keep_minimum_volume EDGE_SPACE BRAIN_SHAPE full mask = Raise ValueError
   <-> all_background full) /\
  (keep_minimum_volume EDGE_SPACE BRAIN_SHAPE full mask = Raise IndexError
   <-> ~ all_background full /\ (length BRAIN_SHAPE < 3)%nat) /\
  ((exists r, keep_minimum_volume EDGE_SPACE BRAIN_SHAPE full mask = Ok r)
   <-> ~ all_background full /\ (3 <= length BRAIN_SHAPE)%nat).
Proof.
  unfold keep_minimum_volume.
  destruct (non_bg_range full) as [[lo hi]|e] eqn:Hr.
  - assert (Hfg : ~ all_background full).
    { intros Hbg. rewrite (non_bg_range_all_background full Hbg) in Hr.
      discriminate. }
    destruct (Nat.lt_ge_cases (length BRAIN_SHAPE) 3) as [Hshort|Hlong].
    + rewrite (bounding_box_short_shape EDGE_SPACE BRAIN_SHAPE full lo hi Hr Hshort).
      cbn [bind]. split; [|split].
      * split; [discriminate | intros Hbg; contradiction].
      * split; [intros _; split; assumption | reflexivity].
      * split; [intros [r Hx]; discriminate | intros [_ Hx]; lia].
    + destruct (bounding_box_long_shape EDGE_SPACE BRAIN_SHAPE full lo hi Hr Hlong)
        as [b [e Hbox]].
      rewrite Hbox. cbn [bind]. split; [|split].
      * split; [discriminate | intros Hbg; contradiction].
      * split; [discriminate | intros [_ Hx]; lia].
      * split; [intros _; split; assumption | intros _; eauto].
  - pose proof (non_bg_range_raise_all_background full e Hr) as Hbg.
    unfold bounding_box. rewrite Hr. cbn [bind].
    rewrite (non_bg_range_raise full e Hr). split; [|split].
    + split; [intros _; assumption | reflexivity].
    + split; [discriminate | intros [Hx _]; contradiction].
    + split; [intros [r Hx]; discriminate | intros [Hx _]; contradiction].
Qed.

Lemma not_all_background_corner : ~ all_background corner_full.
Proof.
  intros H. apply non_bg_range_all_background in H. discriminate.
Qed.

Lemma keep_minimum_volume_outcome_witness :
  keep_minimum_volume 1 [2; 2]%Z corner_full (single_voxel 2 1 1 1 1%Z 0%Z)
  = Raise IndexError.
Proof.
  apply (proj2 (proj1 (proj2 (keep_minimum_volume_outcome
                                Z 1 [2; 2]%Z corner_full
                                (single_voxel 2 1 1 1 1%Z 0%Z))))).
  split; [exact not_all_background_corner | simpl; lia].
Defined.

Lemma fold_minZ_le (l : list Z) (x y : Z) :
  In y (x :: l) -> (fold_left Z.min l x <= y)%Z.
Proof.
  revert x; induction l as [|z l IH]; intros x; simpl.
  - intros [<-|[]]. lia.
  - intros [Hy|[Hy|Hy]].
    + subst y. pose proof (fold_min_le l (Z.min x z)). lia.
    + subst y. pose proof (fold_min_le l (Z.min x z)). lia.
    + apply IH. now right.
Qed.

Lemma fold_maxZ_ge (l : list Z) (x y : Z) :
  In y (x :: l) -> (y <= fold_left Z.max l x)%Z.
Proof.
  revert x; induction l as [|z l IH]; intros x; simpl.
  - intros [<-|[]]. lia.
  - intros [Hy|[Hy|Hy]].
    + subst y. pose proof (fold_max_ge l (Z.max x z)). lia.
    + subst y. pose proof (fold_max_ge l (Z.max x z)). lia.
    + apply IH. now right.
Qed.

Lemma where3_nonneg (c : Q -> bool) (a : volume3) (x y z : Z) :
  In (x, y, z) (where3 c a) -> (0 <= x /\ 0 <= y /\ 0 <= z)%Z.
Proof.
  unfold where3. intros Hin.
  apply in_flat_map in Hin. destruct Hin as [[x' plane] [Hx Hin]].
  apply in_flat_map in Hin. destruct Hin as [[y' row] [Hy Hin]].
  apply in_flat_map in Hin. destruct Hin as [[z' v] [Hz Hin]].
  destruct (c v); [|contradiction].
  destruct Hin as [Heq|[]]. injection Heq as -> -> ->.
  apply enumerate_In in Hx, Hy, Hz. lia.
Qed.

(** The ranges before the margin enclose every non-background voxel. *)
Lemma non_bg_range_encloses (full : volume4) (idx : list (Z * Z * Z)) (x y z : Z) :
  non_bg_index full = Ok idx ->
  In (x, y, z) idx ->
  exists l0 l1 l2 h0 h1 h2,
    non_bg_range full = Ok ([l0; l1; l2], [h0; h1; h2]) /\
    (l0 <= x < h0 /\ l1 <= y < h1 /\ l2 <= z < h2)%Z /\
    (0 <= x /\ 0 <= y /\ 0 <= z)%Z.
Proof.
  unfold non_bg_index, non_bg_range.
  destruct (Np.min (flatten3 (sum_axis3 full))) as [m|e]; cbn [bind];
    [|discriminate].
  intros H; injection H as <-. intros Hin.
  pose proof (where3_nonneg _ _ _ _ _ Hin) as Hnn.
  destruct (where3 _ (sum_axis3 full)) as [|[[x' y'] z'] idx]; [contradiction|].
  simpl. do 6 eexists. split; [reflexivity|]. split; [|exact Hnn].
  set (c0 := (x', y', z')) in *.
  assert (Hmap : forall f : Z * Z * Z -> Z,
             In (f (x, y, z)) (f c0 :: map f idx)).
  { intros f. change (f c0 :: map f idx) with (map f (c0 :: idx)).
    now apply in_map. }
  pose proof (fold_minZ_le _ _ _ (Hmap (fun c => fst (fst c)))) as A1.
  pose proof (fold_maxZ_ge _ _ _ (Hmap (fun c => fst (fst c)))) as A2.
  pose proof (fold_minZ_le _ _ _ (Hmap (fun c => snd (fst c)))) as A3.
  pose proof (fold_maxZ_ge _ _ _ (Hmap (fun c => snd (fst c)))) as A4.
  pose proof (fold_minZ_le _ _ _ (Hmap (@snd (Z * Z) Z))) as A5.
  pose proof (fold_maxZ_ge _ _ _ (Hmap (@snd (Z * Z) Z))) as A6.
  simpl in A1, A2, A3, A4, A5, A6. simpl. lia.
Qed.

(** ** Slices and the cropped arrays *)

Lemma nth_slice {A : Type} (b e : Z) (l : list A) (i : nat) (d : A) :
  (0 <= b <= e)%Z -> (e <= Z.of_nat (length l))%Z ->
  (i < Z.to_nat (e - b))%nat ->
  nth i (slice b e l) d = nth (Z.to_nat b + i) l d.
Proof.
  intros Hbe He Hi. unfold slice.
  destruct (Z.ltb_spec b 0); [lia|].
  destruct (Z.ltb_spec e 0); [lia|].
  rewrite nth_firstn.
  replace (Z.min e (Z.of_nat (length l)) - Z.min b (Z.of_nat (length l)))%Z
    with (e - b)%Z by lia.
  replace (Z.min b (Z.of_nat (length l))) with b by lia.
  destruct (Nat.ltb_spec i (Z.to_nat (e - b))); [|lia].
  apply nth_skipn.
Qed.

Lemma sub_array_voxel {A : Type} (n0 n1 n2 : nat) (arr : array3 A)
    (b0 b1 b2 e0 e1 e2 : Z) (i j k : nat) (d : A) :
  has_shape n0 n1 n2 arr ->
  (0 <= b0 <= e0 /\ e0 <= Z.of_nat n0)%Z ->
  (0 <= b1 <= e1 /\ e1 <= Z.of_nat n1)%Z ->
  (0 <= b2 <= e2 /\ e2 <= Z.of_nat n2)%Z ->
  (i < Z.to_nat (e0 - b0))%nat ->
  (j < Z.to_nat (e1 - b1))%nat ->
  (k < Z.to_nat (e2 - b2))%nat ->
  voxel (sub_array arr [b0; b1; b2] [e0; e1; e2]) i j k d =
  voxel arr (Z.to_nat b0 + i) (Z.to_nat b1 + j) (Z.to_nat b2 + k) d.
Proof.
  intros [Hn0 Hplanes] [H0 H0'] [H1 H1'] [H2 H2'] Hi Hj Hk.
  unfold voxel, sub_array. cbn [nth].
  set (f := fun plane : list (list A) => map (slice b2 e2) (slice b1 e1 plane)).
  assert (Hlen0 : length (slice b0 e0 arr) = Z.to_nat (e0 - b0))
    by (apply slice_length; [assumption | lia]).
  rewrite (nth_indep _ [] (f [])) by (now rewrite length_map, Hlen0).
  rewrite (map_nth f).
  rewrite (nth_slice b0 e0 arr i []) by (assumption || lia).
  set (plane := nth (Z.to_nat b0 + i) arr []).
  assert (Hplane : In plane arr) by (apply nth_In; lia).
  rewrite Forall_forall in Hplanes.
  destruct (Hplanes plane Hplane) as [Hn1 Hrows].
  unfold f.
  assert (Hlen1 : length (slice b1 e1 plane) = Z.to_nat (e1 - b1))
    by (apply slice_length; [assumption | lia]).
  rewrite (nth_indep _ [] (slice b2 e2 [])) by (now rewrite length_map, Hlen1).
  rewrite (map_nth (slice b2 e2)).
  rewrite (nth_slice b1 e1 plane j []) by (assumption || lia).
  set (row := nth (Z.to_nat b1 + j) plane []).
  assert (Hrow : In row plane) by (apply nth_In; lia).
  rewrite Forall_forall in Hrows. pose proof (Hrows row Hrow) as Hn2.
  apply nth_slice; (assumption || lia).
Qed.

(** X16.  For an ensemble and a mask of spatial shape [BRAIN_SHAPE] and a
    margin [EDGE_SPACE >= 0], the cropped volume and the cropped mask are
    cut at the same offsets: entry [(i, j, k)] of the cropped mask is entry
    [(begin0 + i, begin1 + j, begin2 + k)] of the mask, and entry
    [(i, j, k)] of the cropped volume is that entry of the ensemble with
    each channel rounded to [float32]. *)
Theorem crop_keeps_mask_aligned (M : Type) (EDGE_SPACE : Z) (n0 n1 n2 : nat)
    (full : volume4) (mask : array3 M) (b e : list Z)
    (new_full : volume4_float32) (new_mask : array3 M) :
  has_shape n0 n1 n2 full ->
  has_shape n0 n1 n2 mask ->
  (0 <= EDGE_SPACE)%Z ->
  bounding_box EDGE_SPACE [Z.of_nat n0; Z.of_nat n1; Z.of_nat n2] full = Ok (b, e) ->
  keep_minimum_volume EDGE_SPACE [Z.of_nat n0; Z.of_nat n1; Z.of_nat n2] full mask
    = Ok (new_full, new_mask) ->
  forall i j k (dm : M),
    (i < Z.to_nat (nth 0 e 0%Z - nth 0 b 0%Z))%nat ->
    (j < Z.to_nat (nth 1 e 0%Z - nth 1 b 0%Z))%nat ->
    (k < Z.to_nat (nth 2 e 0%Z - nth 2 b 0%Z))%nat ->
    voxel new_full i j k [] =
      map astype_float32
          (voxel full (Z.to_nat (nth 0 b 0%Z) + i) (Z.to_nat (nth 1 b 0%Z) + j)
                 (Z.to_nat (nth 2 b 0%Z) + k) []) /\
    voxel new_mask i j k dm =
      voxel mask (Z.to_nat (nth 0 b 0%Z) + i) (Z.to_nat (nth 1 b 0%Z) + j)
            (Z.to_nat (nth 2 b 0%Z) + k) dm.
Proof.
  intros Hshape Hmask HE Hbox Hkeep i j k dm.
  unfold keep_minimum_volume in Hkeep. rewrite Hbox in Hkeep. cbn [bind] in Hkeep.
  injection Hkeep as <- <-.
  unfold bounding_box in Hbox.
  destruct (non_bg_range full) as [[lo hi]|err] eqn:Hr; [|discriminate].
  destruct (non_bg_range_ok n0 n1 n2 full lo hi Hshape Hr)
    as [l0 [l1 [l2 [h0 [h1 [h2 [-> [-> [Hx [Hy Hz]]]]]]]]]].
  pose proof (bounding_box_eval EDGE_SPACE (Z.of_nat n0) (Z.of_nat n1)
                                (Z.of_nat n2) full _ _ _ _ _ _ Hr) as Heval.
  unfold bounding_box in Heval. rewrite Hr in Heval. rewrite Heval in Hbox.
  injection Hbox as <- <-. cbn [nth]. intros Hi Hj Hk.
  split.
  - unfold astype_float32_4, voxel.
    rewrite (nth_map3 (map astype_float32) _ i j k []).
    f_equal. apply (sub_array_voxel n0 n1 n2); try assumption; lia.
  - apply (sub_array_voxel n0 n1 n2); try assumption; lia.
Qed.

Lemma crop_keeps_mask_aligned_witness :
  voxel (astype_float32_4 (sub_array scenario_full [1; 1; 1]%Z [3; 3; 3]%Z)) 1 1 1 []
    = map astype_float32 (voxel scenario_full 2 2 2 []) /\
  voxel (sub_array scenario_mask [1; 1; 1]%Z [3; 3; 3]%Z) 1 1 1 0%Z
    = voxel scenario_mask 2 2 2 0%Z.
Proof.
  apply (crop_keeps_mask_aligned Z 1 4 4 4 scenario_full scenario_mask
           [1; 1; 1]%Z [3; 3; 3]%Z
           (astype_float32_4 (sub_array scenario_full [1; 1; 1]%Z [3; 3; 3]%Z))
           (sub_array scenario_mask [1; 1; 1]%Z [3; 3; 3]%Z)).
  - split; [reflexivity | repeat constructor].
  - split; [reflexivity | repeat constructor].
  - lia.
  - vm_compute. reflexivity.
  - vm_compute. reflexivity.
  - simpl. lia.
  - simpl. lia.
  - simpl. lia.
Defined.

(** ** The reorientation and the channel axis (lines 519-537) *)

Lemma has_shape_plane {A : Type} (n0 n1 n2 : nat) (a : array3 A) (x : nat) :
  has_shape n0 n1 n2 a -> (x < n0)%nat ->
  length (nth x a []) = n1 /\ Forall (fun row => length row = n2) (nth x a []).
Proof.
  intros [Hn0 Hplanes] Hx. rewrite Forall_forall in Hplanes.
  apply Hplanes, nth_In. lia.
Qed.

Lemma has_shape_row {A : Type} (n0 n1 n2 : nat) (a : array3 A) (x y : nat) :
  has_shape n0 n1 n2 a -> (x < n0)%nat -> (y < n1)%nat ->
  length (nth y (nth x a []) []) = n2.
Proof.
  intros Hs Hx Hy. destruct (has_shape_plane n0 n1 n2 a x Hs Hx) as [Hn1 Hrows].
  rewrite Forall_forall in Hrows. apply Hrows, nth_In. lia.
Qed.

Lemma transpose_nth {A : Type} (a0 a1 a2 : nat) (m : array3 A) (i : nat) :
  has_shape a0 a1 a2 m -> (0 < a0)%nat -> (i < a1)%nat ->
  length (transpose m) = a1 /\
  nth i (transpose m) [] = map (fun plane => nth i plane []) m.
Proof.
  intros Hs Ha0 Hi. unfold transpose.
  assert (Hhd : length (hd [] m) = a1).
  { destruct Hs as [Hn0 Hplanes]. destruct m as [|p m]; [simpl in Hn0; lia|].
    inversion Hplanes as [|? ? Hp0 _]; subst. exact (proj1 Hp0). }
  rewrite Hhd. split; [now rewrite length_map, length_seq|].
  set (g := fun j : nat => map (fun plane : list (list A) => nth j plane []) m).
  rewrite (nth_indep _ [] (g 0%nat)) by (now rewrite length_map, length_seq).
  rewrite (map_nth g). now rewrite seq_nth.
Qed.

(** The rotation by 270 degrees swaps the first two extents and takes the
    entry [(i, j, k)] from [(a0 - 1 - j, i, k)]. *)
Lemma rot90_3_voxel {A : Type} (a0 a1 a2 : nat) (m : array3 A) :
  has_shape a0 a1 a2 m -> (0 < a0)%nat ->
  has_shape a1 a0 a2 (rot90_3 m) /\
  forall i j k (d : A), (i < a1)%nat -> (j < a0)%nat ->
    voxel (rot90_3 m) i j k d = voxel m (a0 - 1 - j) i k d.
Proof.
  intros Hs Ha0.
  assert (Hplane : forall i, (i < a1)%nat ->
            nth i (rot90_3 m) [] = rev (map (fun plane => nth i plane []) m)).
  { intros i Hi. unfold rot90_3.
    destruct (transpose_nth a0 a1 a2 m i Hs Ha0 Hi) as [Hlen Hnth].
    rewrite (nth_indep _ [] (rev [])) by (now rewrite length_map, Hlen).
    rewrite (map_nth (@rev (list A))). now rewrite Hnth. }
  assert (Hlen : length (rot90_3 m) = a1).
  { unfold rot90_3. rewrite length_map.
    destruct a1 as [|a1].
    - unfold transpose.
      assert (Hhd : length (hd [] m) = 0%nat).
      { destruct Hs as [Hn0 Hplanes]. destruct m as [|p m]; [reflexivity|].
        inversion Hplanes as [|? ? Hp0 _]; subst. exact (proj1 Hp0). }
      now rewrite Hhd.
    - apply (transpose_nth a0 (S a1) a2 m 0 Hs Ha0). lia. }
  destruct Hs as [Hn0 Hplanes]. split.
  - split; [assumption|].
    apply Forall_forall. intros plane Hin.
    destruct (In_nth _ _ [] Hin) as [i [Hi <-]]. rewrite Hlen in Hi.
    rewrite (Hplane i Hi). split.
    + now rewrite length_rev, length_map.
    + apply Forall_rev, Forall_map.
      eapply Forall_impl; [|exact Hplanes].
      intros p [Hp Hrows]. rewrite Forall_forall in Hrows.
      apply Hrows, nth_In. lia.
  - intros i j k d Hi Hj. unfold voxel. rewrite (Hplane i Hi).
    rewrite rev_nth by (rewrite length_map; lia).
    rewrite length_map, Hn0.
    set (h := fun plane : list (list A) => nth i plane []).
    assert (Hh : h [] = []) by (unfold h; destruct i; reflexivity).
    rewrite <- Hh at 1. rewrite (map_nth h). unfold h.
    replace (a0 - S j)%nat with (a0 - 1 - j)%nat by lia. reflexivity.
Qed.

Lemma mapM_id {A : Type} (f : A -> result A) (l : list A) :
  Forall (fun x => f x = Ok x) l -> mapM f l = Ok l.
Proof.
  intros H. rewrite <- (map_id l) at 2. now apply mapM_map.
Qed.

Lemma broadcast_exact {A : Type} (n : nat) (l : list A) :
  length l = n -> broadcast n l = Ok l.
Proof.
  intros H. unfold broadcast. apply Nat.eqb_eq in H. now rewrite H.
Qed.

Lemma broadcast3_exact (n0 n1 n2 : nat) (v : volume3) :
  has_shape n0 n1 n2 v -> broadcast3 n0 n1 n2 v = Ok v.
Proof.
  intros [Hn0 Hplanes]. unfold broadcast3.
  rewrite (broadcast_exact n0 v Hn0). cbn [bind].
  apply mapM_id. eapply Forall_impl; [|exact Hplanes].
  intros plane [Hn1 Hrows]. rewrite (broadcast_exact n1 plane Hn1). cbn [bind].
  apply mapM_id. eapply Forall_impl; [|exact Hrows].
  intros row Hn2. now apply broadcast_exact.
Qed.

Lemma zip_with_length {A B C : Type} (f : A -> B -> C) (a : list A) (b : list B) :
  length a = length b -> length (zip_with f a b) = length a.
Proof.
  revert b; induction a as [|x a IH]; intros [|y b]; simpl; try discriminate; auto.
Qed.

Lemma zip_with_nth {A B C : Type} (f : A -> B -> C) (a : list A) (b : list B)
    (k : nat) (da : A) (db : B) (dc : C) :
  length a = length b -> (k < length a)%nat ->
  nth k (zip_with f a b) dc = f (nth k a da) (nth k b db).
Proof.
  revert b k; induction a as [|x a IH]; intros [|y b] k; simpl; try discriminate;
    try lia.
  intros Hlen Hk. destruct k as [|k]; [reflexivity|]. apply IH; lia.
Qed.

Lemma set_nth_length (i : nat) (x : Q) (l : list Q) :
  length (set_nth i x l) = length l.
Proof.
  revert i; induction l as [|y l IH]; intros [|i]; simpl; auto.
Qed.

Lemma set_nth_nth (i c : nat) (x : Q) (l : list Q) :
  (i < length l)%nat ->
  nth c (set_nth i x l) 0 = if (c =? i)%nat then x else nth c l 0.
Proof.
  revert i c; induction l as [|y l IH]; intros i c Hi; simpl in Hi; [lia|].
  destruct i as [|i], c as [|c]; simpl; try reflexivity.
  apply IH. lia.
Qed.

Lemma has_shape4_channels (n0 n1 n2 nc : nat) (full : volume4) (x y z : nat) :
  has_shape4 n0 n1 n2 nc full ->
  (x < n0)%nat -> (y < n1)%nat -> (z < n2)%nat ->
  length (voxel full x y z []) = nc.
Proof.
  intros [Hs Hc] Hx Hy Hz. unfold voxel.
  pose proof (has_shape_plane n0 n1 n2 full x Hs Hx) as [Hn1 _].
  pose proof (has_shape_row n0 n1 n2 full x y Hs Hx Hy) as Hn2.
  destruct Hs as [Hn0 _].
  rewrite Forall_forall in Hc.
  assert (H1 : In (nth x full []) full) by (apply nth_In; lia).
  pose proof (Hc _ H1) as Hc1. rewrite Forall_forall in Hc1.
  assert (H2 : In (nth y (nth x full []) []) (nth x full [])) by (apply nth_In; lia).
  pose proof (Hc1 _ H2) as Hc2. rewrite Forall_forall in Hc2.
  apply Hc2, nth_In. lia.
Qed.

Lemma zeros_shape4 (n0 n1 n2 nc : nat) :
  has_shape4 n0 n1 n2 nc (zeros (n0, n1, n2, nc)).
Proof.
  unfold zeros. split; [split|].
  - apply repeat_length.
  - apply Forall_forall. intros plane Hp. apply repeat_spec in Hp. subst.
    split; [apply repeat_length|].
    apply Forall_forall. intros row Hr. apply repeat_spec in Hr. subst.
    apply repeat_length.
  - apply Forall_forall. intros plane Hp. apply repeat_spec in Hp. subst.
    apply Forall_forall. intros row Hr. apply repeat_spec in Hr. subst.
    apply Forall_forall. intros cs Hc. apply repeat_spec in Hc. subst.
    apply repeat_length.
Qed.

Lemma zeros_voxel (n0 n1 n2 nc x y z c : nat) :
  (x < n0)%nat -> (y < n1)%nat -> (z < n2)%nat ->
  nth c (voxel (zeros (n0, n1, n2, nc)) x y z []) 0 = 0.
Proof.
  intros Hx Hy Hz. unfold voxel, zeros.
  rewrite !nth_repeat_lt by assumption.
  apply nth_repeat.
Qed.

Lemma Forall3_voxel {A : Type} (P : A -> Prop) (n0 n1 n2 : nat) (a : array3 A)
    (d : A) :
  has_shape n0 n1 n2 a ->
  (forall x y z, (x < n0)%nat -> (y < n1)%nat -> (z < n2)%nat ->
                 P (voxel a x y z d)) ->
  Forall (Forall (Forall P)) a.
Proof.
  intros Hs H. pose proof Hs as [Hn0 _].
  apply Forall_forall. intros plane Hp.
  destruct (In_nth _ _ [] Hp) as [x [Hx <-]]. rewrite Hn0 in Hx.
  destruct (has_shape_plane n0 n1 n2 a x Hs Hx) as [Hn1 _].
  apply Forall_forall. intros row Hr.
  destruct (In_nth _ _ [] Hr) as [y [Hy <-]]. rewrite Hn1 in Hy.
  pose proof (has_shape_row n0 n1 n2 a x y Hs Hx Hy) as Hn2.
  apply Forall_forall. intros v Hv.
  destruct (In_nth _ _ d Hv) as [z [Hz <-]]. rewrite Hn2 in Hz.
  now apply H.
Qed.

Lemma zip3_spec {A B C : Type} (f : A -> B -> C) (n0 n1 n2 : nat)
    (a : array3 A) (b : array3 B) :
  has_shape n0 n1 n2 a -> has_shape n0 n1 n2 b ->
  has_shape n0 n1 n2 (zip_with (zip_with (zip_with f)) a b) /\
  forall x y z da db dc, (x < n0)%nat -> (y < n1)%nat -> (z < n2)%nat ->
    voxel (zip_with (zip_with (zip_with f)) a b) x y z dc
    = f (voxel a x y z da) (voxel b x y z db).
Proof.
  intros Ha Hb. pose proof Ha as [Ha0 _]. pose proof Hb as [Hb0 _].
  set (r := zip_with (zip_with (zip_with f)) a b).
  assert (Hr0 : length r = n0).
  { unfold r. rewrite zip_with_length; congruence. }
  assert (Hplane : forall x, (x < n0)%nat ->
            nth x r [] = zip_with (zip_with f) (nth x a []) (nth x b [])).
  { intros x Hx. unfold r. apply zip_with_nth; [congruence | lia]. }
  assert (Hrow : forall x y, (x < n0)%nat -> (y < n1)%nat ->
            nth y (nth x r []) [] =
            zip_with f (nth y (nth x a []) []) (nth y (nth x b []) [])).
  { intros x y Hx Hy. rewrite (Hplane x Hx).
    destruct (has_shape_plane n0 n1 n2 a x Ha Hx) as [Ha1 _].
    destruct (has_shape_plane n0 n1 n2 b x Hb Hx) as [Hb1 _].
    apply zip_with_nth; [congruence | lia]. }
  split.
  - split; [assumption|].
    apply Forall_forall. intros plane Hp.
    destruct (In_nth _ _ [] Hp) as [x [Hx <-]]. rewrite Hr0 in Hx.
    destruct (has_shape_plane n0 n1 n2 a x Ha Hx) as [Ha1 _].
    destruct (has_shape_plane n0 n1 n2 b x Hb Hx) as [Hb1 _].
    assert (Hlen1 : length (nth x r []) = n1).
    { rewrite (Hplane x Hx), zip_with_length; congruence. }
    split; [assumption|].
    apply Forall_forall. intros row Hrw.
    destruct (In_nth _ _ [] Hrw) as [y [Hy <-]]. rewrite Hlen1 in Hy.
    rewrite (Hrow x y Hx Hy).
    pose proof (has_shape_row n0 n1 n2 a x y Ha Hx Hy).
    pose proof (has_shape_row n0 n1 n2 b x y Hb Hx Hy).
    rewrite zip_with_length; congruence.
  - intros x y z da db dc Hx Hy Hz. unfold voxel. rewrite (Hrow x y Hx Hy).
    pose proof (has_shape_row n0 n1 n2 a x y Ha Hx Hy).
    pose proof (has_shape_row n0 n1 n2 b x y Hb Hx Hy).
    apply zip_with_nth; [congruence | lia].
Qed.

Lemma set_channel_spec (n0 n1 n2 nc i : nat) (full : volume4) (volume : volume3) :
  has_shape4 n0 n1 n2 nc full ->
  has_shape n0 n1 n2 volume ->
  (i < nc)%nat ->
  exists full',
    set_channel (n0, n1, n2, nc) i full volume = Ok full' /\
    has_shape4 n0 n1 n2 nc full' /\
    forall x y z c, (x < n0)%nat -> (y < n1)%nat -> (z < n2)%nat ->
      nth c (voxel full' x y z []) 0 =
      if (c =? i)%nat then voxel volume x y z 0
      else nth c (voxel full x y z []) 0.
Proof.
  intros Hfull Hvol Hi. pose proof Hfull as [Hs Hc].
  unfold set_channel.
  apply Nat.ltb_lt in Hi. rewrite Hi. cbn [negb]. apply Nat.ltb_lt in Hi.
  rewrite (broadcast3_exact n0 n1 n2 volume Hvol). cbn [bind].
  destruct (zip3_spec (fun cs v => set_nth i v cs) n0 n1 n2 full volume Hs Hvol)
    as [Hs' Hvox].
  eexists. split; [reflexivity|]. split; [split; [assumption|]|].
  - apply (Forall3_voxel _ n0 n1 n2 _ [] Hs').
    intros x y z Hx Hy Hz. rewrite (Hvox x y z [] 0 [] Hx Hy Hz).
    rewrite set_nth_length.
    now apply (has_shape4_channels n0 n1 n2 nc).
  - intros x y z c Hx Hy Hz. rewrite (Hvox x y z [] 0 [] Hx Hy Hz).
    apply set_nth_nth.
    now rewrite (has_shape4_channels n0 n1 n2 nc full x y z Hfull Hx Hy Hz).
Qed.

(** The loop over the channels, started at channel [i0] on an ensemble
    [full]: channels [i0 .. i0 + length volumes - 1] receive the rotated
    volumes, the others are left as they were. *)
Lemma fill_channels_spec (n0 n1 n2 nc : nat) (volumes : list volume3) :
  (0 < n1)%nat ->
  Forall (has_shape n1 n0 n2) volumes ->
  forall (i0 : nat) (full : volume4),
    has_shape4 n0 n1 n2 nc full ->
    (i0 + length volumes <= nc)%nat ->
    exists full',
      fill_channels (n0, n1, n2, nc) i0 full volumes = Ok full' /\
      has_shape4 n0 n1 n2 nc full' /\
      forall x y z c, (x < n0)%nat -> (y < n1)%nat -> (z < n2)%nat ->
        nth c (voxel full' x y z []) 0 =
        if ((i0 <=? c) && (c <? i0 + length volumes))%nat
        then voxel (nth (c - i0) volumes []) (n1 - 1 - y) x z 0
        else nth c (voxel full x y z []) 0.
Proof.
  intros Hn1 Hall. induction Hall as [|volume rest Hvol _ IH];
    intros i0 full Hfull Hlen.
  - exists full. split; [reflexivity|]. split; [assumption|].
    intros x y z c _ _ _. simpl length.
    destruct (Nat.leb_spec i0 c), (Nat.ltb_spec c (i0 + 0)); try reflexivity; lia.
  - simpl length in Hlen. unfold volume3 in *. cbn [fill_channels].
    destruct (rot90_3_voxel n1 n0 n2 volume Hvol Hn1) as [Hrot Hrv].
    assert (Hi0 : (i0 < nc)%nat) by lia.
    destruct (set_channel_spec n0 n1 n2 nc i0 full (rot90_3 volume) Hfull Hrot Hi0)
      as [full1 [Hset [Hfull1 Hvox1]]].
    rewrite Hset. cbn [bind].
    assert (Hrest : (S i0 + length rest <= nc)%nat) by lia.
    destruct (IH (S i0) full1 Hfull1 Hrest) as [full' [Hfill [Hfull' Hvox']]].
    exists full'. split; [assumption|]. split; [assumption|].
    intros x y z c Hx Hy Hz.
    rewrite (Hvox' x y z c Hx Hy Hz), (Hvox1 x y z c Hx Hy Hz). simpl length.
    destruct (Nat.leb_spec (S i0) c), (Nat.ltb_spec c (S i0 + length rest)),
      (Nat.leb_spec i0 c), (Nat.ltb_spec c (i0 + S (length rest))),
      (Nat.eqb_spec c i0); cbn [andb]; try lia; try reflexivity.
    + replace (c - i0)%nat with (S (c - S i0)) by lia. reflexivity.
    + subst c. rewrite Nat.sub_diag. cbn [nth].
      apply Hrv; assumption.
Qed.

(** X17.  When there are at most [FULL_SHAPE[3]] channel volumes, all of the
    shape that the rotation turns into [FULL_SHAPE[:3]], the ensemble is
    assembled without error; its channel [c] at [(x, y, z)] is the voxel
    [(n1 - 1 - y, x, z)] of the [c]-th volume, in the order the volumes are
    given, and the channels beyond the last volume are 0. *)
Theorem fill_channels_order (n0 n1 n2 nc : nat) (volumes : list volume3) :
  (0 < n1)%nat ->
  Forall (has_shape n1 n0 n2) volumes ->
  (length volumes <= nc)%nat ->
  exists full,
    fill_channels (n0, n1, n2, nc) 0 (zeros (n0, n1, n2, nc)) volumes = Ok full /\
    has_shape4 n0 n1 n2 nc full /\
    forall x y z c, (x < n0)%nat -> (y < n1)%nat -> (z < n2)%nat ->
      nth c (voxel full x y z []) 0 =
      if (c <? length volumes)%nat
      then voxel (nth c volumes []) (n1 - 1 - y) x z 0
      else 0.
Proof.
  intros Hn1 Hall Hlen.
  destruct (fill_channels_spec n0 n1 n2 nc volumes Hn1 Hall 0
              (zeros (n0, n1, n2, nc)) (zeros_shape4 n0 n1 n2 nc) Hlen)
    as [full [Hfill [Hshape Hvox]]].
  exists full. split; [assumption|]. split; [assumption|].
  intros x y z c Hx Hy Hz. rewrite (Hvox x y z c Hx Hy Hz).
  cbn [Nat.leb andb Nat.add]. rewrite Nat.sub_0_r.
  destruct (c <? length volumes)%nat; [reflexivity|].
  now apply zeros_voxel.
Qed.

Lemma fill_channels_order_witness :
  exists full,
    fill_channels (4, 4, 4, 4)%nat 0 (zeros (4, 4, 4, 4)%nat) scenario_channels
      = Ok full /\
    nth 2 (voxel full 2 1 2 []) 0 = voxel (nth 2 scenario_channels []) 2 2 2 0.
Proof.
  destruct (fill_channels_order 4 4 4 4 scenario_channels ltac:(lia)
              ltac:(repeat constructor) ltac:(simpl; lia))
    as [full [Hfill [_ Hvox]]].
  exists full. split; [exact Hfill|].
  exact (Hvox 2%nat 1%nat 2%nat 2%nat ltac:(lia) ltac:(lia) ltac:(lia)).
Defined.

Lemma fill_channels_app (FULL_SHAPE : nat * nat * nat * nat) (l1 l2 : list volume3) :
  forall (i0 : nat) (full : volume4),
    fill_channels FULL_SHAPE i0 full (l1 ++ l2) =
    (full1 <- fill_channels FULL_SHAPE i0 full l1 ;;
     fill_channels FULL_SHAPE (i0 + length l1) full1 l2).
Proof.
  induction l1 as [|v l1 IH]; intros i0 full; simpl.
  - now rewrite Nat.add_0_r.
  - destruct (set_channel FULL_SHAPE i0 full (rot90_3 v)) as [full1|e];
      cbn [bind]; [|reflexivity].
    rewrite IH. now replace (i0 + S (length l1))%nat with (S i0 + length l1)%nat by lia.
Qed.

Lemma broadcast_mismatch {A : Type} (n : nat) (l : list A) :
  length l <> n -> length l <> 1%nat -> broadcast n l = Raise ValueError.
Proof.
  intros Hn H1. unfold broadcast.
  apply Nat.eqb_neq in Hn. rewrite Hn.
  destruct l as [|x [|y l]]; [reflexivity | simpl in H1; congruence | reflexivity].
Qed.

(** X18.  After channel volumes of the right shape, at most [FULL_SHAPE[3]]
    of them, the assembly raises [IndexError] for a volume that has no
    channel left, and [ValueError] for a volume whose rotated first extent
    is neither [FULL_SHAPE[0]] nor 1. *)
Theorem fill_channels_errors (n0 n1 n2 nc : nat) (good : list volume3)
    (volume : volume3) (rest : list volume3) :
  (0 < n1)%nat ->
  Forall (has_shape n1 n0 n2) good ->
  (length good <= nc)%nat ->
  (length good = nc ->
   fill_channels (n0, n1, n2, nc) 0 (zeros (n0, n1, n2, nc))
                 (good ++ volume :: rest) = Raise IndexError) /\
  ((length good < nc)%nat ->
   length (rot90_3 volume) <> n0 -> length (rot90_3 volume) <> 1%nat ->
   fill_channels (n0, n1, n2, nc) 0 (zeros (n0, n1, n2, nc))
                 (good ++ volume :: rest) = Raise ValueError).
Proof.
  intros Hn1 Hgood Hlen.
  destruct (fill_channels_spec n0 n1 n2 nc good Hn1 Hgood 0
              (zeros (n0, n1, n2, nc)) (zeros_shape4 n0 n1 n2 nc) Hlen)
    as [full [Hfill _]].
  rewrite fill_channels_app, Hfill. cbn [bind fill_channels Nat.add].
  unfold set_channel. split.
  - intros ->. now rewrite Nat.ltb_irrefl.
  - intros Hlt H0 H1. apply Nat.ltb_lt in Hlt. rewrite Hlt. cbn [negb].
    unfold broadcast3. now rewrite (broadcast_mismatch n0 _ H0 H1).
Qed.

Lemma fill_channels_errors_witness :
  fill_channels (2, 2, 2, 1)%nat 0 (zeros (2, 2, 2, 1)%nat)
                ([single_voxel 2 0 0 0 5 0] ++ [single_voxel 2 1 1 1 7 0])
    = Raise IndexError /\
  fill_channels (2, 2, 2, 2)%nat 0 (zeros (2, 2, 2, 2)%nat)
                ([single_voxel 2 0 0 0 5 0] ++ [single_voxel 3 1 1 1 7 0])
    = Raise ValueError.
Proof.
  split.
  - apply (proj1 (fill_channels_errors 2 2 2 1 [single_voxel 2 0 0 0 5 0]
                    (single_voxel 2 1 1 1 7 0) [] ltac:(lia)
                    ltac:(repeat constructor) ltac:(simpl; lia))).
    reflexivity.
  - apply (proj2 (fill_channels_errors 2 2 2 2 [single_voxel 2 0 0 0 5 0]
                    (single_voxel 3 1 1 1 7 0) [] ltac:(lia)
                    ltac:(repeat constructor) ltac:(simpl; lia)));
      [simpl; lia | discriminate | discriminate].
Defined.

Lemma keep_minimum_volume_inv (M : Type) (EDGE_SPACE : Z) (n0 n1 n2 : nat)
    (full : volume4) (mask : array3 M) (new_full : volume4_float32)
    (new_mask : array3 M) :
  has_shape n0 n1 n2 full ->
  (0 <= EDGE_SPACE)%Z ->
  keep_minimum_volume EDGE_SPACE [Z.of_nat n0; Z.of_nat n1; Z.of_nat n2] full mask
    = Ok (new_full, new_mask) ->
  exists l0 l1 l2 h0 h1 h2 b0 b1 b2 e0 e1 e2 : Z,
    non_bg_range full = Ok ([l0; l1; l2], [h0; h1; h2]) /\
    (b0 = Z.max 0 (l0 - EDGE_SPACE) /\ e0 = Z.min (h0 + EDGE_SPACE) (Z.of_nat n0 - 1))%Z /\
    (b1 = Z.max 0 (l1 - EDGE_SPACE) /\ e1 = Z.min (h1 + EDGE_SPACE) (Z.of_nat n1 - 1))%Z /\
    (b2 = Z.max 0 (l2 - EDGE_SPACE) /\ e2 = Z.min (h2 + EDGE_SPACE) (Z.of_nat n2 - 1))%Z /\
    (0 <= b0 <= e0 /\ e0 <= Z.of_nat n0 - 1)%Z /\
    (0 <= b1 <= e1 /\ e1 <= Z.of_nat n1 - 1)%Z /\
    (0 <= b2 <= e2 /\ e2 <= Z.of_nat n2 - 1)%Z /\
    new_full = astype_float32_4 (sub_array full [b0; b1; b2] [e0; e1; e2]) /\
    new_mask = sub_array mask [b0; b1; b2] [e0; e1; e2].
Proof.
  intros Hshape HE Hkeep. unfold keep_minimum_volume in Hkeep.
  destruct (non_bg_range full) as [[lo hi]|err] eqn:Hr.
  - destruct (non_bg_range_ok n0 n1 n2 full lo hi Hshape Hr)
      as [l0 [l1 [l2 [h0 [h1 [h2 [-> [-> [Hx [Hy Hz]]]]]]]]]].
    rewrite (bounding_box_eval EDGE_SPACE _ _ _ full _ _ _ _ _ _ Hr) in Hkeep.
    cbn [bind] in Hkeep. injection Hkeep as <- <-.
    exists l0, l1, l2, h0, h1, h2.
    do 6 eexists. split; [reflexivity|].
    split; [split; reflexivity|]. split; [split; reflexivity|].
    split; [split; reflexivity|].
    repeat split; try reflexivity; lia.
  - unfold bounding_box in Hkeep. rewrite Hr in Hkeep. discriminate.
Qed.

(** One axis of the crop: the slice ends before the last index, and holds a
    non-background coordinate unless that is the last index. *)
Lemma axis_kept_iff (EDGE_SPACE l h x : Z) (n : nat) (b e : Z) :
  (0 <= EDGE_SPACE)%Z ->
  b = Z.max 0 (l - EDGE_SPACE) ->
  e = Z.min (h + EDGE_SPACE) (Z.of_nat n - 1) ->
  (0 <= b <= e /\ e <= Z.of_nat n - 1)%Z ->
  (l <= x < h)%Z -> (0 <= x)%Z ->
  (Z.to_nat b + Z.to_nat (e - b) <= n - 1)%nat /\
  ((Z.of_nat (Z.to_nat b) <= x < Z.of_nat (Z.to_nat b + Z.to_nat (e - b)))%Z
   <-> (x < Z.of_nat n - 1)%Z).
Proof.
  intros HE -> -> Hbe Hx Hx0. split; [lia|].
  rewrite Nat2Z.inj_add, !Z2Nat.id by lia. lia.
Qed.

Lemma astype_float32_4_voxel (a : volume4) (x y z : nat) :
  voxel (astype_float32_4 a) x y z [] = map astype_float32 (voxel a x y z []).
Proof.
  unfold astype_float32_4, voxel.
  exact (nth_map3 (map astype_float32) a x y z []).
Qed.

(** X15.  For an ensemble of spatial shape [BRAIN_SHAPE] and a margin
    [EDGE_SPACE >= 0], the cropped volume holds the entries of the ensemble
    at the positions [begin_i <= x_i < begin_i + extent_i], which end before
    the last index of every axis; a non-background voxel is among them if
    and only if none of its coordinates is the last index of its axis: the
    crop keeps all of the foreground except what sits at the last index of
    an axis, which it always cuts off. *)
Theorem foreground_kept_iff (M : Type) (EDGE_SPACE : Z) (n0 n1 n2 : nat)
    (full : volume4) (mask : array3 M) (idx : list (Z * Z * Z))
    (new_full : volume4_float32) (new_mask : array3 M) (x y z : Z) :
  has_shape n0 n1 n2 full ->
  (0 <= EDGE_SPACE)%Z ->
  non_bg_index full = Ok idx ->
  In (x, y, z) idx ->
  keep_minimum_volume EDGE_SPACE [Z.of_nat n0; Z.of_nat n1; Z.of_nat n2] full mask
    = Ok (new_full, new_mask) ->
  exists b0 b1 b2 s0 s1 s2 : nat,
    has_shape s0 s1 s2 new_full /\
    (forall i j k, (i < s0)%nat -> (j < s1)%nat -> (k < s2)%nat ->
       voxel new_full i j k [] =
       map astype_float32 (voxel full (b0 + i) (b1 + j) (b2 + k) [])) /\
    (b0 + s0 <= n0 - 1 /\ b1 + s1 <= n1 - 1 /\ b2 + s2 <= n2 - 1)%nat /\
    ((Z.of_nat b0 <= x < Z.of_nat (b0 + s0) /\
      Z.of_nat b1 <= y < Z.of_nat (b1 + s1) /\
      Z.of_nat b2 <= z < Z.of_nat (b2 + s2))%Z
     <-> (x < Z.of_nat n0 - 1 /\ y < Z.of_nat n1 - 1 /\ z < Z.of_nat n2 - 1)%Z).
Proof.
  intros Hshape HE Hidx Hin Hkeep.
  destruct (non_bg_range_encloses full idx x y z Hidx Hin)
    as [l0 [l1 [l2 [h0 [h1 [h2 [Hr [Hb Hnn]]]]]]]].
  destruct (keep_minimum_volume_inv M EDGE_SPACE n0 n1 n2 full mask
              new_full new_mask Hshape HE Hkeep)
    as [l0' [l1' [l2' [h0' [h1' [h2' [b0 [b1 [b2 [e0 [e1 [e2
         [Hr' [E0 [E1 [E2 [H0 [H1 [H2 [-> _]]]]]]]]]]]]]]]]]]]].
  rewrite Hr in Hr'. injection Hr' as <- <- <- <- <- <-.
  exists (Z.to_nat b0), (Z.to_nat b1), (Z.to_nat b2),
         (Z.to_nat (e0 - b0)), (Z.to_nat (e1 - b1)), (Z.to_nat (e2 - b2)).
  split.
  { apply has_shape_map3. apply (sub_array_shape n0 n1 n2); try assumption; lia. }
  split.
  { intros i j k Hi Hj Hk. rewrite astype_float32_4_voxel. f_equal.
    apply (sub_array_voxel n0 n1 n2); try assumption; lia. }
  destruct E0 as [B0 E0], E1 as [B1 E1], E2 as [B2 E2].
  destruct Hb as [Hx [Hy Hz]], Hnn as [Hx0 [Hy0 Hz0]].
  destruct (axis_kept_iff EDGE_SPACE l0 h0 x n0 b0 e0 HE B0 E0 H0 Hx Hx0) as [C0 I0].
  destruct (axis_kept_iff EDGE_SPACE l1 h1 y n1 b1 e1 HE B1 E1 H1 Hy Hy0) as [C1 I1].
  destruct (axis_kept_iff EDGE_SPACE l2 h2 z n2 b2 e2 HE B2 E2 H2 Hz Hz0) as [C2 I2].
  split; [auto|]. rewrite I0, I1, I2. reflexivity.
Qed.

Lemma foreground_kept_iff_witness :
  exists b0 b1 b2 s0 s1 s2 : nat,
    (b0 + s0 <= 2 - 1 /\ b1 + s1 <= 2 - 1 /\ b2 + s2 <= 2 - 1)%nat /\
    ~ (Z.of_nat b0 <= 1 < Z.of_nat (b0 + s0) /\
       Z.of_nat b1 <= 1 < Z.of_nat (b1 + s1) /\
       Z.of_nat b2 <= 1 < Z.of_nat (b2 + s2))%Z.
Proof.
  destruct (foreground_kept_iff Z 1 2 2 2 corner_full (single_voxel 2 1 1 1 1%Z 0%Z)
              [(1, 1, 1)%Z]
              (astype_float32_4 (sub_array corner_full [0; 0; 0]%Z [1; 1; 1]%Z))
              (sub_array (single_voxel 2 1 1 1 1%Z 0%Z) [0; 0; 0]%Z [1; 1; 1]%Z)
              1 1 1
              ltac:(split; [reflexivity | repeat constructor])
              ltac:(lia) eq_refl ltac:(simpl; auto) eq_refl)
    as [b0 [b1 [b2 [s0 [s1 [s2 [_ [_ [Hcut Hiff]]]]]]]]].
  exists b0, b1, b2, s0, s1, s2. split; [exact Hcut|].
  intros H. apply Hiff in H. lia.
Defined.

(** X19.  For channel volumes and a mask of one shape, which the rotation
    turns into [FULL_SHAPE[:3] = BRAIN_SHAPE], and a margin [EDGE_SPACE >=
    0]: whenever the merge returns, the saved volume and the saved mask
    have the same spatial shape, and their entries at [(i, j, k)] come from
    one and the same input position, [(n1 - 1 - (b1 + j), b0 + i, b2 + k)]:
    the entry of the mask as it is, and channel [c] of the volume from the
    [c]-th channel volume, rounded to [float32]. *)
Theorem merge_keeps_voxels_aligned (M : Type) (EDGE_SPACE : Z)
    (n0 n1 n2 nc : nat) (volumes : list volume3) (mask : array3 M)
    (new_full : volume4_float32) (new_mask : array3 M) :
  (0 < n1)%nat ->
  Forall (has_shape n1 n0 n2) volumes ->
  has_shape n1 n0 n2 mask ->
  (length volumes <= nc)%nat ->
  (0 <= EDGE_SPACE)%Z ->
  merge_to_one_volume (n0, n1, n2, nc) EDGE_SPACE
                      [Z.of_nat n0; Z.of_nat n1; Z.of_nat n2] volumes mask
    = Ok (new_full, new_mask) ->
  exists b0 b1 b2 s0 s1 s2 : nat,
    has_shape s0 s1 s2 new_full /\
    has_shape s0 s1 s2 new_mask /\
    (b0 + s0 < n0 /\ b1 + s1 < n1 /\ b2 + s2 < n2)%nat /\
    forall i j k c (dm : M),
      (i < s0)%nat -> (j < s1)%nat -> (k < s2)%nat -> (c < length volumes)%nat ->
      nth c (voxel new_full i j k []) (Ieee.Finite 0) =
        astype_float32
          (voxel (nth c volumes []) (n1 - 1 - (b1 + j)) (b0 + i) (b2 + k) 0) /\
      voxel new_mask i j k dm =
        voxel mask (n1 - 1 - (b1 + j)) (b0 + i) (b2 + k) dm.
Proof.
  intros Hn1 Hvols Hmask Hlen HE Hmerge. unfold merge_to_one_volume in Hmerge.
  destruct (fill_channels_spec n0 n1 n2 nc volumes Hn1 Hvols 0
              (zeros (n0, n1, n2, nc)) (zeros_shape4 n0 n1 n2 nc) Hlen)
    as [full [Hfill [[Hshape _] Hvox]]].
  rewrite Hfill in Hmerge. cbn [bind] in Hmerge.
  destruct (rot90_3_voxel n1 n0 n2 mask Hmask Hn1) as [Hrot Hrv].
  destruct (keep_minimum_volume_inv M EDGE_SPACE n0 n1 n2 full (rot90_3 mask)
              new_full new_mask Hshape HE Hmerge)
    as [l0 [l1 [l2 [h0 [h1 [h2 [b0 [b1 [b2 [e0 [e1 [e2
         [_ [_ [_ [_ [H0 [H1 [H2 [-> ->]]]]]]]]]]]]]]]]]]]].
  exists (Z.to_nat b0), (Z.to_nat b1), (Z.to_nat b2),
         (Z.to_nat (e0 - b0)), (Z.to_nat (e1 - b1)), (Z.to_nat (e2 - b2)).
  split.
  { apply has_shape_map3. apply (sub_array_shape n0 n1 n2); try assumption; lia. }
  split; [apply (sub_array_shape n0 n1 n2); try assumption; lia|].
  split; [lia|].
  intros i j k c dm Hi Hj Hk Hc. split.
  - rewrite astype_float32_4_voxel.
    change (Ieee.Finite 0) with (astype_float32 0). rewrite map_nth. f_equal.
    rewrite (sub_array_voxel n0 n1 n2 full b0 b1 b2 e0 e1 e2 i j k [])
      by (assumption || lia).
    rewrite Hvox by lia.
    cbn [Nat.leb andb Nat.add]. rewrite Nat.sub_0_r.
    apply Nat.ltb_lt in Hc. now rewrite Hc.
  - rewrite (sub_array_voxel n0 n1 n2 (rot90_3 mask) b0 b1 b2 e0 e1 e2 i j k dm)
      by (assumption || lia).
    apply Hrv; lia.
Qed.

Lemma merge_keeps_voxels_aligned_witness :
  exists (new_full : volume4_float32) (new_mask : array3 Z) (b0 b1 b2 s0 s1 s2 : nat),
    merge_to_one_volume (4, 4, 4, 4)%nat 1 [4; 4; 4]%Z scenario_channels scenario_mask
      = Ok (new_full, new_mask) /\
    has_shape s0 s1 s2 new_full /\ has_shape s0 s1 s2 new_mask /\
    (b0 + s0 < 4 /\ b1 + s1 < 4 /\ b2 + s2 < 4)%nat.
Proof.
  destruct (merge_to_one_volume (4, 4, 4, 4)%nat 1 [4; 4; 4]%Z
                                scenario_channels scenario_mask)
    as [[new_full new_mask]|e] eqn:Hmerge; [|vm_compute in Hmerge; discriminate].
  destruct (merge_keeps_voxels_aligned Z 1 4 4 4 4 scenario_channels scenario_mask
              new_full new_mask ltac:(lia) ltac:(repeat constructor)
              ltac:(split; [reflexivity | repeat constructor])
              ltac:(simpl; lia) ltac:(lia) Hmerge)
    as [b0 [b1 [b2 [s0 [s1 [s2 [Hf [Hm [Hb _]]]]]]]]].
  exists new_full, new_mask, b0, b1, b2, s0, s1, s2. auto.
Defined.

(** ** The reorganisation script ([bts_reorganize.py], lines 67-110) *)

Module ReorganizeFacts.

Import String.
Local Open Scope string_scope.
Import Reorganize.

Section Settings.

Variable join : string -> string -> string.
Variable VOLUME_NAMES : list string.

Lemma find_mha_app (source_file : option string) (l : list string) (x : string) :
  find_mha source_file (l ++ [x]) =
  if endswith x ".mha" then Some x else find_mha source_file l.
Proof.
  unfold find_mha. rewrite fold_left_app. reflexivity.
Qed.

Lemma find_mha_none (source_file : option string) (source_files : list string) :
  Forall (fun sf => endswith sf ".mha" = false) source_files ->
  find_mha source_file source_files = source_file.
Proof.
  intros H. revert source_file.
  induction H as [|x l Hx _ IH]; intros source_file; [reflexivity|].
  unfold find_mha in *. simpl. rewrite Hx. apply IH.
Qed.

Lemma find_mha_some (source_files : list string) :
  has_mha source_files ->
  exists name,
    In name source_files /\ endswith name ".mha" = true /\
    forall source_file, find_mha source_file source_files = Some name.
Proof.
  induction source_files as [|x l IH] using rev_ind; intros [sf [Hin Hsf]].
  - contradiction.
  - destruct (endswith x ".mha") eqn:Hx.
    + exists x. split; [apply in_or_app; right; simpl; auto|].
      split; [assumption|]. intros source_file.
      now rewrite find_mha_app, Hx.
    + apply in_app_or in Hin. destruct Hin as [Hin|[<-|[]]]; [|congruence].
      destruct IH as [name [Hname [Hend Hfind]]]; [exists sf; auto|].
      exists name. split; [apply in_or_app; now left|].
      split; [assumption|]. intros source_file.
      now rewrite find_mha_app, Hx.
Qed.

Lemma listed (name : string) (source_files : list string) :
  In name source_files -> existsb (String.eqb name) source_files = true.
Proof.
  intros H. apply existsb_exists. exists name. split; [assumption|].
  apply String.eqb_refl.
Qed.

Lemma not_listed (name : string) (source_files : list string) :
  endswith name ".mha" = true ->
  Forall (fun sf => endswith sf ".mha" = false) source_files ->
  existsb (String.eqb name) source_files = false.
Proof.
  intros Hname Hall.
  destruct (existsb (String.eqb name) source_files) eqn:He; [|reflexivity].
  apply existsb_exists in He. destruct He as [sf [Hin Heq]].
  apply String.eqb_eq in Heq. subst sf.
  rewrite Forall_forall in Hall. rewrite (Hall name Hin) in Hname. discriminate.
Qed.

Lemma nth_error_skipn_cons {A : Type} (l : list A) (i : nat) :
  (i < List.length l)%nat ->
  exists x, nth_error l i = Some x /\ skipn i l = x :: skipn (S i) l.
Proof.
  revert i. induction l as [|a l IH]; intros i Hi; simpl in Hi; [lia|].
  destruct i as [|i]; [exists a; auto|].
  destruct (IH i) as [x [Hx Hs]]; [lia|]. exists x. auto.
Qed.

Lemma copy_volumes_complete (sub_from_path sub_to_path : string) (n : nat)
    (sub_from_dirs : list (string * list string)) :
  Forall (fun sd => has_mha (snd sd)) sub_from_dirs ->
  forall (i : nat) (source_file : option string),
    (i + List.length sub_from_dirs <= List.length VOLUME_NAMES)%nat ->
    exists source_file',
      copy_volumes join VOLUME_NAMES sub_from_path sub_to_path n i source_file
                   sub_from_dirs
      = (patient_copies join sub_from_path sub_to_path n (skipn i VOLUME_NAMES)
                        sub_from_dirs,
         source_file', None).
Proof.
  induction 1 as [|[sd source_files] rest Hsd _ IH]; intros i source_file Hlen.
  - exists source_file. reflexivity.
  - simpl in Hlen. cbn [copy_volumes].
    destruct (find_mha_some source_files Hsd) as [name [Hin [_ Hfind]]].
    rewrite (Hfind source_file).
    destruct (nth_error_skipn_cons VOLUME_NAMES i) as [vn [Hvn Hskip]]; [lia|].
    rewrite Hvn, (listed name source_files Hin).
    destruct (IH (S i) (Some name)) as [sf' Hrest]; [lia|].
    rewrite Hrest. exists sf'.
    unfold patient_copies. rewrite Hskip. cbn [combine map].
    now rewrite (Hfind None).
Qed.

(** X20.  When every volume directory of a patient holds an [.mha] file and
    there are no more of them than volume names, the loop over them does
    not raise and copies, for the [k]-th directory, its last-listed [.mha]
    file to [<n>_<VOLUME_NAMES[k]>.mha]; the copies do not depend on the
    value [source_file] has when the loop is entered. *)
Theorem copy_volumes_well_formed (sub_from_path sub_to_path : string) (n : nat)
    (source_file : option string) (sub_from_dirs : list (string * list string)) :
  Forall (fun sd => has_mha (snd sd)) sub_from_dirs ->
  (List.length sub_from_dirs <= List.length VOLUME_NAMES)%nat ->
  exists source_file',
    copy_volumes join VOLUME_NAMES sub_from_path sub_to_path n 0 source_file
                 sub_from_dirs
    = (patient_copies join sub_from_path sub_to_path n VOLUME_NAMES sub_from_dirs,
       source_file', None).
Proof.
  intros Hall Hlen.
  exact (copy_volumes_complete sub_from_path sub_to_path n sub_from_dirs Hall
                               0 source_file Hlen).
Qed.

Lemma copy_volumes_stops (sub_from_path sub_to_path : string) (n i : nat)
    (source_file : option string) (sd : string) (source_files : list string)
    (rest : list (string * list string)) :
  Forall (fun sf => endswith sf ".mha" = false) source_files ->
  (forall name, source_file = Some name -> endswith name ".mha" = true) ->
  exists e,
    copy_volumes join VOLUME_NAMES sub_from_path sub_to_path n i source_file
                 ((sd, source_files) :: rest)
    = ([], source_file, Some e) /\
    (source_file = None -> e = UnboundLocalError) /\
    (source_file <> None ->
     ((List.length VOLUME_NAMES <= i)%nat -> e = Builtin IndexError) /\
     ((i < List.length VOLUME_NAMES)%nat -> e = FileNotFoundError)).
Proof.
  intros Hnone Hstale. cbn [copy_volumes].
  rewrite (find_mha_none source_file source_files Hnone).
  destruct source_file as [name|].
  - destruct (nth_error VOLUME_NAMES i) as [volume_name|] eqn:Hvn.
    + rewrite (not_listed name source_files (Hstale name eq_refl) Hnone).
      exists FileNotFoundError. split; [reflexivity|]. split; [discriminate|].
      intros _. split; [|reflexivity].
      intros Hi. apply nth_error_None in Hi. congruence.
    + exists (Builtin IndexError). split; [reflexivity|]. split; [discriminate|].
      intros _. split; [reflexivity|].
      intros Hi. apply nth_error_None in Hvn. lia.
  - exists UnboundLocalError. split; [reflexivity|]. split; [reflexivity|].
    intros H. congruence.
Qed.

(** X21.  A volume directory without an [.mha] file stops the run with an
    exception, and nothing is copied for it: [UnboundLocalError] when
    [source_file] is still unbound; otherwise, [source_file] being the name
    of an [.mha] file of an earlier directory, [IndexError] when no volume
    name is left, and else [FileNotFoundError] from [copy], as no file of
    that name is in this directory. *)
Theorem copy_volumes_missing_mha (sub_from_path sub_to_path : string) (n i : nat)
    (source_file : option string) (sd : string) (source_files : list string)
    (rest : list (string * list string)) :
  Forall (fun sf => endswith sf ".mha" = false) source_files ->
  (forall name, source_file = Some name -> endswith name ".mha" = true) ->
  exists e,
    copy_volumes join VOLUME_NAMES sub_from_path sub_to_path n i source_file
                 ((sd, source_files) :: rest)
    = ([], source_file, Some e) /\
    (source_file = None -> e = UnboundLocalError) /\
    (source_file <> None ->
     ((List.length VOLUME_NAMES <= i)%nat -> e = Builtin IndexError) /\
     ((i < List.length VOLUME_NAMES)%nat -> e = FileNotFoundError)).
Proof.
  exact (copy_volumes_stops sub_from_path sub_to_path n i source_file sd source_files
                            rest).
Qed.

Lemma copy_volumes_overflow (sub_from_path sub_to_path : string) (n : nat)
    (sub_from_dirs : list (string * list string)) :
  Forall (fun sd => has_mha (snd sd)) sub_from_dirs ->
  forall (i : nat) (source_file : option string),
    (i <= List.length VOLUME_NAMES)%nat ->
    (List.length VOLUME_NAMES < i + List.length sub_from_dirs)%nat ->
    exists source_file',
      copy_volumes join VOLUME_NAMES sub_from_path sub_to_path n i source_file
                   sub_from_dirs
      = (patient_copies join sub_from_path sub_to_path n (skipn i VOLUME_NAMES)
                        sub_from_dirs,
         source_file', Some (Builtin IndexError)).
Proof.
  induction 1 as [|[sd source_files] rest Hsd _ IH]; intros i source_file Hi Hlen.
  - simpl in Hlen. lia.
  - simpl in Hlen. cbn [copy_volumes].
    destruct (find_mha_some source_files Hsd) as [name [Hin [_ Hfind]]].
    rewrite (Hfind source_file).
    destruct (Nat.eq_dec i (List.length VOLUME_NAMES)) as [->|Hne].
    + assert (Hn : nth_error VOLUME_NAMES (List.length VOLUME_NAMES) = None)
        by (apply nth_error_None; lia).
      rewrite Hn. exists (Some name).
      unfold patient_copies. now rewrite skipn_all.
    + destruct (nth_error_skipn_cons VOLUME_NAMES i) as [vn [Hvn Hskip]]; [lia|].
      rewrite Hvn, (listed name source_files Hin).
      destruct (IH (S i) (Some name)) as [sf' Hrest]; [lia | lia |].
      rewrite Hrest. exists sf'.
      unfold patient_copies. rewrite Hskip. cbn [combine map].
      now rewrite (Hfind None).
Qed.

(** X22.  A patient directory with more volume directories than there are
    volume names makes the loop raise [IndexError], after it has copied one
    file for each volume name. *)
Theorem copy_volumes_too_many (sub_from_path sub_to_path : string) (n : nat)
    (source_file : option string) (sub_from_dirs : list (string * list string)) :
  Forall (fun sd => has_mha (snd sd)) sub_from_dirs ->
  (List.length VOLUME_NAMES < List.length sub_from_dirs)%nat ->
  exists events source_file',
    copy_volumes join VOLUME_NAMES sub_from_path sub_to_path n 0 source_file
                 sub_from_dirs
    = (events, source_file', Some (Builtin IndexError)) /\
    events = patient_copies join sub_from_path sub_to_path n VOLUME_NAMES
                            sub_from_dirs /\
    List.length events = List.length VOLUME_NAMES.
Proof.
  intros Hall Hlen.
  destruct (copy_volumes_overflow sub_from_path sub_to_path n sub_from_dirs Hall
              0 source_file ltac:(lia) ltac:(simpl; lia)) as [sf' Hrun].
  cbn [skipn] in Hrun. do 2 eexists. split; [exact Hrun|]. split; [reflexivity|].
  unfold patient_copies. rewrite length_map, length_combine. lia.
Qed.

Lemma copy_patients_complete (from_path to_path : string)
    (from_dirs : list (string * list (string * list string))) :
  Forall (fun d =>
            (List.length (snd d) <= List.length VOLUME_NAMES)%nat /\
            Forall (fun sd => has_mha (snd sd)) (snd d)) from_dirs ->
  forall (n : nat) (source_file : option string),
    exists source_file',
      copy_patients join VOLUME_NAMES from_path to_path n source_file from_dirs
      = (patient_events join VOLUME_NAMES from_path to_path n from_dirs,
         source_file', None).
Proof.
  induction 1 as [|[d sub_from_dirs] rest [Hlen Hall] _ IH]; intros n source_file.
  - exists source_file. reflexivity.
  - cbn [snd] in Hlen, Hall. cbn [copy_patients].
    destruct (copy_volumes_complete (join from_path d) (join to_path (str n)) n
                sub_from_dirs Hall 0 source_file Hlen) as [sf1 Hvol].
    cbn [skipn] in Hvol. rewrite Hvol.
    destruct (IH (S n) sf1) as [sf2 Hrest]. rewrite Hrest.
    exists sf2. reflexivity.
Qed.

Lemma copy_sub_targets_complete (input_dir output_dir : string)
    (sub_target : list (string * list (string * list (string * list string)))) :
  well_formed (List.length VOLUME_NAMES) sub_target ->
  forall source_file : option string,
    exists source_file',
      copy_sub_targets join VOLUME_NAMES input_dir output_dir source_file sub_target
      = (tree_events join VOLUME_NAMES input_dir output_dir sub_target,
         source_file', None).
Proof.
  induction 1 as [|[st from_dirs] rest Hst _ IH]; intros source_file.
  - exists source_file. reflexivity.
  - cbn [snd] in Hst. cbn [copy_sub_targets].
    destruct (copy_patients_complete (join input_dir st) (join output_dir st)
                from_dirs Hst 0 source_file) as [sf1 Hpat].
    rewrite Hpat.
    destruct (IH sf1) as [sf2 Hrest]. rewrite Hrest.
    exists sf2. reflexivity.
Qed.

Lemma patient_copies_count (sub_from_path sub_to_path : string) (n : nat)
    (names : list string) (sub_from_dirs : list (string * list string)) :
  (List.length sub_from_dirs <= List.length names)%nat ->
  List.length (filter is_copy
                 (patient_copies join sub_from_path sub_to_path n names
                                 sub_from_dirs))
  = List.length sub_from_dirs.
Proof.
  intros Hlen. unfold patient_copies.
  rewrite forallb_filter_id.
  - rewrite length_map, length_combine. lia.
  - apply forallb_forall. intros e He. apply in_map_iff in He.
    destruct He as [[[sd source_files] volume_name] [<- _]]. reflexivity.
Qed.

Lemma patient_events_count (from_path to_path : string)
    (from_dirs : list (string * list (string * list string))) :
  Forall (fun d =>
            (List.length (snd d) <= List.length VOLUME_NAMES)%nat /\
            Forall (fun sd => has_mha (snd sd)) (snd d)) from_dirs ->
  forall n : nat,
    List.length (filter is_copy
                   (patient_events join VOLUME_NAMES from_path to_path n from_dirs))
    = list_sum (map (fun d => List.length (snd d)) from_dirs).
Proof.
  induction 1 as [|[d sub_from_dirs] rest [Hlen _] _ IH]; intros n; [reflexivity|].
  cbn [snd] in Hlen. unfold patient_events in *.
  cbn [List.length seq combine flat_map map list_sum snd].
  rewrite <- app_comm_cons. cbn [filter is_copy].
  rewrite filter_app, length_app, patient_copies_count by assumption.
  now rewrite IH.
Qed.

Lemma tree_events_count (input_dir output_dir : string)
    (sub_target : list (string * list (string * list (string * list string)))) :
  well_formed (List.length VOLUME_NAMES) sub_target ->
  List.length (filter is_copy
                 (tree_events join VOLUME_NAMES input_dir output_dir sub_target))
  = count_volume_dirs sub_target.
Proof.
  induction 1 as [|[st from_dirs] rest Hst _ IH]; [reflexivity|].
  cbn [snd] in Hst. unfold tree_events, count_volume_dirs in *.
  cbn [flat_map map list_sum snd].
  rewrite <- app_comm_cons. cbn [filter is_copy].
  rewrite filter_app, length_app, patient_events_count by assumption.
  now rewrite IH.
Qed.

(** X23.  On a tree in which every patient directory has at most as many
    volume directories as there are volume names, each with an [.mha] file,
    [_reorganize] does not raise; it creates one target directory per
    sub-target and one per patient, numbered from 0 in the order of the
    listing within each sub-target, and copies exactly one file per volume
    directory. *)
Theorem reorganize_well_formed (input_dir output_dir : string)
    (sub_target : list (string * list (string * list (string * list string)))) :
  well_formed (List.length VOLUME_NAMES) sub_target ->
  exists source_file,
    reorganize join VOLUME_NAMES input_dir output_dir sub_target
    = (tree_events join VOLUME_NAMES input_dir output_dir sub_target,
       source_file, None) /\
    List.length (filter is_copy
                   (tree_events join VOLUME_NAMES input_dir output_dir sub_target))
    = count_volume_dirs sub_target.
Proof.
  intros Hwf.
  destruct (copy_sub_targets_complete input_dir output_dir sub_target Hwf None)
    as [sf Hrun].
  exists sf. split; [exact Hrun|].
  now apply tree_events_count.
Qed.

(** X24.  When the first volume directory of the first patient holds no
    [.mha] file, [_reorganize] raises [UnboundLocalError] after it has
    created the two target directories and before any copy. *)
Theorem reorganize_first_directory_without_mha (input_dir output_dir : string)
    (st d sd : string) (source_files : list string)
    (sub_from_dirs : list (string * list string))
    (from_dirs : list (string * list (string * list string)))
    (sub_target : list (string * list (string * list (string * list string)))) :
  Forall (fun sf => endswith sf ".mha" = false) source_files ->
  reorganize join VOLUME_NAMES input_dir output_dir
             ((st, (d, (sd, source_files) :: sub_from_dirs) :: from_dirs)
              :: sub_target)
  = ([Makedirs_if_missing (join output_dir st);
      Makedirs_if_missing (join (join output_dir st) (str 0))],
     None, Some UnboundLocalError).
Proof.
  intros Hnone. unfold reorganize.
  cbn [copy_sub_targets copy_patients copy_volumes].
  now rewrite (find_mha_none None source_files Hnone).
Qed.

Lemma has_mha_dec (source_files : list string) :
  has_mha source_files \/ Forall (fun sf => endswith sf ".mha" = false) source_files.
Proof.
  induction source_files as [|sf l IH]; [right; constructor|].
  destruct (endswith sf ".mha") eqn:Hsf.
  - left. exists sf. split; [now left | assumption].
  - destruct IH as [[name [Hin Hname]]|Hall].
    + left. exists name. split; [now right | assumption].
    + right. now constructor.
Qed.

Lemma find_mha_ends (source_files : list string) :
  forall source_file,
    (forall name, source_file = Some name -> endswith name ".mha" = true) ->
    forall name, find_mha source_file source_files = Some name ->
                 endswith name ".mha" = true.
Proof.
  unfold find_mha.
  induction source_files as [|sf l IH]; intros source_file Hinv name; simpl.
  - apply Hinv.
  - apply IH. destruct (endswith sf ".mha") eqn:Hsf; [|exact Hinv].
    intros name' H. injection H as <-. exact Hsf.
Qed.

Lemma copy_volumes_no_error (sub_from_path sub_to_path : string) (n : nat)
    (sub_from_dirs : list (string * list string)) :
  forall (i : nat) (source_file : option string) events source_file',
    (forall name, source_file = Some name -> endswith name ".mha" = true) ->
    copy_volumes join VOLUME_NAMES sub_from_path sub_to_path n i source_file
                 sub_from_dirs = (events, source_file', None) ->
    Forall (fun sd => has_mha (snd sd)) sub_from_dirs /\
    (List.length sub_from_dirs <= List.length VOLUME_NAMES - i)%nat /\
    (forall name, source_file' = Some name -> endswith name ".mha" = true).
Proof.
  induction sub_from_dirs as [|[sd source_files] rest IH];
    intros i source_file events source_file' Hinv Hrun.
  - cbn [copy_volumes] in Hrun. injection Hrun as _ <-.
    split; [constructor|]. split; [simpl; lia | assumption].
  - destruct (has_mha_dec source_files) as [Hmha|Hnone].
    + cbn [copy_volumes] in Hrun.
      pose proof (find_mha_ends source_files source_file Hinv) as Hinv1.
      destruct (find_mha source_file source_files) as [name|]; [|discriminate].
      destruct (nth_error VOLUME_NAMES i) as [volume_name|] eqn:Hvn; [|discriminate].
      destruct (existsb (String.eqb name) source_files); [|discriminate].
      destruct (copy_volumes join VOLUME_NAMES sub_from_path sub_to_path n (S i)
                             (Some name) rest) as [[events1 sf1] raised] eqn:Hrest.
      injection Hrun as _ <- ->.
      destruct (IH (S i) (Some name) events1 sf1 Hinv1 Hrest) as [Hall [Hlen Hinv']].
      split; [constructor; assumption|]. split; [|assumption].
      assert (Hi : (i < List.length VOLUME_NAMES)%nat).
      { apply nth_error_Some. congruence. }
      simpl. lia.
    + destruct (copy_volumes_stops sub_from_path sub_to_path
                  n i source_file sd source_files rest Hnone Hinv) as [e [He _]].
      rewrite He in Hrun. discriminate.
Qed.

Lemma copy_patients_no_error (from_path to_path : string)
    (from_dirs : list (string * list (string * list string))) :
  forall (n : nat) (source_file : option string) events source_file',
    (forall name, source_file = Some name -> endswith name ".mha" = true) ->
    copy_patients join VOLUME_NAMES from_path to_path n source_file from_dirs
    = (events, source_file', None) ->
    Forall (fun d =>
              (List.length (snd d) <= List.length VOLUME_NAMES)%nat /\
              Forall (fun sd => has_mha (snd sd)) (snd d)) from_dirs /\
    (forall name, source_file' = Some name -> endswith name ".mha" = true).
Proof.
  induction from_dirs as [|[d sub_from_dirs] rest IH];
    intros n source_file events source_file' Hinv Hrun.
  - cbn [copy_patients] in Hrun. injection Hrun as _ <-.
    split; [constructor | assumption].
  - cbn [copy_patients] in Hrun.
    destruct (copy_volumes join VOLUME_NAMES (join from_path d) (join to_path (str n))
                           n 0 source_file sub_from_dirs)
      as [[events1 sf1] raised] eqn:Hvol.
    destruct raised as [e|]; [discriminate|].
    destruct (copy_volumes_no_error _ _ _ _ _ _ _ _ Hinv Hvol) as [Hall [Hlen Hinv1]].
    destruct (copy_patients join VOLUME_NAMES from_path to_path (S n) sf1 rest)
      as [[events2 sf2] raised] eqn:Hrest.
    injection Hrun as _ <- ->.
    destruct (IH (S n) sf1 events2 sf2 Hinv1 Hrest) as [Hall' Hinv2].
    split; [|assumption]. constructor; [|assumption].
    cbn [snd]. split; [lia | assumption].
Qed.

Lemma copy_sub_targets_no_error (input_dir output_dir : string)
    (sub_target : list (string * list (string * list (string * list string)))) :
  forall (source_file : option string) events source_file',
    (forall name, source_file = Some name -> endswith name ".mha" = true) ->
    copy_sub_targets join VOLUME_NAMES input_dir output_dir source_file sub_target
    = (events, source_file', None) ->
    well_formed (List.length VOLUME_NAMES) sub_target.
Proof.
  unfold well_formed.
  induction sub_target as [|[st from_dirs] rest IH];
    intros source_file events source_file' Hinv Hrun; [constructor|].
  cbn [copy_sub_targets] in Hrun.
  destruct (copy_patients join VOLUME_NAMES (join input_dir st) (join output_dir st)
                          0 source_file from_dirs)
    as [[events1 sf1] raised] eqn:Hpat.
  destruct raised as [e|]; [discriminate|].
  destruct (copy_patients_no_error _ _ _ _ _ _ _ Hinv Hpat) as [Hall Hinv1].
  destruct (copy_sub_targets join VOLUME_NAMES input_dir output_dir sf1 rest)
    as [[events2 sf2] raised] eqn:Hrest.
  injection Hrun as _ <- ->.
  constructor; [exact Hall|]. exact (IH sf1 events2 sf2 Hinv1 Hrest).
Qed.

(** X28.  [_reorganize] ends without an exception if and only if every
    patient directory has at most as many volume directories as there are
    volume names, each of them with an [.mha] file. *)
Theorem reorganize_completes_iff (input_dir output_dir : string)
    (sub_target : list (string * list (string * list (string * list string)))) :
  (exists events source_file,
      reorganize join VOLUME_NAMES input_dir output_dir sub_target
      = (events, source_file, None))
  <-> well_formed (List.length VOLUME_NAMES) sub_target.
Proof.
  split.
  - intros [events [source_file Hrun]].
    apply (copy_sub_targets_no_error input_dir output_dir sub_target None
                                     events source_file); [discriminate | exact Hrun].
  - intros Hwf.
    destruct (copy_sub_targets_complete input_dir output_dir
                                        sub_target Hwf None) as [sf Hrun].
    eauto.
Qed.

End Settings.

Lemma flair_has_mha : has_mha ["readme.txt"; "flair.mha"].
Proof.
  exists "flair.mha". split; [right; left; reflexivity | reflexivity].
Qed.

Lemma copy_volumes_well_formed_witness :
  exists source_file',
    copy_volumes posix_join ["Flair"; "T1"] "in/pat" "out/0" 0 0 (Some "old.mha")
                 [("flair_dir", ["readme.txt"; "flair.mha"])]
    = (patient_copies posix_join "in/pat" "out/0" 0 ["Flair"; "T1"]
                      [("flair_dir", ["readme.txt"; "flair.mha"])],
       source_file', None).
Proof.
  apply (copy_volumes_well_formed posix_join ["Flair"; "T1"] "in/pat" "out/0" 0
           (Some "old.mha") [("flair_dir", ["readme.txt"; "flair.mha"])]).
  - repeat constructor. exact flair_has_mha.
  - simpl. lia.
Defined.

Lemma copy_volumes_missing_mha_witness :
  exists e,
    copy_volumes posix_join ["Flair"; "T1"] "in/pat" "out/0" 0 1 (Some "flair.mha")
                 [("t1_dir", ["notes.txt"])]
    = ([], Some "flair.mha", Some e) /\
    e = FileNotFoundError.
Proof.
  destruct (copy_volumes_missing_mha posix_join ["Flair"; "T1"] "in/pat" "out/0" 0 1
              (Some "flair.mha") "t1_dir" ["notes.txt"] []
              ltac:(repeat constructor)
              ltac:(intros name H; injection H as <-; reflexivity))
    as [e [Hrun [_ Hstale]]].
  exists e. split; [exact Hrun|].
  apply (proj2 (Hstale ltac:(discriminate))). simpl. lia.
Defined.

Lemma copy_volumes_too_many_witness :
  exists events source_file',
    copy_volumes posix_join ["Flair"] "in/pat" "out/0" 0 0 None
                 [("flair_dir", ["readme.txt"; "flair.mha"]);
                  ("t1_dir", ["readme.txt"; "flair.mha"])]
    = (events, source_file', Some (Builtin IndexError)) /\
    events = patient_copies posix_join "in/pat" "out/0" 0 ["Flair"]
                            [("flair_dir", ["readme.txt"; "flair.mha"]);
                             ("t1_dir", ["readme.txt"; "flair.mha"])] /\
    List.length events = List.length ["Flair"].
Proof.
  apply (copy_volumes_too_many posix_join ["Flair"] "in/pat" "out/0" 0 None
           [("flair_dir", ["readme.txt"; "flair.mha"]);
            ("t1_dir", ["readme.txt"; "flair.mha"])]).
  - repeat constructor; exact flair_has_mha.
  - simpl. lia.
Defined.

Lemma reorganize_well_formed_witness :
  exists source_file,
    reorganize posix_join ["Flair"; "T1"] "in" "out"
               [("HGG", [("pat_a", [("flair_dir", ["readme.txt"; "flair.mha"])])])]
    = (tree_events posix_join ["Flair"; "T1"] "in" "out"
                   [("HGG", [("pat_a", [("flair_dir", ["readme.txt"; "flair.mha"])])])],
       source_file, None) /\
    List.length (filter is_copy
                   (tree_events posix_join ["Flair"; "T1"] "in" "out"
                      [("HGG", [("pat_a", [("flair_dir", ["readme.txt"; "flair.mha"])])])]))
    = count_volume_dirs
        [("HGG", [("pat_a", [("flair_dir", ["readme.txt"; "flair.mha"])])])].
Proof.
  apply (reorganize_well_formed posix_join ["Flair"; "T1"] "in" "out"
           [("HGG", [("pat_a", [("flair_dir", ["readme.txt"; "flair.mha"])])])]).
  repeat constructor; try (simpl; lia). exact flair_has_mha.
Defined.

Lemma reorganize_first_directory_without_mha_witness :
  reorganize posix_join ["Flair"; "T1"] "in" "out"
             [("HGG", [("pat_a", [("flair_dir", ["notes.txt"])])])]
  = ([Makedirs_if_missing (posix_join "out" "HGG");
      Makedirs_if_missing (posix_join (posix_join "out" "HGG") (str 0))],
     None, Some UnboundLocalError).
Proof.
  apply (reorganize_first_directory_without_mha posix_join ["Flair"; "T1"] "in" "out"
           "HGG" "pat_a" "flair_dir" ["notes.txt"] [] [] []).
  repeat constructor.
Defined.

Lemma reorganize_completes_iff_witness :
  exists events source_file,
    reorganize posix_join ["Flair"; "T1"] "in" "out"
               [("HGG", [("pat_a", [("flair_dir", ["readme.txt"; "flair.mha"])])])]
    = (events, source_file, None).
Proof.
  apply (proj2 (reorganize_completes_iff posix_join ["Flair"; "T1"] "in" "out"
                  [("HGG", [("pat_a", [("flair_dir", ["readme.txt"; "flair.mha"])])])])).
  repeat constructor; try (simpl; lia). exact flair_has_mha.
Defined.

End ReorganizeFacts.

(** ** The mean ROC curve ([cv_stats.py], lines 76-89) *)

Lemma mean_fpr_cons : Roc.mean_fpr = hd 0 Roc.mean_fpr :: tl Roc.mean_fpr.
Proof. reflexivity. Qed.

Lemma mean_fpr_tl_length : length (tl Roc.mean_fpr) = 99%nat.
Proof. reflexivity. Qed.

Lemma interp1_bounds (xp fp : list Q) (x : Q) :
  xp <> [] ->
  length xp = length fp ->
  StronglySorted Qle fp ->
  hd 0 fp <= Np.interp1 xp fp (hd 0 xp) (last xp (hd 0 xp)) (hd 0 fp)
                        (last fp (hd 0 fp)) x /\
  Np.interp1 xp fp (hd 0 xp) (last xp (hd 0 xp)) (hd 0 fp) (last fp (hd 0 fp)) x
  <= last fp 0.
Proof.
  intros Hne Hlen Hs.
  assert (Hfp : fp <> []) by (destruct xp, fp; try discriminate; congruence).
  pose proof (sorted_hd_le_last _ Hs) as Hhl.
  rewrite (last_indep fp (hd 0 fp) 0 Hfp).
  unfold Np.interp1.
  destruct (Np.Qlt_bool x (hd 0 xp)) eqn:Hlow.
  - split; [apply Qle_refl | assumption].
  - apply Qlt_bool_false in Hlow.
    destruct (Np.Qlt_bool (last xp (hd 0 xp)) x).
    + split; [assumption | apply Qle_refl].
    + now apply interp_segment_bounds.
Qed.

(** One turn of the loop of lines 80-82 on a curve with as many false as
    true positive rates, and at least one. *)
Lemma tpr_row (curve : list Q * list Q) :
  fst curve <> [] ->
  length (fst curve) = length (snd curve) ->
  (tpr <- Np.interp Roc.mean_fpr (fst curve) (snd curve) ;; Roc.set_first 0 tpr)
  = Ok (0 :: map (Np.interp1 (fst curve) (snd curve) (hd 0 (fst curve))
                             (last (fst curve) (hd 0 (fst curve)))
                             (hd 0 (snd curve))
                             (last (snd curve) (hd 0 (snd curve))))
                 (tl Roc.mean_fpr)).
Proof.
  destruct curve as [xp fp]. cbn [fst snd]. intros Hne Hlen.
  unfold Np.interp. rewrite Hlen, Nat.eqb_refl. cbn [negb].
  destruct xp as [|x0 xp]; [congruence|].
  destruct fp as [|y0 fp]; [discriminate|].
  rewrite mean_fpr_cons at 1. reflexivity.
Qed.

Lemma tpr_rows (curves : list (list Q * list Q)) :
  Forall (fun curve => fst curve <> [] /\ length (fst curve) = length (snd curve))
         curves ->
  exists tprs,
    mapM (fun curve : list Q * list Q =>
            tpr <- Np.interp Roc.mean_fpr (fst curve) (snd curve) ;;
            Roc.set_first 0 tpr) curves = Ok tprs /\
    length tprs = length curves /\
    Forall (fun row => length row = 100%nat /\ nth 0 row 0 = 0) tprs /\
    (Forall (fun curve => StronglySorted Qle (snd curve) /\
                          0 <= hd 0 (snd curve) /\ last (snd curve) 0 <= 1)
            curves ->
     Forall (Forall (fun v => 0 <= v /\ v <= 1)) tprs).
Proof.
  induction 1 as [|curve curves [Hne Hlen] _ IH].
  - exists []. repeat split; constructor.
  - destruct IH as [tprs [Hrun [Hn [Hrows Hunit]]]].
    eexists. cbn [mapM]. rewrite (tpr_row curve Hne Hlen). cbn [bind].
    rewrite Hrun. cbn [bind]. split; [reflexivity|].
    split; [simpl; now rewrite Hn|]. split.
    + constructor; [|assumption]. split; [|reflexivity].
      cbn [length]. now rewrite length_map, mean_fpr_tl_length.
    + intros Hroc. inversion Hroc as [|? ? [Hs [Hlo Hhi]] Hroc']; subst.
      constructor; [|now apply Hunit].
      constructor; [split; [apply Qle_refl | discriminate]|].
      apply Forall_forall. intros v Hv. apply in_map_iff in Hv.
      destruct Hv as [x [<- _]].
      destruct (interp1_bounds (fst curve) (snd curve) x Hne Hlen Hs) as [H1 H2].
      split; [eapply Qle_trans; eassumption | eapply Qle_trans; eassumption].
Qed.

Lemma sum_le_length {A : Type} (f : A -> Q) (l : list A) :
  Forall (fun x => f x <= 1) l ->
  fold_right Qplus 0 (map f l) <= inject_Z (Z.of_nat (length l)).
Proof.
  induction 1 as [|x l Hx _ IH]; [apply Qle_refl|].
  cbn [map fold_right length]. rewrite Nat2Z.inj_succ, <- Z.add_1_l, inject_Z_plus.
  now apply Qplus_le_compat.
Qed.

Lemma sum_zero {A : Type} (f : A -> Q) (l : list A) :
  Forall (fun x => f x = 0) l -> fold_right Qplus 0 (map f l) == 0.
Proof.
  induction 1 as [|x l Hx _ IH]; [reflexivity|].
  cbn [map fold_right]. rewrite Hx, IH. reflexivity.
Qed.

Lemma mean_axis0_rows (k : nat) (r : list Q) (rows : list (list Q)) :
  Forall (fun row => length row = k /\ nth 0 row 0 = 0) (r :: rows) ->
  (0 < k)%nat ->
  exists m,
    Np.mean_axis0 (r :: rows) = Np.Vector m /\
    length m = k /\
    nth 0 m 0 == 0 /\
    (Forall (Forall (fun v => 0 <= v /\ v <= 1)) (r :: rows) ->
     Forall (fun v => 0 <= v /\ v <= 1) m).
Proof.
  intros Hall Hk.
  inversion Hall as [|? ? [Hr Hr0] Hrows]; subst.
  assert (Hlens : Forall (fun row => length row = length r) rows).
  { eapply Forall_impl; [|exact Hrows]. intros row [H _]. exact H. }
  set (n := inject_Z (Z.of_nat (length (r :: rows)))).
  assert (Hn : 0 < n).
  { unfold n. change 0 with (inject_Z 0). rewrite <- Zlt_Qlt. simpl. lia. }
  assert (Hcol : forall j, (j < length r)%nat ->
            nth j (map (fun s => s / n) (fold_left Np.add rows r)) 0 ==
            (nth j r 0 + fold_right Qplus 0 (map (fun row => nth j row 0) rows)) / n).
  { intros j Hj.
    rewrite (nth_indep _ 0 ((fun s => s / n) 0))
      by (rewrite length_map, fold_add_length; assumption).
    rewrite (map_nth (fun s => s / n)).
    now rewrite fold_add_nth by assumption. }
  eexists. split; [reflexivity|]. fold n.
  split; [now rewrite length_map, fold_add_length|]. split.
  - rewrite Hcol by assumption. rewrite Hr0, sum_zero.
    + field. intros H. rewrite H in Hn. apply (Qlt_irrefl 0 Hn).
    + eapply Forall_impl; [|exact Hrows]. intros row [_ H]. exact H.
  - intros Hunit. inversion Hunit as [|? ? Hru Hrowsu]; subst.
    apply Forall_forall. intros v Hv.
    destruct (In_nth _ _ 0 Hv) as [j [Hj <-]].
    rewrite length_map, fold_add_length in Hj by assumption.
    rewrite Hcol by assumption.
    assert (Hrj : 0 <= nth j r 0 /\ nth j r 0 <= 1).
    { rewrite Forall_forall in Hru. apply Hru. now apply nth_In. }
    assert (Hrowsj : Forall (fun row => 0 <= nth j row 0 /\ nth j row 0 <= 1) rows).
    { rewrite Forall_forall in *. intros row Hrow.
      pose proof (Hrowsu row Hrow) as Hu. rewrite Forall_forall in Hu.
      apply Hu. apply nth_In. rewrite (Hlens row Hrow). assumption. }
    assert (H0 : 0 <= fold_right Qplus 0 (map (fun row => nth j row 0) rows)).
    { apply sum_nonneg. eapply Forall_impl; [|exact Hrowsj]. now intros ? [? _]. }
    assert (H1 : fold_right Qplus 0 (map (fun row => nth j row 0) rows)
                 <= inject_Z (Z.of_nat (length rows))).
    { apply sum_le_length. eapply Forall_impl; [|exact Hrowsj]. now intros ? [_ ?]. }
    assert (Hn' : n == 1 + inject_Z (Z.of_nat (length rows))).
    { unfold n. cbn [length]. rewrite Nat2Z.inj_succ, <- Z.add_1_l, inject_Z_plus.
      reflexivity. }
    split.
    + apply Qle_shift_div_l; [assumption|]. lra.
    + apply Qle_shift_div_r; [assumption|]. lra.
Qed.

Lemma removelast_length {A : Type} (l : list A) :
  length (removelast l) = (length l - 1)%nat.
Proof.
  rewrite removelast_firstn_len, length_firstn. lia.
Qed.

Lemma set_last_spec (x : Q) (a : list Q) :
  (2 <= length a)%nat ->
  exists a',
    Roc.set_last x a = Ok a' /\
    length a' = length a /\
    nth 0 a' 0 = nth 0 a 0 /\
    last a' 0 = x /\
    (forall v, In v a' -> In v a \/ v = x).
Proof.
  intros Hlen. destruct a as [|a0 a]; [simpl in Hlen; lia|].
  destruct a as [|a1 a]; [simpl in Hlen; lia|].
  eexists. split; [reflexivity|]. repeat split.
  - rewrite length_app, removelast_length. simpl. lia.
  - apply last_last.
  - intros v Hv. apply in_app_or in Hv. destruct Hv as [Hv|[<-|[]]]; [|now right].
    left. revert Hv. generalize (a0 :: a1 :: a). intros l Hv.
    induction l as [|y l IH]; [contradiction|].
    destruct l as [|z l]; [contradiction|].
    cbn [removelast] in Hv. destruct Hv as [<-|Hv]; [now left|].
    right. now apply IH.
Qed.

Lemma mean_tpr_spec (roc_curves : list (list Q * list Q)) :
  (2 <= length roc_curves)%nat ->
  Forall (fun curve => fst curve <> [] /\ length (fst curve) = length (snd curve))
         (removelast roc_curves) ->
  exists m,
    Roc.mean_tpr roc_curves = Roc.Done m /\
    length m = 100%nat /\
    nth 0 m 0 == 0 /\
    last m 0 = 1 /\
    (Forall (fun curve => StronglySorted Qle (snd curve) /\
                          0 <= hd 0 (snd curve) /\ last (snd curve) 0 <= 1)
            (removelast roc_curves) ->
     Forall (fun v => 0 <= v /\ v <= 1) m).
Proof.
  intros Hlen Hwf.
  destruct (tpr_rows _ Hwf) as [tprs [Hrun [Hn [Hrows Hunit]]]].
  unfold Roc.mean_tpr, Roc.interpolated_tprs. rewrite Hrun.
  destruct roc_curves as [|c0 cs]; [simpl in Hlen; lia|].
  destruct tprs as [|r rows].
  { rewrite removelast_length in Hn. simpl in Hn, Hlen. lia. }
  destruct (mean_axis0_rows 100 r rows Hrows ltac:(lia))
    as [m [Hmean [Hm [Hm0 Hmu]]]].
  rewrite Hmean.
  destruct (set_last_spec 1 m ltac:(lia)) as [m' [Hset [Hl [H0 [Hlast Hin]]]]].
  rewrite Hset. exists m'. split; [reflexivity|].
  split; [congruence|]. split; [now rewrite H0|]. split; [assumption|].
  intros Hroc. apply Forall_forall. intros v Hv.
  destruct (Hin v Hv) as [Hv'|Hv'].
  - pose proof (Hmu (Hunit Hroc)) as Hall. rewrite Forall_forall in Hall.
    now apply Hall.
  - subst v. split; discriminate.
Qed.

(** X25.  With at least two curves, each of those the loop reads holding as
    many false as true positive rates and at least one, the script computes
    a mean true positive rate: it has one entry per point of [mean_fpr],
    starts at 0 and ends at exactly 1. *)
Theorem mean_tpr_endpoints (roc_curves : list (list Q * list Q)) :
  (2 <= length roc_curves)%nat ->
  Forall (fun curve => fst curve <> [] /\ length (fst curve) = length (snd curve))
         (removelast roc_curves) ->
  exists m,
    Roc.mean_tpr roc_curves = Roc.Done m /\
    length m = length Roc.mean_fpr /\
    nth 0 m 0 == 0 /\
    last m 0 = 1.
Proof.
  intros Hlen Hwf.
  destruct (mean_tpr_spec roc_curves Hlen Hwf) as [m [Hrun [Hm [H0 [H1 _]]]]].
  exists m. repeat split; assumption.
Qed.

Lemma mean_tpr_endpoints_witness :
  exists m,
    Roc.mean_tpr [([0; 1], [0; 1]); ([0; 1 # 2; 1], [0; 1; 1]); ([0; 1], [0; 1])]
    = Roc.Done m /\
    length m = length Roc.mean_fpr /\
    nth 0 m 0 == 0 /\
    last m 0 = 1.
Proof.
  apply (mean_tpr_endpoints
           [([0; 1], [0; 1]); ([0; 1 # 2; 1], [0; 1; 1]); ([0; 1], [0; 1])]).
  - simpl. lia.
  - cbn [removelast]. repeat constructor; discriminate.
Defined.



(** X27.  The last curve does not enter the mean: replacing it by another
    curve that line 84 can plot (rows of equal length) leaves the result
    unchanged, and with a single curve the mean of no row is [nan], so that
    the assignment of line 89 raises [TypeError]. *)
Theorem mean_tpr_leaves_out_last_curve (curves : list (list Q * list Q))
    (c c' : list Q * list Q) :
  length (fst c) = length (snd c) ->
  length (fst c') = length (snd c') ->
  Roc.mean_tpr (curves ++ [c]) = Roc.mean_tpr (curves ++ [c']) /\
  Roc.mean_tpr [c] = Roc.Failed TypeError.
Proof.
  intros _ _. split; [|reflexivity].
  unfold Roc.mean_tpr, Roc.interpolated_tprs. rewrite !removelast_last.
  destruct curves; reflexivity.
Qed.

Lemma mean_tpr_leaves_out_last_curve_witness :
  Roc.mean_tpr ([([0; 1], [0; 1]); ([0; 1], [1; 1])] ++ [([0; 1], [0; 1])])
  = Roc.mean_tpr ([([0; 1], [0; 1]); ([0; 1], [1; 1])] ++ [([0; 1 # 2], [1; 1])]) /\
  Roc.mean_tpr [([0; 1], [0; 1])] = Roc.Failed TypeError.
Proof.
  apply (mean_tpr_leaves_out_last_curve
           [([0; 1], [0; 1]); ([0; 1], [1; 1])] ([0; 1], [0; 1]) ([0; 1 # 2], [1; 1]));
    reflexivity.
Defined.
